(** * BWA-Konverter: the extraction core of the two PDF-to-CSV converters

    Shallow embedding of
      - [pdf-to-csv_DATEV_Entwicklungsuebersicht.py]  (pipeline A), and
      - [pdf-to-csv_DATEV_SUSA.py]                    (pipeline B),
    followed by the properties of the specification that concern them.

    A Python [str] is modelled as the list of its code points.  The model
    covers texts whose code points are below 256 (Latin-1); this range
    contains every character that the patterns and label tables of the
    program mention.  Python integers are [Z], list lengths are [nat],
    exceptions are values of [exn] carried by the [result] type. *)

From Stdlib Require Import String Ascii DecimalString Floats.
From Stdlib Require Import ZArith QArith Qround Lia Lqa Bool Arith PeanoNat List.
From Stdlib Require Import Permutation.
Import ListNotations.
Close Scope Q_scope.

(* ================================================================== *)
(** * Part I: definitions                                              *)
(* ================================================================== *)

(** ** Python strings *)

Definition str := list ascii.

(** String literals of the source. *)
Definition L (s : string) : str := list_ascii_of_string s.

Definition str_eq_dec : forall a b : str, {a = b} + {a <> b} :=
  list_eq_dec ascii_dec.

Definition str_eqb (a b : str) : bool :=
  if str_eq_dec a b then true else false.

Definition code (c : ascii) : nat := nat_of_ascii c.

Definition code_in (lo hi : nat) (c : ascii) : bool :=
  (lo <=? code c) && (code c <=? hi).

(** [str.isspace] on Latin-1; it is also the class [\s] of [re]. *)
Definition is_space (c : ascii) : bool :=
  code_in 9 13 c || code_in 28 32 c || (code c =? 133) || (code c =? 160).

(** The class [\d] of [re] (decimal digits) on Latin-1. *)
Definition is_digit (c : ascii) : bool := code_in 48 57 c.

(** The class [\w] of [re] on Latin-1: alphanumeric characters
    ([str.isalnum]) and the underscore. *)
Definition is_word (c : ascii) : bool :=
  is_digit c || code_in 65 90 c || code_in 97 122 c || (code c =? 95)
  || (code c =? 170) || (code c =? 181) || (code c =? 186)
  || (code c =? 178) || (code c =? 179) || (code c =? 185)
  || code_in 188 190 c
  || code_in 192 214 c || code_in 216 246 c || code_in 248 255 c.

(** The line boundaries of [str.splitlines] on Latin-1. *)
Definition is_linebreak (c : ascii) : bool :=
  code_in 10 13 c || code_in 28 30 c || (code c =? 133).

Definition CR : ascii := ascii_of_nat 13.
Definition LF : ascii := ascii_of_nat 10.

(** [text.splitlines()]: [cur] is the line being read. *)
Fixpoint splitlines_from (cur s : str) : list str :=
  match s with
  | [] => match cur with [] => [] | _ => [cur] end
  | c :: s' =>
      if is_linebreak c then
        match s' with
        | c2 :: s'' =>
            if Ascii.eqb c CR && Ascii.eqb c2 LF
            then cur :: splitlines_from [] s''
            else cur :: splitlines_from [] s'
        | [] => cur :: splitlines_from [] s'
        end
      else splitlines_from (cur ++ [c]) s'
  end.

Definition splitlines (s : str) : list str := splitlines_from [] s.

Fixpoint lstrip (s : str) : str :=
  match s with
  | c :: s' => if is_space c then lstrip s' else s
  | [] => []
  end.

Definition rstrip (s : str) : str := rev (lstrip (rev s)).

(** [s.strip()] *)
Definition strip (s : str) : str := rstrip (lstrip s).

(** [s.split()] without argument: the maximal runs of non-blanks. *)
Fixpoint split_from (cur s : str) : list str :=
  match s with
  | [] => match cur with [] => [] | _ => [cur] end
  | c :: s' =>
      if is_space c then
        match cur with
        | [] => split_from [] s'
        | _ => cur :: split_from [] s'
        end
      else split_from (cur ++ [c]) s'
  end.

Definition split (s : str) : list str := split_from [] s.

(** [sep.join(parts)] *)
Fixpoint join (sep : str) (parts : list str) : str :=
  match parts with
  | [] => []
  | [p] => p
  | p :: ps => p ++ sep ++ join sep ps
  end.

Fixpoint startswith (p s : str) : bool :=
  match p, s with
  | [], _ => true
  | a :: p', b :: s' => Ascii.eqb a b && startswith p' s'
  | _ :: _, [] => false
  end.

Definition endswith (p s : str) : bool := startswith (rev p) (rev s).

Fixpoint find_from (i : Z) (sub s : str) : Z :=
  if startswith sub s then i
  else match s with
       | [] => (-1)%Z
       | _ :: s' => find_from (i + 1) sub s'
       end.

(** [s.find(sub)]: the lowest index of an occurrence, or [-1]. *)
Definition find (s sub : str) : Z := find_from 0 sub s.

(** [sub in s] *)
Definition contains (sub s : str) : bool := (0 <=? find s sub)%Z.

(** [s[:pos]] with Python's reading of a negative bound. *)
Definition slice_to {A} (s : list A) (pos : Z) : list A :=
  if (0 <=? pos)%Z then firstn (Z.to_nat pos) s
  else firstn (Z.to_nat (Z.of_nat (length s) + pos)) s.

(** [s[-n:]] for a length [n]: since [-0 = 0], it is the whole list
    when [n = 0]. *)
Definition slice_last {A} (n : nat) (s : list A) : list A :=
  match n with
  | O => s
  | _ => skipn (length s - n) s
  end.

(** [s.replace(a, b)] for a one-character [a]. *)
Definition replace_char (a : ascii) (b : str) (s : str) : str :=
  flat_map (fun c => if Ascii.eqb c a then b else [c]) s.

(** [[x] * n] *)
Definition times {A} (x : A) (n : nat) : list A := repeat x n.

(** [str(n)] for a length. *)
Definition str_of_nat (n : nat) : str := L (NilZero.string_of_uint (Nat.to_uint n)).

(** [str(z)] for an integer. *)
Definition str_of_Z (z : Z) : str := L (NilZero.string_of_int (Z.to_int z)).

(** ** Exceptions *)

Inductive exn : Type :=
| RuntimeError (msg : str)
| ValueError (msg : str)
| IndexError.

Inductive result (A : Type) : Type :=
| Ok (a : A)
| Raise (e : exn).
Arguments Ok {A} a.
Arguments Raise {A} e.

Definition bind {A B} (m : result A) (f : A -> result B) : result B :=
  match m with
  | Ok a => f a
  | Raise e => Raise e
  end.

Notation "x <- m ;; k" := (bind m (fun x => k))
  (at level 61, m at next level, right associativity).

(** ** Regular expressions

    A backtracking matcher with the priorities of Python's [re]: the left
    alternative first, greedy repetition first.  A position is the
    character before it ([None] at the start of the string) and the text
    after it; [grp] is the text of capture group 1. *)

Inductive regex : Type :=
| Eps
| Cls (p : ascii -> bool)
| Seq (r1 r2 : regex)
| Alt (r1 r2 : regex)
| Star (r : regex)
| WordB
| Bos
| Eos
| Grp (r : regex).

Record mstate : Type := MState
  { prev : option ascii; rest : str; grp : option str }.

Definition word_at (c : option ascii) : bool :=
  match c with Some a => is_word a | None => false end.

(** [\b]: exactly one side of the position is a word character. *)
Definition at_boundary (p : option ascii) (s : str) : bool :=
  xorb (word_at p) (word_at (hd_error s)).

(** [$] without MULTILINE: the end, or before a final newline. *)
Definition at_eos (s : str) : bool :=
  match s with
  | [] => true
  | [c] => Ascii.eqb c LF
  | _ => false
  end.

Definition at_bos (p : option ascii) : bool :=
  match p with None => true | Some _ => false end.

(** The text between position [st] and the later position [st']. *)
Definition consumed (st st' : mstate) : str :=
  firstn (length (rest st) - length (rest st')) (rest st).

(** Greedy repetition of [body]: an iteration must consume something;
    [fuel] bounds the iterations by the length of the text. *)
Fixpoint star_loop {A} (body : (mstate -> option A) -> mstate -> option A)
  (k : mstate -> option A) (fuel : nat) (st : mstate) {struct fuel} : option A :=
  match fuel with
  | O => k st
  | S f =>
      match body (fun st' =>
                    if length (rest st') <? length (rest st)
                    then star_loop body k f st' else None) st with
      | Some x => Some x
      | None => k st
      end
  end.

Fixpoint rmatch {A} (r : regex) (k : mstate -> option A) (st : mstate)
  {struct r} : option A :=
  match r with
  | Eps => k st
  | Cls p =>
      match rest st with
      | c :: s' => if p c then k (MState (Some c) s' (grp st)) else None
      | [] => None
      end
  | Seq r1 r2 => rmatch r1 (rmatch r2 k) st
  | Alt r1 r2 =>
      match rmatch r1 k st with
      | Some x => Some x
      | None => rmatch r2 k st
      end
  | Star r1 => star_loop (rmatch r1) k (length (rest st)) st
  | WordB => if at_boundary (prev st) (rest st) then k st else None
  | Bos => if at_bos (prev st) then k st else None
  | Eos => if at_eos (rest st) then k st else None
  | Grp r1 =>
      rmatch r1 (fun st' => k (MState (prev st') (rest st') (Some (consumed st st')))) st
  end.

(** One attempt of the pattern at a position. *)
Definition match_here (r : regex) (p : option ascii) (s : str) : option mstate :=
  rmatch r (fun st => Some st) (MState p s None).

(** [pattern.match(s)] as a truth value. *)
Definition re_match (r : regex) (s : str) : bool :=
  match match_here r None s with Some _ => true | None => false end.

(** [pattern.finditer(s)]: the leftmost matches, none overlapping an
    earlier one; each with its text and its group 1.  [skip] counts the
    characters still covered by the last match.  Every pattern of the
    program matches non-empty texts only, so no match is tried at the
    end of the string. *)
Fixpoint scan (r : regex) (skip : nat) (p : option ascii) (s : str)
  : list (str * option str) :=
  match s with
  | [] => []
  | c :: s' =>
      match skip with
      | S k => scan r k (Some c) s'
      | O =>
          match match_here r p s with
          | Some st' =>
              let m := firstn (length s - length (rest st')) s in
              (m, grp st') :: scan r (length m - 1) (Some c) s'
          | None => scan r 0 (Some c) s'
          end
      end
  end.

Definition finditer (r : regex) (s : str) : list (str * option str) :=
  scan r 0 None s.

(** [pattern.findall(s)] for a pattern without group. *)
Definition findall (r : regex) (s : str) : list str := map fst (finditer r s).

(** [pattern.sub(r"\1", s)] *)
Fixpoint sub_scan (r : regex) (skip : nat) (p : option ascii) (s : str) : str :=
  match s with
  | [] => []
  | c :: s' =>
      match skip with
      | S k => sub_scan r k (Some c) s'
      | O =>
          match match_here r p s with
          | Some st' =>
              let m := firstn (length s - length (rest st')) s in
              let repl := match grp st' with Some g => g | None => [] end in
              match m with
              | [] => repl ++ c :: sub_scan r 0 (Some c) s'
              | _ => repl ++ sub_scan r (length m - 1) (Some c) s'
              end
          | None => c :: sub_scan r 0 (Some c) s'
          end
      end
  end.

Definition sub_group1 (r : regex) (s : str) : str := sub_scan r 0 None s.

(** *** Pattern syntax *)

Definition lit (c : ascii) : regex := Cls (Ascii.eqb c).

Fixpoint seqs (rs : list regex) : regex :=
  match rs with
  | [] => Eps
  | [r] => r
  | r :: rs' => Seq r (seqs rs')
  end.

Fixpoint alts (rs : list regex) : regex :=
  match rs with
  | [] => Cls (fun _ => false)
  | [r] => r
  | r :: rs' => Alt r (alts rs')
  end.

(** A literal text. *)
Definition txt (s : string) : regex := seqs (map lit (L s)).

(** [r?] *)
Definition Opt (r : regex) : regex := Alt r Eps.

(** [r+] *)
Definition Plus (r : regex) : regex := Seq r (Star r).

(** [r{0,n}] *)
Fixpoint upto (r : regex) (n : nat) : regex :=
  match n with
  | O => Eps
  | S k => Opt (Seq r (upto r k))
  end.

Fixpoint exactly (r : regex) (n : nat) (tail : regex) : regex :=
  match n with
  | O => tail
  | S k => Seq r (exactly r k tail)
  end.

(** [r{lo,hi}] *)
Definition rep (r : regex) (lo hi : nat) : regex := exactly r lo (upto r (hi - lo)).

Definition d : regex := Cls is_digit.
Definition ws : regex := Cls is_space.

(** [[/\.\-]] *)
Definition is_sep (c : ascii) : bool :=
  Ascii.eqb c "/" || Ascii.eqb c "." || Ascii.eqb c "-".

(** The letter a-umlaut (U+00E4) and o-umlaut (U+00F6). *)
Definition a_uml : ascii := ascii_of_nat 228.
Definition o_uml : ascii := ascii_of_nat 246.

(** The month names of [MONTHS_RE]. *)
Definition MONTH_NAMES : regex :=
  alts [ Seq (txt "Jan") (Opt (txt "uar"));
         Seq (txt "Feb") (Opt (txt "ruar"));
         Seq (txt "M") (alts [ seqs [lit a_uml; txt "r"; Opt (txt "z")];
                               Seq (txt "aer") (Opt (txt "z"));
                               txt "rz";
                               txt "ar" ]);
         Seq (txt "Apr") (Opt (txt "il"));
         txt "Mai";
         Seq (txt "Jun") (Opt (txt "i"));
         Seq (txt "Jul") (Opt (txt "i"));
         Seq (txt "Aug") (Opt (txt "ust"));
         Seq (txt "Sep") (Opt (Seq (txt "t") (Opt (txt "ember"))));
         Seq (txt "Okt") (Opt (txt "ober"));
         Seq (txt "Nov") (Opt (txt "ember"));
         Seq (txt "Dez") (Opt (txt "ember")) ].

(** [\.?\s*(?:[/\.\-]\s*|\s+)] *)
Definition MONTH_SEP : regex :=
  seqs [ Opt (txt "."); Star ws; Alt (Seq (Cls is_sep) (Star ws)) (Plus ws) ].

Definition MONTHS_RE : regex :=
  seqs [ WordB; MONTH_NAMES; MONTH_SEP; rep d 2 4; WordB ].

(** [-?\d{1,3}(?:\.\d{3})*,\d{2}|-?0,00] *)
Definition DE_NUMBER_RE : regex :=
  Alt (seqs [ Opt (txt "-"); rep d 1 3; Star (Seq (txt ".") (rep d 3 3));
              txt ","; rep d 2 2 ])
      (seqs [ Opt (txt "-"); txt "0,00" ]).

(** [\s*([/.\-])\s*] *)
Definition SEPARATOR_CLEAN_RE : regex :=
  seqs [ Star ws; Grp (Cls is_sep); Star ws ].

(** [^\d{3,4}\s*\d{2}$], the pattern [konto_re] of [parse_pdf]. *)
Definition konto_re : regex :=
  seqs [ Bos; rep d 3 4; Star ws; rep d 2 2; Eos ].

(** ** Pipeline A: [pdf-to-csv_DATEV_Entwicklungsuebersicht.py] *)

(** A row of the table: [(label, values)]. *)
Definition row : Type := (str * list str)%type.

Definition mem (x : str) (xs : list str) : bool := existsb (str_eqb x) xs.

Definition SECTION_BREAK_AFTER : list str :=
  [ L "Aktivierte Eigenleistungen";
    L "Gesamtleistung";
    L "Material-/Wareneinkauf";
    L "Rohertrag";
    L "So. betr. Erl" ++ [o_uml] ++ L "se";
    L "Betrieblicher Rohertrag";
    L "Gesamtkosten";
    L "Betriebsergebnis";
    L "Neutraler Aufwand";
    L "Neutraler Ertrag";
    L "Kontenklasse unbesetzt";
    L "Ergebnis vor Steuern";
    L "Steuern Einkommen u. Ertrag";
    L "Vorl" ++ [a_uml] ++ L "ufiges Ergebnis" ].

Definition COST_LABELS : list str :=
  [ L "Personalkosten";
    L "Raumkosten";
    L "Betriebliche Steuern";
    L "Versicherungen/Beitr" ++ [a_uml] ++ L "ge";
    L "Besondere Kosten";
    L "Fahrzeugkosten (ohne Steuer)";
    L "Werbe-/Reisekosten";
    L "Kosten Warenabgabe";
    L "Abschreibungen";
    L "Reparatur/Instandhaltung";
    L "Sonstige Kosten";
    L "Gesamtkosten" ].

Definition KOSTENARTEN : str := L "Kostenarten:".

Definition normalize_month_token (token : str) : str :=
  let token := join (L " ") (split token) in
  sub_group1 SEPARATOR_CLEAN_RE token.

(** The loop of [extract_month_tokens] over the matches: the state is
    the set [seen] and the list [ordered]. *)
Fixpoint collect_months (seen ordered : list str) (months : list str) : list str :=
  match months with
  | [] => ordered
  | m :: ms =>
      let normalized := normalize_month_token m in
      if mem normalized seen then collect_months seen ordered ms
      else collect_months (normalized :: seen) (ordered ++ [normalized]) ms
  end.

Definition extract_month_tokens (text : str) : list str :=
  collect_months [] [] (findall MONTHS_RE text).

Definition ANCHOR : str := L "Bezeichnung".

(** The first loop of [detect_month_header], over the lines. *)
Fixpoint detect_in_lines (lines : list str) : option (list str) :=
  match lines with
  | [] => None
  | raw_line :: ls =>
      if negb (contains ANCHOR raw_line) then detect_in_lines ls
      else
        let ordered := extract_month_tokens raw_line in
        if 13 <=? length ordered then Some (slice_last 13 ordered)
        else detect_in_lines ls
  end.

Definition detect_month_header (text : str) : option (list str) :=
  match detect_in_lines (splitlines text) with
  | Some h => Some h
  | None =>
      let ordered := extract_month_tokens text in
      if 13 <=? length ordered then Some (slice_last 13 ordered) else None
  end.

(** The body of the loop of [parse_rows_from_text] for one line: the row
    it appends, if any.  [values[0]] raises on an empty list. *)
Definition parse_line (raw_line : str) (months : list str) : result (option row) :=
  let line := strip raw_line in
  match line with
  | [] => Ok None
  | _ =>
      if str_eqb line KOSTENARTEN then Ok (Some (line, times [] (length months)))
      else
        let nums := findall DE_NUMBER_RE line in
        if length months <=? length nums then
          let values := slice_last (length months) nums in
          match values with
          | [] => Raise IndexError
          | first_num :: _ =>
              let pos := find line first_num in
              let label := strip (slice_to line pos) in
              Ok (Some (label, values))
          end
        else Ok None
  end.

Fixpoint parse_lines (lines : list str) (months : list str) : result (list row) :=
  match lines with
  | [] => Ok []
  | raw_line :: ls =>
      r <- parse_line raw_line months ;;
      rows <- parse_lines ls months ;;
      Ok (match r with Some x => x :: rows | None => rows end)
  end.

Definition parse_rows_from_text (text : str) (months : list str) : result (list row) :=
  parse_lines (splitlines text) months.

(** [next((i for i, (label, _) in enumerate(rows) if label in COST_LABELS), None)] *)
Fixpoint first_cost_idx (rows : list row) : option nat :=
  match rows with
  | [] => None
  | (label, _) :: rs =>
      if mem label COST_LABELS then Some 0
      else option_map S (first_cost_idx rs)
  end.

Definition ensure_kostenarten (rows : list row) (months : list str) : list row :=
  let labels := map fst rows in
  if mem KOSTENARTEN labels then rows
  else match first_cost_idx rows with
       | None => rows
       | Some i =>
           firstn i rows ++ [(KOSTENARTEN, times [] (length months))] ++ skipn i rows
       end.

Definition blank_row (months_count : nat) : row := ([], times [] months_count).

Definition insert_section_breaks (rows : list row) (months_count : nat) : list row :=
  [blank_row months_count]
  ++ flat_map (fun r : row =>
                 r :: (if mem (fst r) SECTION_BREAK_AFTER
                       then [blank_row months_count] else [])) rows
  ++ [blank_row months_count].

Definition all_empty (values : list str) : bool :=
  forallb (fun v => str_eqb v []) values.

Definition not_ {A} (xs : list A) : bool :=
  match xs with [] => true | _ => false end.

(** [not label and (not values or all(v == "" for v in values))] *)
Definition is_blank (r : row) : bool :=
  not_ (fst r) && (not_ (snd r) || all_empty (snd r)).

(** The loop of [compress_blank_rows]; the state is [prev_blank]. *)
Fixpoint compress_from (prev_blank : bool) (rows : list row) : list row :=
  match rows with
  | [] => []
  | r :: rs =>
      if is_blank r && prev_blank then compress_from prev_blank rs
      else r :: compress_from (is_blank r) rs
  end.

Definition compress_blank_rows (rows : list row) : list row :=
  compress_from false rows.

Definition table : Type := (list str * list (list str))%type.

Definition mismatch_message (n_structure n_rows : nat) : str :=
  L "Struktur hat " ++ str_of_nat n_structure
  ++ L " Zeilen, Ergebnis hat " ++ str_of_nat n_rows ++ L " Zeilen.".

Definition output_row (header : list str) (r : row) : list str :=
  let '(label, values) := r in
  if not_ label && negb (not_ values) && all_empty values
  then [[]] ++ times [] (length header)
  else [label] ++ values.

Definition build_output_table (header : list str) (final_rows : list row)
  (structure_numbers : option (list str)) : result table :=
  match structure_numbers with
  | Some sn =>
      if negb (length sn =? length final_rows)
      then Raise (RuntimeError (mismatch_message (length sn) (length final_rows)))
      else Ok ([L "Bezeichnung"] ++ header, map (output_row header) final_rows)
  | None => Ok ([L "Bezeichnung"] ++ header, map (output_row header) final_rows)
  end.

Definition row_eqb (a b : row) : bool :=
  if str_eq_dec (fst a) (fst b) then
    if list_eq_dec str_eq_dec (snd a) (snd b) then true else false
  else false.

(** The de-duplication loop of [convert_page_to_csv]; the keys
    [(label, tuple(values))] in [seen] are the rows themselves. *)
Fixpoint uniq_from (seen : list row) (rows : list row) : list row :=
  match rows with
  | [] => []
  | r :: rs =>
      if existsb (row_eqb r) seen then uniq_from seen rs
      else r :: uniq_from (r :: seen) rs
  end.

(** [convert_page_to_csv] from the page text on, up to the table that is
    written. *)
Definition convert_text (page_text : str) (structure_numbers : option (list str))
  : result table :=
  match detect_month_header page_text with
  | None | Some [] =>
      Raise (RuntimeError (L "Konnte keine 13 Monats-Spalten auf der Seite erkennen."))
  | Some header =>
      rows <- parse_rows_from_text page_text header ;;
      let rows := ensure_kostenarten rows header in
      let uniq_rows := uniq_from [] rows in
      let final_rows :=
        compress_blank_rows (insert_section_breaks uniq_rows (length header)) in
      build_output_table header final_rows structure_numbers
  end.

(** The choice of the page in [convert_page_to_csv].  [pages] holds
    [page.extract_text() or ""] of every page; [find_page] stands for
    [find_entwicklungsuebersicht_page]. *)
Definition select_page_text (find_page : list str -> option (Z * str))
  (pages : list str) (page_number : option Z) : result str :=
  match page_number with
  | None =>
      match find_page pages with
      | None =>
          Raise (RuntimeError (L "Keine Seite mit 'Entwicklungsuebersicht' in der PDF gefunden."))
      | Some (_, page_text) => Ok page_text
      end
  | Some n =>
      if (n <? 1)%Z then Raise (ValueError (L "page_number muss 1-basiert sein"))
      else if (n >? Z.of_nat (length pages))%Z then
        Raise (ValueError (L "PDF hat nur " ++ str_of_nat (length pages)
                           ++ L " Seiten, angefragt wurde " ++ str_of_Z n ++ L "."))
      else Ok (nth (Z.to_nat (n - 1)) pages [])
  end.

Definition convert_page_to_csv (find_page : list str -> option (Z * str))
  (pages : list str) (page_number : option Z)
  (structure_numbers : option (list str)) : result table :=
  page_text <- select_page_text find_page pages page_number ;;
  convert_text page_text structure_numbers.

(** ** Pipeline B: [pdf-to-csv_DATEV_SUSA.py] *)

(** The dictionary built by [slice_columns]: one text per entry of
    [COLUMN_BOUNDS]. *)
Record columns : Type := Columns
  { c_konto : str; c_beschriftung : str; c_eb_wert : str;
    c_soll : str; c_haben : str; c_kum_soll : str; c_kum_haben : str;
    c_saldo : str }.

(** A row of [parse_pdf]. *)
Record susa_row : Type := SusaRow
  { r_konto : str; r_beschriftung : str; r_eb_wert : float;
    r_soll : float; r_haben : float; r_kum_soll : float; r_kum_haben : float;
    r_saldo : float }.

(** The value of the integer [sign] as a factor of a float product. *)
Definition float_of_sign (negative : bool) : float :=
  if negative then (-1)%float else 1%float.

Definition konto_matches (konto : str) : bool := re_match konto_re konto.

(** The page range of [parse_pdf] as indices of [pdf.pages]; [found] is
    the value of [find_susa_page_range(pdf)]. *)
Definition page_range (total_pages : Z) (found : option (Z * Z))
  (start_page end_page : option Z) : result (Z * Z) :=
  se <- match start_page, end_page with
        | None, None =>
            match found with
            | None =>
                Raise (RuntimeError (L "Keine Seite mit 'Summen und Salden' in der PDF gefunden."))
            | Some (s, e) => Ok (Some s, Some e)
            end
        | _, _ => Ok (start_page, end_page)
        end ;;
  let start_page := match fst se with None => 1%Z | Some s => s end in
  let end_page := match snd se with None => total_pages | Some e => e end in
  let start_idx := Z.max (start_page - 1) 0 in
  let end_idx := Z.min end_page total_pages in
  if (start_idx >=? total_pages)%Z then
    Raise (ValueError (L "Startseite " ++ str_of_Z start_page
                       ++ L " liegt ausserhalb der PDF mit "
                       ++ str_of_Z total_pages ++ L " Seiten."))
  else if (end_idx <=? start_idx)%Z then
    Raise (ValueError (L "Endseite " ++ str_of_Z end_page
                       ++ L " muss groesser als Startseite "
                       ++ str_of_Z start_page ++ L " sein."))
  else Ok (start_idx, end_idx).

(** The text that [parse_amount] hands to [float], for a non-empty
    [text]: the value of [cleaned] at the [try]. *)
Definition cleaned_amount (text : str) : str :=
  let cleaned := replace_char " " [] text in
  let cleaned :=
    if endswith (L "S") cleaned || endswith (L "H") cleaned
    then slice_to cleaned (-1) else cleaned in
  replace_char "," (L ".") (replace_char "." [] cleaned).

(** Whether [sign] is [-1] at the [try]. *)
Definition amount_negative (text : str) (signed : bool) : bool :=
  let cleaned := replace_char " " [] text in
  (endswith (L "S") cleaned || endswith (L "H") cleaned)
  && signed && endswith (L "H") cleaned.

Section PipelineB.

(** The builtin [float] applied to a [str]. *)
Variable py_float : str -> result float.

(** [parse_amount]: the handler catches [ValueError] and nothing else. *)
Definition parse_amount (text : str) (signed : bool) : result float :=
  match text with
  | [] => Ok 0%float
  | _ =>
      match py_float (cleaned_amount text) with
      | Ok v => Ok (PrimFloat.mul (float_of_sign (amount_negative text signed)) v)
      | Raise (ValueError _) => Ok 0%float
      | Raise e => Raise e
      end
  end.

(** The body of the inner loop of [parse_pdf] for the columns of one
    line: the row it appends, if any. *)
Definition parse_columns (cols : columns) : result (option susa_row) :=
  let konto := strip (c_konto cols) in
  if negb (konto_matches konto) then Ok None
  else
    eb_wert <- parse_amount (c_eb_wert cols) true ;;
    soll <- parse_amount (c_soll cols) false ;;
    haben <- parse_amount (c_haben cols) false ;;
    kum_soll <- parse_amount (c_kum_soll cols) false ;;
    kum_haben <- parse_amount (c_kum_haben cols) false ;;
    saldo <- parse_amount (c_saldo cols) true ;;
    Ok (Some (SusaRow konto (c_beschriftung cols)
                eb_wert soll haben kum_soll kum_haben saldo)).

Fixpoint parse_page_lines (lines : list columns) : result (list susa_row) :=
  match lines with
  | [] => Ok []
  | cols :: ls =>
      r <- parse_columns cols ;;
      rows <- parse_page_lines ls ;;
      Ok (match r with Some x => x :: rows | None => rows end)
  end.

Fixpoint parse_pages (pages : list (list columns)) : result (list susa_row) :=
  match pages with
  | [] => Ok []
  | page :: ps =>
      rows <- parse_page_lines page ;;
      more <- parse_pages ps ;;
      Ok (rows ++ more)
  end.

(** [parse_pdf]; a page is the list of the [slice_columns] of its
    lines, in the order of [collect_lines]. *)
Definition parse_pdf (pages : list (list columns)) (found : option (Z * Z))
  (start_page end_page : option Z) : result (list susa_row) :=
  range <- page_range (Z.of_nat (length pages)) found start_page end_page ;;
  let '(start_idx, end_idx) := range in
  parse_pages
    (firstn (Z.to_nat end_idx - Z.to_nat start_idx) (skipn (Z.to_nat start_idx) pages)).

End PipelineB.

(** A reading of plain decimal numerals ([digits] or [digits.digits])
    as floats, used as an instance of the builtin. *)
Fixpoint digits_value (acc : Z) (s : str) : option Z :=
  match s with
  | [] => Some acc
  | c :: s' =>
      if is_digit c then digits_value (acc * 10 + Z.of_nat (code c - 48)) s'
      else None
  end.

Fixpoint split_at_dot (s : str) : str * option str :=
  match s with
  | [] => ([], None)
  | c :: s' =>
      if Ascii.eqb c "." then ([], Some s')
      else let '(a, b) := split_at_dot s' in (c :: a, b)
  end.

Definition float_of_Z (z : Z) : float := PrimFloat.of_uint63 (Uint63.of_Z z).

Definition decimal_float (s : str) : result float :=
  let '(int_part, frac) := split_at_dot s in
  let frac_part := match frac with Some f => f | None => [] end in
  match int_part, digits_value 0 (int_part ++ frac_part) with
  | _ :: _, Some n =>
      Ok (PrimFloat.div (float_of_Z n) (float_of_Z (10 ^ Z.of_nat (length frac_part))))
  | _, _ => Raise (ValueError (L "could not convert string to float"))
  end.


(** ** The language of a pattern

    [lang r p m s]: at a position with the character [p] before it and
    the text [m ++ s] after it, the pattern [r] can consume exactly [m]. *)

(** The character before the position reached by reading [m]. *)
Fixpoint prev_after (p : option ascii) (m : str) : option ascii :=
  match m with
  | [] => p
  | c :: m' => prev_after (Some c) m'
  end.

Inductive lang : regex -> option ascii -> str -> str -> Prop :=
| L_Eps p s : lang Eps p [] s
| L_Cls f p c s : f c = true -> lang (Cls f) p [c] s
| L_Seq r1 r2 p m1 m2 s :
    lang r1 p m1 (m2 ++ s) -> lang r2 (prev_after p m1) m2 s ->
    lang (Seq r1 r2) p (m1 ++ m2) s
| L_AltL r1 r2 p m s : lang r1 p m s -> lang (Alt r1 r2) p m s
| L_AltR r1 r2 p m s : lang r2 p m s -> lang (Alt r1 r2) p m s
| L_StarNil r p s : lang (Star r) p [] s
| L_StarCons r p m1 m2 s :
    lang r p m1 (m2 ++ s) -> m1 <> [] ->
    lang (Star r) (prev_after p m1) m2 s ->
    lang (Star r) p (m1 ++ m2) s
| L_WordB p s : at_boundary p s = true -> lang WordB p [] s
| L_Bos p s : at_bos p = true -> lang Bos p [] s
| L_Eos p s : at_eos s = true -> lang Eos p [] s
| L_Grp r p m s : lang r p m s -> lang (Grp r) p m s.

(** Every character, in the order of its code. *)
Definition all_ascii : list ascii := map ascii_of_nat (seq 0 256).

(** Every character class of [r] lies within [f]. *)
Fixpoint chars_in (f : ascii -> bool) (r : regex) : bool :=
  match r with
  | Cls g => forallb (fun c => implb (g c) (f c)) all_ascii
  | Seq r1 r2 | Alt r1 r2 => chars_in f r1 && chars_in f r2
  | Star r1 | Grp r1 => chars_in f r1
  | Eps | WordB | Bos | Eos => true
  end.

(** [r] has no [^] and no [$]. *)
Fixpoint no_anchor (r : regex) : bool :=
  match r with
  | Bos | Eos => false
  | Seq r1 r2 | Alt r1 r2 => no_anchor r1 && no_anchor r2
  | Star r1 | Grp r1 => no_anchor r1
  | Eps | Cls _ | WordB => true
  end.

Fixpoint star_free (r : regex) : bool :=
  match r with
  | Star _ => false
  | Seq r1 r2 | Alt r1 r2 => star_free r1 && star_free r2
  | Grp r1 => star_free r1
  | Eps | Cls _ | WordB | Bos | Eos => true
  end.

(** A lower bound of the length of the texts of [r]. *)
Fixpoint minlen (r : regex) : nat :=
  match r with
  | Cls _ => 1
  | Seq r1 r2 => minlen r1 + minlen r2
  | Alt r1 r2 => Nat.min (minlen r1) (minlen r2)
  | Grp r1 => minlen r1
  | Star _ | Eps | WordB | Bos | Eos => 0
  end.

(** An upper bound of the length of the texts of a pattern without
    repetition. *)
Fixpoint maxlen (r : regex) : nat :=
  match r with
  | Cls _ => 1
  | Seq r1 r2 => maxlen r1 + maxlen r2
  | Alt r1 r2 => Nat.max (maxlen r1) (maxlen r2)
  | Grp r1 => maxlen r1
  | Star _ | Eps | WordB | Bos | Eos => 0
  end.

(** The texts of a pattern without repetition. *)
Fixpoint enum (r : regex) : list str :=
  match r with
  | Cls g => map (fun c => [c]) (filter g all_ascii)
  | Seq r1 r2 =>
      flat_map (fun m1 => map (fun m2 => m1 ++ m2) (enum r2)) (enum r1)
  | Alt r1 r2 => enum r1 ++ enum r2
  | Grp r1 => enum r1
  | Star _ => []
  | Eps | WordB | Bos | Eos => [[]]
  end.

(** ** Predicates of the specification *)

(** No two neighbours of the sequence are both blank. *)
Fixpoint no_blank_run (rows : list row) : Prop :=
  match rows with
  | a :: (b :: _) as tl => (is_blank a && is_blank b = false) /\ no_blank_run tl
  | _ => True
  end.

(** The header-width invariant. *)
Definition width_ok (n : nat) (rows : list row) : Prop :=
  Forall (fun r : row => length (snd r) = n) rows.

(** The number of rows that carry the sentinel label. *)
Definition sentinel_count (rows : list row) : nat :=
  length (filter (fun r : row => str_eqb (fst r) KOSTENARTEN) rows).

(** The account-number shape that [konto_re] describes: 3 or 4 digits,
    blanks (possibly none), 2 digits. *)
Definition konto_shape (k : str) : Prop :=
  exists d1 w d2,
    k = d1 ++ w ++ d2
    /\ (length d1 = 3 \/ length d1 = 4) /\ forallb is_digit d1 = true
    /\ forallb is_space w = true
    /\ length d2 = 2 /\ forallb is_digit d2 = true.

(** The shape with at least one blank between the groups of digits. *)
Definition konto_shape_blank (k : str) : Prop :=
  exists d1 w d2,
    k = d1 ++ w ++ d2
    /\ (length d1 = 3 \/ length d1 = 4) /\ forallb is_digit d1 = true
    /\ w <> [] /\ forallb is_space w = true
    /\ length d2 = 2 /\ forallb is_digit d2 = true.

(** A header of 13 month tokens, as [detect_month_header] returns them. *)
Definition HEADER_2024 : list str :=
  [ L "Jan/2024"; L "Feb/2024"; L "Mrz/2024"; L "Apr/2024"; L "Mai/2024";
    L "Jun/2024"; L "Jul/2024"; L "Aug/2024"; L "Sep/2024"; L "Okt/2024";
    L "Nov/2024"; L "Dez/2024"; L "Jan/2025" ].

(** A line with 14 amounts whose first two are the same text. *)
Definition LINE_REPEATED_AMOUNT : str :=
  L "Miete 1,00 1,00 2,00 3,00 4,00 5,00 6,00 7,00 8,00 9,00 10,00 11,00 12,00 13,00".

(** The first occurrences of the elements of a list, in their order:
    what the loop of [extract_month_tokens] is to compute. *)
Fixpoint dedup_first (xs : list str) : list str :=
  match xs with
  | [] => []
  | x :: xs' => x :: filter (fun y => negb (str_eqb y x)) (dedup_first xs')
  end.

(** [ordered[-13:]] for a list of at least 13 elements. *)
Definition last13 (ordered : list str) : list str :=
  skipn (length ordered - 13) ordered.

(** The characters of [MONTH_SEP]. *)
Definition is_month_sep (c : ascii) : bool := is_sep c || is_space c.

Definition is_upper (c : ascii) : bool := code_in 65 90 c.

(** The text [b] is empty or begins outside the class [f]. *)
Definition stops (f : ascii -> bool) (b : str) : bool :=
  match b with
  | [] => true
  | c :: _ => negb (f c)
  end.

(** The class [f] lies within the class [g]. *)
Definition class_incl (f g : ascii -> bool) : bool :=
  forallb (fun c => implb (f c) (g c)) all_ascii.

(** A row whose label is no cost-category label. *)
Definition not_cost (r : row) : Prop := mem (fst r) COST_LABELS = false.

(** A matcher that sees its continuation only through its values. *)
Definition ext_body {A} (body : (mstate -> option A) -> mstate -> option A) : Prop :=
  forall k1 k2, (forall st, k1 st = k2 st) -> forall st, body k1 st = body k2 st.

(** The text [a] is empty or ends with a line boundary; the text [b] is
    empty or begins with one. *)
Definition ends_line (a : str) : Prop :=
  a = [] \/ exists a' c, a = a' ++ [c] /\ is_linebreak c = true.

Definition starts_line (b : str) : Prop :=
  b = [] \/ exists c b', b = c :: b' /\ is_linebreak c = true.

(** A line that holds the anchor label; a text with fewer than 13
    distinct month tokens. *)
Definition anchor_line (l : str) : Prop := contains ANCHOR l = true.

Definition tokens_short (l : str) : Prop :=
  length (extract_month_tokens l) < 13.


(** A page of a report: a title, the header line, four table lines (one
    of them twice) and a footer. *)
Definition SAMPLE_AMOUNTS : str :=
  L " 1,00 2,00 3,00 4,00 5,00 6,00 7,00 8,00 9,00 10,00 11,00 12,00 13,00".

Definition SAMPLE_HEADER_LINE : str :=
  L "Bezeichnung Jan/2024 Feb/2024 Mrz/2024 Apr/2024 Mai/2024 Jun/2024 Jul/2024 Aug/2024 Sep/2024 Okt/2024 Nov/2024 Dez/2024 Jan/2025".

Definition SAMPLE_PAGE : str :=
  L "BWA Dez 2023 Entwicklung" ++ [LF]
  ++ SAMPLE_HEADER_LINE ++ [LF]
  ++ L "Umsatz" ++ SAMPLE_AMOUNTS ++ [LF]
  ++ L "Gesamtleistung" ++ SAMPLE_AMOUNTS ++ [LF]
  ++ L "Personalkosten" ++ SAMPLE_AMOUNTS ++ [LF]
  ++ L "Personalkosten" ++ SAMPLE_AMOUNTS ++ [LF]
  ++ L "Seite 1" ++ [LF].

Definition SAMPLE_VALUES : list str :=
  [ L "1,00"; L "2,00"; L "3,00"; L "4,00"; L "5,00"; L "6,00"; L "7,00";
    L "8,00"; L "9,00"; L "10,00"; L "11,00"; L "12,00"; L "13,00" ].

(** The rows that are not blank, in their order. *)
Definition data_rows (rows : list row) : list row :=
  filter (fun r => negb (is_blank r)) rows.

(** The number of rows whose label ends a section. *)
Definition section_ends (rows : list row) : nat :=
  length (filter (fun r : row => mem (fst r) SECTION_BREAK_AFTER) rows).

(** The message of [convert_page_to_csv] for a page without header. *)
Definition NO_HEADER : exn :=
  RuntimeError (L "Konnte keine 13 Monats-Spalten auf der Seite erkennen.").

(** A line that is neither blank nor the sentinel heading and holds no
    amount. *)
Definition bare_line (raw_line : str) : Prop :=
  strip raw_line <> [] /\ strip raw_line <> KOSTENARTEN
  /\ findall DE_NUMBER_RE (strip raw_line) = [].

(** The characters of an amount before its decimal comma. *)
Definition is_amount_char (c : ascii) : bool :=
  is_digit c || Ascii.eqb c "." || Ascii.eqb c "-".

(** ** Page search and structure file *)

(** A letter of a pattern under IGNORECASE: the lower-case letter [c] or
    its capital. *)
Definition ci (c : ascii) : regex :=
  Cls (fun x => Ascii.eqb x c || Ascii.eqb x (ascii_of_nat (code c - 32))).

Definition txt_ci (s : string) : regex := seqs (map ci (L s)).

(** [SUSA_HEADER_RE], compiled with IGNORECASE: the word [summen],
    blanks, optionally a hyphen and blanks, the word [und], blanks, the
    word [salden]; all blanks may be absent. *)
Definition SUSA_HEADER_RE : regex :=
  seqs [ txt_ci "summen"; Star ws; Opt (Seq (lit "-") (Star ws));
         txt_ci "und"; Star ws; txt_ci "salden" ].

(** [pattern.search(s)] as a truth value: the first position, from the
    left, at which the pattern matches. *)
Fixpoint search_from (r : regex) (p : option ascii) (s : str) : bool :=
  match match_here r p s with
  | Some _ => true
  | None =>
      match s with
      | [] => false
      | c :: s' => search_from r (Some c) s'
      end
  end.

Definition re_search (r : regex) (s : str) : bool := search_from r None s.

(** The list [matches] of [find_susa_page_range]; [index] is the number
    of the first page of [pages]. *)
Fixpoint susa_matches (index : Z) (pages : list str) : list Z :=
  match pages with
  | [] => []
  | page_text :: ps =>
      if re_search SUSA_HEADER_RE page_text
      then index :: susa_matches (index + 1) ps
      else susa_matches (index + 1) ps
  end.

(** [find_susa_page_range]: [None] stands for [(None, None)]. *)
Definition find_susa_page_range (pages : list str) : option (Z * Z) :=
  match susa_matches 1 pages with
  | [] => None
  | m :: ms => Some (m, last ms m)
  end.

(** The letter u-umlaut (U+00FC). *)
Definition u_uml : ascii := ascii_of_nat 252.

Definition ENTWICKLUNGSUEBERSICHT_TERMS : list str :=
  [ L "entwicklungs" ++ [u_uml] ++ L "bersicht"; L "entwicklungsuebersicht" ].

(** [any(term in lowered for term in ENTWICKLUNGSUEBERSICHT_TERMS)] *)
Definition has_term (lowered : str) : bool :=
  existsb (fun term => contains term lowered) ENTWICKLUNGSUEBERSICHT_TERMS.

Section PageSearch.

(** The method [str.casefold]. *)
Variable casefold : str -> str.

(** The loop of [find_entwicklungsuebersicht_page] from the page number
    [index] on. *)
Fixpoint find_page_from (index : Z) (pages : list str) : option (Z * str) :=
  match pages with
  | [] => None
  | page_text :: ps =>
      if has_term (casefold page_text) then Some (index, page_text)
      else find_page_from (index + 1) ps
  end.

(** [find_entwicklungsuebersicht_page]: [None] stands for the pair of
    [None] and the empty text. *)
Definition find_entwicklungsuebersicht_page (pages : list str) : option (Z * str) :=
  find_page_from 1 pages.

End PageSearch.

(** [load_structure_numbers] on the rows that [csv.reader] yields; a
    blank line of the file is the empty row. *)
Definition load_structure_numbers (structure_path : str) (reader : list (list str))
  : result (list str) :=
  match reader with
  | [] => Raise (RuntimeError (L "Ungueltige Struktur-CSV: " ++ structure_path))
  | header :: body =>
      if not_ header || (length header <? 2) then
        Raise (RuntimeError (L "Ungueltige Struktur-CSV: " ++ structure_path))
      else
        Ok (flat_map (fun r : list str =>
                        match r with
                        | [] => []
                        | cell :: _ => [strip cell]
                        end) body)
  end.

(** The rows of a structure file that are not empty. *)
Definition filled_rows (body : list (list str)) : list (list str) :=
  filter (fun r => negb (not_ r)) body.

(** The lines of the pages of a range, in their order. *)
Definition selected_lines (pages : list (list columns)) (start_idx end_idx : Z)
  : list columns :=
  concat (firstn (Z.to_nat end_idx - Z.to_nat start_idx)
            (skipn (Z.to_nat start_idx) pages)).

(** The line passes the row filter. *)
Definition qualifies (cols : columns) : bool :=
  konto_matches (strip (c_konto cols)).

(** The text of the page with the 1-based number [i]. *)
Definition page_at (pages : list str) (i : Z) : str :=
  nth (Z.to_nat (i - 1)) pages [].

Definition NO_SUSA_PAGE : exn :=
  RuntimeError (L "Keine Seite mit 'Summen und Salden' in der PDF gefunden.").

Definition NO_OVERVIEW_PAGE : exn :=
  RuntimeError (L "Keine Seite mit 'Entwicklungsuebersicht' in der PDF gefunden.").

(** The numeral of an amount without suffix: blanks and periods removed,
    the comma turned into a period. *)
Definition amount_numeral (t : str) : str :=
  replace_char "," (L ".") (replace_char "." [] (replace_char " " [] t)).

(** ** Glyphs, lines and columns of pipeline B

    A glyph is a character of a page with its text and its position.  The
    coordinates are the exact values, as rational numbers, of the finite
    numbers that [pdfplumber] reports; comparisons with the integer bounds
    of the columns and rounding to the nearest integer are exact on
    them. *)

Record glyph : Type := Glyph { g_text : str; g_x0 : Q; g_top : Q }.

(** The builtin [round] with one argument: the nearest integer, the even
    one of the two at a tie. *)
Definition py_round (q : Q) : Z :=
  let f := Qfloor q in
  match Qcompare (q - inject_Z f) (1 # 2) with
  | Lt => f
  | Gt => (f + 1)%Z
  | Eq => if Z.even f then f else (f + 1)%Z
  end.

(** The key [y] of [collect_lines] for the default [bucket = 1], with
    which alone it is called: [round(ch["top"] / 1) * 1]. *)
Definition line_key (ch : glyph) : Z := (py_round (g_top ch / 1) * 1)%Z.

(** [lines.setdefault(y, []).append(ch)] on a dictionary kept as the list
    of its items in the order of insertion. *)
Fixpoint setdefault_append (y : Z) (ch : glyph) (lines : list (Z * list glyph))
  : list (Z * list glyph) :=
  match lines with
  | [] => [(y, [ch])]
  | (k, l) :: rest =>
      if Z.eqb k y then (k, l ++ [ch]) :: rest
      else (k, l) :: setdefault_append y ch rest
  end.

(** [lines[y]] for a key of the dictionary. *)
Fixpoint lookup (y : Z) (lines : list (Z * list glyph)) : list glyph :=
  match lines with
  | [] => []
  | (k, l) :: rest => if Z.eqb k y then l else lookup y rest
  end.

Fixpoint insert_key (y : Z) (keys : list Z) : list Z :=
  match keys with
  | [] => [y]
  | k :: ks => if (y <=? k)%Z then y :: keys else k :: insert_key y ks
  end.

(** [sorted(lines.keys())] *)
Definition sorted_keys (keys : list Z) : list Z := fold_right insert_key [] keys.

Definition group_lines (chars : list glyph) : list (Z * list glyph) :=
  fold_left (fun lines ch => setdefault_append (line_key ch) ch lines) chars [].

(** [collect_lines(page)] on [page.chars]. *)
Definition collect_lines (chars : list glyph) : list (Z * list glyph) :=
  let lines := group_lines chars in
  map (fun y => (y, lookup y lines)) (sorted_keys (map fst lines)).

(** [COLUMN_BOUNDS] *)
Definition COLUMN_BOUNDS : list (str * Z * Z) :=
  [ (L "Konto", 0, 90); (L "Beschriftung", 90, 320); (L "EB-Wert", 320, 410);
    (L "Okt 2025 Soll", 410, 500); (L "Okt 2025 Haben", 500, 580);
    (L "Kum Werte Soll", 580, 660); (L "Kum Werte Haben", 660, 750);
    (L "Saldo", 750, 900) ]%Z.

Fixpoint insert_glyph (c : glyph) (l : list glyph) : list glyph :=
  match l with
  | [] => [c]
  | e :: l' =>
      if Qle_bool (g_x0 c) (g_x0 e) then c :: l else e :: insert_glyph c l'
  end.

(** [sorted(chars, key=lambda c: c["x0"])]: the stable sort. *)
Definition sort_by_x0 (chars : list glyph) : list glyph :=
  fold_right insert_glyph [] chars.

(** [start <= ch["x0"] < end] *)
Definition in_bounds (start stop : Z) (ch : glyph) : bool :=
  Qle_bool (inject_Z start) (g_x0 ch)
  && negb (Qle_bool (inject_Z stop) (g_x0 ch)).

(** The text of a column before [strip]: the join of the glyphs of the
    sorted list within the bounds. *)
Definition column_text (sorted : list glyph) (start stop : Z) : str :=
  concat (map g_text (filter (in_bounds start stop) sorted)).

(** [slice_columns]: the dictionary as the list of its items. *)
Definition slice_columns (chars : list glyph) : list (str * str) :=
  let chars := sort_by_x0 chars in
  map (fun b : str * Z * Z =>
         let '(name, start, stop) := b in
         (name, strip (column_text chars start stop))) COLUMN_BOUNDS.

(** [cols[name]]; every name that [parse_pdf] asks for is a key. *)
Fixpoint item (name : str) (cols : list (str * str)) : str :=
  match cols with
  | [] => []
  | (k, v) :: rest => if str_eqb k name then v else item name rest
  end.

(** The dictionary of [slice_columns] as the record that [parse_pdf]
    reads. *)
Definition columns_of (cols : list (str * str)) : columns :=
  Columns (item (L "Konto") cols) (item (L "Beschriftung") cols)
    (item (L "EB-Wert") cols) (item (L "Okt 2025 Soll") cols)
    (item (L "Okt 2025 Haben") cols) (item (L "Kum Werte Soll") cols)
    (item (L "Kum Werte Haben") cols) (item (L "Saldo") cols).

(** The lines of a page as [parse_pdf] reads them:
    [slice_columns(line_chars)] for every line of [collect_lines(page)]. *)
Definition page_lines (chars : list glyph) : list columns :=
  map (fun line => columns_of (slice_columns (snd line))) (collect_lines chars).

Definition SAMPLE_GLYPHS : list glyph :=
  [ Glyph (L "0") 26 (1001 # 10); Glyph (L "4") 10 100; Glyph (L "K") 95 (999 # 10);
    Glyph (L "0") 18 100; Glyph (L "x") 20 300; Glyph (L "?") 950 100 ].

(** The keys grow strictly from left to right. *)
Fixpoint ascending (keys : list Z) : Prop :=
  match keys with
  | a :: (b :: _) as tl => (a < b)%Z /\ ascending tl
  | _ => True
  end.

(** The glyphs of the line with the key [y], in the order of the page. *)
Definition glyphs_of_line (y : Z) (chars : list glyph) : list glyph :=
  filter (fun ch => Z.eqb (line_key ch) y) chars.

(** The horizontal positions do not fall from left to right. *)
Fixpoint x0_sorted (l : list glyph) : Prop :=
  match l with
  | [] => True
  | e :: t => Forall (fun x => (g_x0 e <= g_x0 x)%Q) t /\ x0_sorted t
  end.

(** No two different glyphs of one line stand at the same horizontal
    position. *)
Definition positions_differ (chars : list glyph) : Prop :=
  forall a b, In a chars -> In b chars ->
    line_key a = line_key b -> (g_x0 a == g_x0 b)%Q -> a = b.

(** The glyphs 4, 0, 0 of the account number of a line. *)
Definition KONTO_GLYPHS : list glyph :=
  [ Glyph (L "4") 10 0; Glyph (L "0") 18 0; Glyph (L "0") 26 0 ].

(** ** Normal forms of month tokens *)

(** What stands before a position of a token: nothing, a blank, a
    separator, another character. *)
Inductive kind : Type := KStart | KSpace | KSep | KOther.

Definition kind_of (c : ascii) : kind :=
  if is_space c then KSpace else if is_sep c then KSep else KOther.

Definition is_KSpace (q : kind) : bool :=
  match q with KSpace => true | _ => false end.

Definition is_KOther (q : kind) : bool :=
  match q with KOther => true | _ => false end.

(** The blanks of the text are single spaces between two characters that
    are no blanks; [q] is [KSpace] behind a blank, [KStart] at the start
    and [KOther] elsewhere. *)
Fixpoint spaced (q : kind) (s : str) : bool :=
  match s with
  | [] => negb (is_KSpace q)
  | c :: s' =>
      if is_space c
      then Ascii.eqb c " " && is_KOther q && spaced KSpace s'
      else spaced KOther s'
  end.

(** The text is in normal form: its blanks are single spaces, and each
    stands between two characters that are neither blanks nor
    separators. *)
Fixpoint normal_from (q : kind) (s : str) : bool :=
  match s with
  | [] => negb (is_KSpace q)
  | c :: s' =>
      match kind_of c with
      | KSpace => Ascii.eqb c " " && is_KOther q && normal_from KSpace s'
      | KSep => negb (is_KSpace q) && normal_from KSep s'
      | _ => normal_from KOther s'
      end
  end.

Definition normal_token (s : str) : bool := normal_from KStart s.

(** What the scan for [SEPARATOR_CLEAN_RE] may meet behind a position of
    kind [q] of its output, in a text with single spaces. *)
Definition scan_input (q : kind) (s : str) : Prop :=
  match q with
  | KStart => spaced KStart s = true
  | KOther => spaced KOther s = true
  | KSep => spaced KOther s = true /\ stops is_space s = true
  | KSpace => exists x r, s = x :: r /\ kind_of x = KOther /\ spaced KOther r = true
  end.

(** The text holds no blank. *)
Definition no_blank (w : str) : bool := forallb (fun c => negb (is_space c)) w.


(* ================================================================== *)
(** * Part II: properties                                              *)
(* ================================================================== *)

(** ** The embedding on examples *)

Example findall_de_numbers :
  findall DE_NUMBER_RE (L "Miete 1.234,56 -0,00 12,3 1234,56")
  = [L "1.234,56"; L "-0,00"; L "234,56"].
Proof. vm_compute. reflexivity. Qed.

Example extract_month_tokens_example :
  extract_month_tokens
    (L "Jan 2024 Jan  2024 Feb . 24 Sept.2024, Mai-2024 Dez 20245 MaiJun 24 Juni 24")
  = [L "Jan 2024"; L "Feb.24"; L "Sept.2024"; L "Mai-2024"; L "Juni 24"].
Proof. vm_compute. reflexivity. Qed.

Example splitlines_example :
  splitlines (L "a" ++ [CR; LF] ++ L "b" ++ [LF; LF] ++ L "c" ++ [CR] ++ L "d" ++ [LF])
  = [L "a"; L "b"; []; L "c"; L "d"].
Proof. vm_compute. reflexivity. Qed.

Example detect_month_header_example :
  detect_month_header SAMPLE_PAGE = Some HEADER_2024.
Proof. vm_compute. reflexivity. Qed.

(** The title [Dez 2023] is a fourteenth token of the text; the header
    comes from the anchor line. *)
Example extract_month_tokens_page :
  extract_month_tokens SAMPLE_PAGE = L "Dez 2023" :: HEADER_2024.
Proof. vm_compute. reflexivity. Qed.

Example convert_text_example :
  convert_text SAMPLE_PAGE None
  = Ok (L "Bezeichnung" :: HEADER_2024,
        [ times [] 14;
          L "Umsatz" :: SAMPLE_VALUES;
          L "Gesamtleistung" :: SAMPLE_VALUES;
          times [] 14;
          L "Kostenarten:" :: times [] 13;
          L "Personalkosten" :: SAMPLE_VALUES;
          times [] 14 ]).
Proof. vm_compute. reflexivity. Qed.

(** ** Basic facts *)

Lemma str_eqb_eq (a b : str) : str_eqb a b = true <-> a = b.
Proof.
  unfold str_eqb. destruct (str_eq_dec a b); split; congruence.
Qed.

Lemma str_eqb_refl (a : str) : str_eqb a a = true.
Proof. now apply str_eqb_eq. Qed.

Lemma mem_In (x : str) (xs : list str) : mem x xs = true <-> In x xs.
Proof.
  unfold mem. rewrite existsb_exists. split.
  - intros (y & Hy & E). apply str_eqb_eq in E. now subst.
  - intros H. exists x. split; auto using str_eqb_refl.
Qed.

Lemma all_empty_times (n : nat) : all_empty (times [] n) = true.
Proof. induction n; simpl; auto. Qed.

Lemma length_times {A} (x : A) (n : nat) : length (times x n) = n.
Proof. apply repeat_length. Qed.

Lemma is_blank_blank_row (n : nat) : is_blank (blank_row n) = true.
Proof.
  unfold is_blank, blank_row. simpl. rewrite all_empty_times.
  apply orb_true_r.
Qed.

(** ** Blank-run compression *)

Lemma compress_from_absorb (rows : list row) :
  forall b b2, (b2 = true -> b = true) ->
    compress_from b2 (compress_from b rows) = compress_from b rows.
Proof.
  induction rows as [|r rs IH]; intros b b2 Hb; simpl; auto.
  destruct (is_blank r && b) eqn:E.
  - now apply IH.
  - simpl. replace (is_blank r && b2) with false.
    + f_equal. now apply IH.
    + destruct (is_blank r), b, b2; simpl in *; auto.
Qed.

Lemma compress_from_head (rows : list row) :
  forall b r tl, compress_from b rows = r :: tl -> is_blank r && b = false.
Proof.
  induction rows as [|a rs IH]; intros b r tl; simpl; [discriminate|].
  destruct (is_blank a && b) eqn:E.
  - apply IH.
  - intros H. injection H as <- _. exact E.
Qed.

Lemma compress_from_no_run (rows : list row) :
  forall b, no_blank_run (compress_from b rows).
Proof.
  induction rows as [|a rs IH]; intros b; simpl; auto.
  destruct (is_blank a && b) eqn:E; [apply IH|].
  specialize (IH (is_blank a)).
  destruct (compress_from (is_blank a) rs) as [|x tl] eqn:Ec; simpl; auto.
  split; auto.
  apply compress_from_head in Ec. rewrite andb_comm. exact Ec.
Qed.

Lemma compress_from_last (z : row) (rows : list row) :
  is_blank z = true ->
  forall b,
    (compress_from b (rows ++ [z]) = [] /\ b = true)
    \/ exists init l, compress_from b (rows ++ [z]) = init ++ [l] /\ is_blank l = true.
Proof.
  intros Hz. induction rows as [|a rs IH]; intros b; simpl.
  - rewrite Hz. destruct b; simpl; auto.
    right. exists [], z. auto.
  - destruct (is_blank a && b) eqn:E.
    + apply IH.
    + right. destruct (IH (is_blank a)) as [[E1 E2] | (init & l & E1 & E2)].
      * exists [], a. rewrite E1. auto.
      * exists (a :: init), l. rewrite E1. auto.
Qed.

(** C9. Blank-run compression is idempotent: running [compress_blank_rows]
    on its own result changes nothing; and its result never holds two
    consecutive blank rows (every run of blank rows has become one). *)
Theorem compress_blank_rows_idempotent :
  forall rows : list row,
    compress_blank_rows (compress_blank_rows rows) = compress_blank_rows rows
    /\ no_blank_run (compress_blank_rows rows).
Proof.
  intros rows. split.
  - unfold compress_blank_rows. apply compress_from_absorb. discriminate.
  - apply compress_from_no_run.
Qed.

(** C10. For every row sequence, the empty one included, section-break
    insertion followed by blank-run compression yields a sequence that
    begins with a blank row, ends with a blank row and holds no two
    consecutive blank rows; on the empty sequence it yields exactly one
    blank row, so the result is never empty. *)
Theorem section_breaks_then_compress_shape :
  forall (rows : list row) (months_count : nat),
    let out := compress_blank_rows (insert_section_breaks rows months_count) in
    (exists tl, out = blank_row months_count :: tl)
    /\ (exists init l, out = init ++ [l] /\ is_blank l = true)
    /\ no_blank_run out
    /\ out <> []
    /\ compress_blank_rows (insert_section_breaks [] months_count)
       = [blank_row months_count].
Proof.
  intros rows n out.
  assert (Hb := is_blank_blank_row n).
  assert (E : out = blank_row n :: compress_from true
            (flat_map (fun r : row =>
                         r :: (if mem (fst r) SECTION_BREAK_AFTER
                               then [blank_row n] else [])) rows
             ++ [blank_row n])).
  { unfold out, compress_blank_rows, insert_section_breaks. simpl.
    rewrite Hb. simpl. reflexivity. }
  split; [eexists; exact E|].
  split.
  { rewrite E.
    match goal with |- context [compress_from true (?m ++ _)] =>
      destruct (compress_from_last (blank_row n) m Hb true) as [[E1 _] | (init & l & E1 & E2)]
    end.
    - rewrite E1. exists [], (blank_row n). auto.
    - rewrite E1. exists (blank_row n :: init), l. auto. }
  split; [apply compress_from_no_run|].
  split; [rewrite E; discriminate|].
  unfold compress_blank_rows, insert_section_breaks. simpl.
  rewrite Hb. reflexivity.
Qed.

(** ** Sentinel insertion *)

Lemma first_cost_idx_none (rows : list row) :
  Forall not_cost rows -> first_cost_idx rows = None.
Proof.
  induction 1 as [|[label values] rs H _ IH]; simpl; auto.
  unfold not_cost in H. simpl in H. now rewrite H, IH.
Qed.

Lemma first_cost_idx_some (pre : list row) (r : row) (post : list row) :
  Forall not_cost pre -> mem (fst r) COST_LABELS = true ->
  first_cost_idx (pre ++ r :: post) = Some (length pre).
Proof.
  intros Hpre Hr. induction Hpre as [|[label values] rs H _ IH]; simpl.
  - destruct r as [label values]. simpl in Hr. now rewrite Hr.
  - unfold not_cost in H. simpl in H. now rewrite H, IH.
Qed.

Lemma sentinel_count_app (a b : list row) :
  sentinel_count (a ++ b) = sentinel_count a + sentinel_count b.
Proof. unfold sentinel_count. now rewrite filter_app, length_app. Qed.

Lemma sentinel_count_mem (rows : list row) :
  mem KOSTENARTEN (map fst rows) = false -> sentinel_count rows = 0.
Proof.
  unfold sentinel_count, mem.
  induction rows as [|[label values] rs IH]; simpl; auto.
  intros H. apply orb_false_iff in H as [H1 H2].
  replace (str_eqb label KOSTENARTEN) with false; auto.
  unfold str_eqb in *.
  destruct (str_eq_dec KOSTENARTEN label), (str_eq_dec label KOSTENARTEN);
    congruence.
Qed.

(** C8 (as amended). Sentinel insertion never duplicates the sentinel: a
    sequence that already holds a row with the sentinel label is returned
    unchanged; otherwise, if some row's label is a cost-category label, a
    sentinel row, whose label is the sentinel label [Kostenarten:] and
    whose values are N empty texts, is inserted immediately before the
    first such row; and without such a row the sequence is returned
    unchanged.  The result holds more than one sentinel row only if
    the input did. *)
Theorem ensure_kostenarten_spec :
  forall (rows : list row) (months : list str),
    (mem KOSTENARTEN (map fst rows) = true ->
       ensure_kostenarten rows months = rows)
    /\ (forall pre r post,
          mem KOSTENARTEN (map fst rows) = false ->
          rows = pre ++ r :: post ->
          Forall not_cost pre ->
          mem (fst r) COST_LABELS = true ->
          ensure_kostenarten rows months
          = pre ++ (KOSTENARTEN, times [] (length months)) :: r :: post)
    /\ (Forall not_cost rows -> ensure_kostenarten rows months = rows)
    /\ sentinel_count (ensure_kostenarten rows months)
       <= Nat.max 1 (sentinel_count rows).
Proof.
  intros rows months. unfold ensure_kostenarten.
  split; [intros ->; reflexivity|].
  split.
  { intros pre r post Hk -> Hpre Hr. rewrite Hk.
    rewrite (first_cost_idx_some pre r post Hpre Hr).
    rewrite firstn_app, firstn_all, Nat.sub_diag. simpl.
    rewrite app_nil_r.
    rewrite skipn_app, skipn_all, Nat.sub_diag. reflexivity. }
  split.
  { intros H. rewrite (first_cost_idx_none rows H).
    now destruct (mem KOSTENARTEN (map fst rows)). }
  destruct (mem KOSTENARTEN (map fst rows)) eqn:Hk; [lia|].
  destruct (first_cost_idx rows) as [i|]; [|lia].
  rewrite !sentinel_count_app.
  assert (E : sentinel_count (firstn i rows) + sentinel_count (skipn i rows) = 0).
  { rewrite <- sentinel_count_app, firstn_skipn. now apply sentinel_count_mem. }
  assert (E1 : forall x, sentinel_count [(KOSTENARTEN, x)] = 1).
  { intros x. unfold sentinel_count. cbn [filter fst].
    now rewrite str_eqb_refl. }
  rewrite E1. lia.
Qed.

(** C8, the claim as written fails: before the first cost-category row the
    code inserts a row labelled [Kostenarten:], not a row with an empty
    label. *)
Lemma ensure_kostenarten_label_not_empty :
  ensure_kostenarten [(L "Personalkosten", [L "1,00"])] [L "Jan/2024"]
  = [(L "Kostenarten:", [[]]); (L "Personalkosten", [L "1,00"])]
  /\ ensure_kostenarten [(L "Personalkosten", [L "1,00"])] [L "Jan/2024"]
     <> [([], [[]]); (L "Personalkosten", [L "1,00"])].
Proof. split; [reflexivity | discriminate]. Qed.

(** ** Table assembly *)

Lemma build_output_table_ok (header : list str) (final_rows : list row)
  (sn : option (list str)) (t : table) :
  build_output_table header final_rows sn = Ok t ->
  t = (L "Bezeichnung" :: header, map (output_row header) final_rows).
Proof.
  unfold build_output_table. destruct sn as [l|].
  - destruct (length l =? length final_rows); simpl; [|discriminate].
    now intros [= <-].
  - now intros [= <-].
Qed.

(** C5. The table assembler raises the structural-mismatch error if and
    only if a structure reference is supplied and its row count differs
    from the count of the annotated rows; the error message carries both
    counts (a reference of 45 entries against 44 rows gives 45 and 44);
    with no reference, or with equal counts, the result is the table whose
    columns are the label column [Bezeichnung] followed by the header
    tokens (14 columns for the 13 tokens of a header). *)
Theorem build_output_table_spec :
  forall (header : list str) (final_rows : list row) (sn : option (list str)),
    ((exists e, build_output_table header final_rows sn = Raise e)
     <-> (exists l, sn = Some l /\ length l <> length final_rows))
    /\ (forall l, sn = Some l -> length l <> length final_rows ->
          build_output_table header final_rows sn
          = Raise (RuntimeError
                     (L "Struktur hat " ++ str_of_nat (length l)
                      ++ L " Zeilen, Ergebnis hat "
                      ++ str_of_nat (length final_rows) ++ L " Zeilen.")))
    /\ mismatch_message 45 44
       = L "Struktur hat 45 Zeilen, Ergebnis hat 44 Zeilen."
    /\ ((sn = None \/ exists l, sn = Some l /\ length l = length final_rows) ->
          build_output_table header final_rows sn
          = Ok (L "Bezeichnung" :: header, map (output_row header) final_rows))
    /\ (length header = 13 -> length (L "Bezeichnung" :: header) = 14).
Proof.
  intros header final_rows sn. unfold build_output_table.
  split.
  { split.
    - intros [e H]. destruct sn as [l|]; [|discriminate].
      exists l. split; auto.
      destruct (length l =? length final_rows) eqn:E; [discriminate|].
      now apply Nat.eqb_neq.
    - intros (l & -> & H). apply Nat.eqb_neq in H. rewrite H. simpl.
      eexists; reflexivity. }
  split.
  { intros l -> H. apply Nat.eqb_neq in H. now rewrite H. }
  split; [reflexivity|].
  split.
  { intros [-> | (l & -> & H)]; [reflexivity|].
    apply Nat.eqb_eq in H. now rewrite H. }
  simpl. intros ->. reflexivity.
Qed.

(** ** Page numbers and page ranges *)

(** C4 (as amended). A caller-supplied page number of pipeline A is
    refused with a [ValueError] when it is below 1 (the message says only
    that page numbers are 1-based) and when it is beyond the last page
    (the message reports the page count and the requested number);
    otherwise that page is read.  A caller-supplied range of pipeline B is
    clamped: a start below 1 counts as the first page and an end beyond
    the last page counts as the last page; a [ValueError] is raised only
    when the start lies beyond the last page (reporting the requested
    start and the page count) or when the clamped end does not lie after
    the clamped start (reporting the requested end and start). *)
Theorem page_bounds_spec :
  forall (find_page : list str -> option (Z * str)) (pages : list str)
         (n total : Z) (found : option (Z * Z)) (start_page end_page : option Z),
    let s := match start_page with Some s => s | None => 1%Z end in
    let e := match end_page with Some e => e | None => total end in
    let start_idx := Z.max (s - 1) 0 in
    let end_idx := Z.min e total in
    ((n < 1)%Z ->
       select_page_text find_page pages (Some n)
       = Raise (ValueError (L "page_number muss 1-basiert sein")))
    /\ ((1 <= n)%Z -> (Z.of_nat (length pages) < n)%Z ->
          select_page_text find_page pages (Some n)
          = Raise (ValueError (L "PDF hat nur " ++ str_of_nat (length pages)
                               ++ L " Seiten, angefragt wurde " ++ str_of_Z n ++ L ".")))
    /\ ((1 <= n <= Z.of_nat (length pages))%Z ->
          select_page_text find_page pages (Some n)
          = Ok (nth (Z.to_nat (n - 1)) pages []))
    /\ ((start_page <> None \/ end_page <> None) ->
          ((total <= start_idx)%Z ->
             page_range total found start_page end_page
             = Raise (ValueError (L "Startseite " ++ str_of_Z s
                                  ++ L " liegt ausserhalb der PDF mit "
                                  ++ str_of_Z total ++ L " Seiten.")))
          /\ ((start_idx < total)%Z -> (end_idx <= start_idx)%Z ->
                page_range total found start_page end_page
                = Raise (ValueError (L "Endseite " ++ str_of_Z e
                                     ++ L " muss groesser als Startseite "
                                     ++ str_of_Z s ++ L " sein.")))
          /\ ((start_idx < total)%Z -> (start_idx < end_idx)%Z ->
                page_range total found start_page end_page
                = Ok (start_idx, end_idx))
          /\ ((s < 1)%Z -> (total < e)%Z -> (0 < total)%Z ->
                page_range total found start_page end_page = Ok (0%Z, total)))
    /\ (forall structure_numbers err,
          select_page_text find_page pages (Some n) = Raise err ->
          convert_page_to_csv find_page pages (Some n) structure_numbers
          = Raise err)
    /\ (forall py_float (pdf_pages : list (list columns)) err,
          page_range (Z.of_nat (length pdf_pages)) found start_page end_page
          = Raise err ->
          parse_pdf py_float pdf_pages found start_page end_page = Raise err).
Proof.
  intros find_page pages n total found start_page end_page s e start_idx end_idx.
  cut (forall P Q R : Prop, P -> Q -> R -> P /\ Q /\ R); [|tauto].
  intros Hcut.
  split.
  { intros H. unfold select_page_text. apply Z.ltb_lt in H. now rewrite H. }
  split.
  { intros H1 H2. unfold select_page_text.
    replace (n <? 1)%Z with false by (symmetry; apply Z.ltb_ge; lia).
    replace (n >? Z.of_nat (length pages))%Z with true; auto.
    symmetry. apply Z.gtb_lt. lia. }
  split.
  { intros H. unfold select_page_text.
    replace (n <? 1)%Z with false by (symmetry; apply Z.ltb_ge; lia).
    replace (n >? Z.of_nat (length pages))%Z with false; auto.
    symmetry. rewrite Z.gtb_ltb. apply Z.ltb_ge. lia. }
  apply Hcut.
  2:{ intros sn err H. unfold convert_page_to_csv. now rewrite H. }
  2:{ intros py pdf_pages err H. unfold parse_pdf. now rewrite H. }
  intros Hsup.
  assert (E : page_range total found start_page end_page
              = if (start_idx >=? total)%Z then
                  Raise (ValueError (L "Startseite " ++ str_of_Z s
                                     ++ L " liegt ausserhalb der PDF mit "
                                     ++ str_of_Z total ++ L " Seiten."))
                else if (end_idx <=? start_idx)%Z then
                  Raise (ValueError (L "Endseite " ++ str_of_Z e
                                     ++ L " muss groesser als Startseite "
                                     ++ str_of_Z s ++ L " sein."))
                else Ok (start_idx, end_idx)).
  { unfold page_range, start_idx, end_idx, s, e.
    destruct start_page, end_page; simpl; try reflexivity.
    destruct Hsup as [H | H]; congruence. }
  rewrite E. clear E.
  split.
  { intros H. replace (start_idx >=? total)%Z with true; auto.
    symmetry. apply Z.geb_le. lia. }
  split.
  { intros H1 H2. replace (start_idx >=? total)%Z with false.
    - replace (end_idx <=? start_idx)%Z with true; auto.
      symmetry. apply Z.leb_le. lia.
    - symmetry. rewrite Z.geb_leb. apply Z.leb_gt. lia. }
  split.
  { intros H1 H2. replace (start_idx >=? total)%Z with false.
    - replace (end_idx <=? start_idx)%Z with false; auto.
      symmetry. apply Z.leb_gt. lia.
    - symmetry. rewrite Z.geb_leb. apply Z.leb_gt. lia. }
  intros H1 H2 H3.
  replace (start_idx >=? total)%Z with false.
  - replace (end_idx <=? start_idx)%Z with false.
    + f_equal. f_equal; unfold start_idx, end_idx; lia.
    + symmetry. apply Z.leb_gt. unfold start_idx, end_idx. lia.
  - symmetry. rewrite Z.geb_leb. apply Z.leb_gt. unfold start_idx. lia.
Qed.

(** C4, the claim as written fails: on a document of 3 pages the range
    from page 0 to page 100 raises nothing; it is clamped to the pages
    1 to 3 (the indices 0 to 3 of [pdf.pages]), and the three pages are
    parsed. *)
Lemma page_range_is_clamped :
  page_range 3 None (Some 0%Z) (Some 100%Z) = Ok (0%Z, 3%Z)
  /\ parse_pdf decimal_float [[]; []; []] None (Some 0%Z) (Some 100%Z) = Ok [].
Proof. split; reflexivity. Qed.

(** ** Amounts *)

Section Amounts.

Variable py_float : str -> result float.

(** On a string the builtin raises nothing but [ValueError]. *)
Hypothesis py_float_raises :
  forall s e, py_float s = Raise e -> exists msg, e = ValueError msg.

(** The two numerals of the test vectors; [0x1.34a3d70a3d70ap+10] is
    the double nearest to 1234.56. *)
Hypothesis py_float_1234_56 :
  py_float (L "1234.56") = Ok 0x1.34a3d70a3d70ap+10%float.
Hypothesis py_float_50_00 : py_float (L "50.00") = Ok 50%float.

(** C6. The amount parser satisfies the test vectors of the
    specification: ["1.234,56"] gives 1234.56; the empty text, signed,
    gives 0; ["50,00H"] gives -50.0 when the signed reading is
    requested and 50.0 when it is not; and on every text it returns a
    value and raises nothing, the value being 0 when [float] rejects
    the cleaned text. *)
Theorem parse_amount_spec :
  parse_amount py_float (L "1.234,56") false = Ok 0x1.34a3d70a3d70ap+10%float
  /\ parse_amount py_float [] true = Ok 0%float
  /\ parse_amount py_float (L "50,00H") true = Ok (-50)%float
  /\ parse_amount py_float (L "50,00H") false = Ok 50%float
  /\ (forall text signed, exists v, parse_amount py_float text signed = Ok v)
  /\ (forall text signed msg,
        py_float (cleaned_amount text) = Raise (ValueError msg) ->
        parse_amount py_float text signed = Ok 0%float).
Proof.
  split.
  { unfold parse_amount.
    change (cleaned_amount (L "1.234,56")) with (L "1234.56").
    now rewrite py_float_1234_56. }
  split; [reflexivity|].
  split.
  { unfold parse_amount.
    change (cleaned_amount (L "50,00H")) with (L "50.00").
    now rewrite py_float_50_00. }
  split.
  { unfold parse_amount.
    change (cleaned_amount (L "50,00H")) with (L "50.00").
    now rewrite py_float_50_00. }
  split.
  { intros text signed. unfold parse_amount.
    destruct text as [|c text]; [eexists; reflexivity|].
    destruct (py_float (cleaned_amount (c :: text))) as [v|e] eqn:E.
    - eexists; reflexivity.
    - destruct (py_float_raises _ _ E) as [msg ->]. eexists; reflexivity. }
  intros text signed msg H. unfold parse_amount.
  destruct text; auto. now rewrite H.
Qed.

End Amounts.

Lemma decimal_float_raises (s : str) (e : exn) :
  decimal_float s = Raise e -> exists msg, e = ValueError msg.
Proof.
  unfold decimal_float. destruct (split_at_dot s) as [a b].
  destruct a; [intros [= <-]; eexists; reflexivity|].
  destruct (digits_value _ _); [discriminate|].
  intros [= <-]; eexists; reflexivity.
Qed.

(** C6 at an instance of the builtin: the reading of plain decimal
    numerals. *)
Lemma parse_amount_spec_witness :
  parse_amount decimal_float (L "1.234,56") false = Ok 0x1.34a3d70a3d70ap+10%float
  /\ parse_amount decimal_float [] true = Ok 0%float
  /\ parse_amount decimal_float (L "50,00H") true = Ok (-50)%float
  /\ parse_amount decimal_float (L "50,00H") false = Ok 50%float
  /\ (forall text signed, exists v, parse_amount decimal_float text signed = Ok v)
  /\ (forall text signed msg,
        decimal_float (cleaned_amount text) = Raise (ValueError msg) ->
        parse_amount decimal_float text signed = Ok 0%float).
Proof.
  apply (parse_amount_spec decimal_float decimal_float_raises);
    vm_compute; reflexivity.
Defined.

(** ** The matcher and the language of a pattern *)

Lemma prev_after_app (m1 m2 : str) :
  forall p, prev_after p (m1 ++ m2) = prev_after (prev_after p m1) m2.
Proof. induction m1 as [|c m1 IH]; intros p; simpl; auto. Qed.

Section Matcher.

Variable A : Type.

Lemma star_loop_ext (body : (mstate -> option A) -> mstate -> option A) :
  ext_body body ->
  forall k1 k2, (forall st, k1 st = k2 st) ->
  forall fuel st, star_loop body k1 fuel st = star_loop body k2 fuel st.
Proof.
  intros Hb k1 k2 Hk fuel.
  induction fuel as [|f IH]; intros st; simpl; [apply Hk|].
  rewrite Hk.
  erewrite Hb; [reflexivity|].
  intros st'. simpl. destruct (_ <? _); auto.
Qed.

Lemma rmatch_ext (r : regex) : @ext_body A (rmatch r).
Proof.
  induction r; intros k1 k2 Hk st; simpl.
  - apply Hk.
  - destruct (rest st); auto. destruct (p a); auto.
  - apply IHr1. intros st'. now apply IHr2.
  - rewrite (IHr1 k1 k2 Hk), (IHr2 k1 k2 Hk). reflexivity.
  - now apply star_loop_ext.
  - rewrite Hk. reflexivity.
  - rewrite Hk. reflexivity.
  - rewrite Hk. reflexivity.
  - apply IHr. intros st'. apply Hk.
Qed.

Lemma star_loop_fail (body : (mstate -> option A) -> mstate -> option A) :
  ext_body body -> (forall st, body (fun _ => None) st = None) ->
  forall fuel st, star_loop body (fun _ => None) fuel st = None.
Proof.
  intros Hb Hf fuel. induction fuel as [|f IH]; intros st; simpl; auto.
  erewrite Hb; [rewrite Hf; reflexivity|].
  intros st'. simpl. destruct (_ <? _); auto.
Qed.

(** A match succeeds only through its continuation. *)
Lemma rmatch_fail (r : regex) : forall st, rmatch r (fun _ => @None A) st = None.
Proof.
  induction r; intros st; simpl; auto.
  - destruct (rest st); auto. destruct (p a); auto.
  - erewrite rmatch_ext; [apply IHr1|]. apply IHr2.
  - now rewrite IHr1, IHr2.
  - apply star_loop_fail; auto. apply rmatch_ext.
  - destruct (at_boundary _ _); auto.
  - destruct (at_bos _); auto.
  - destruct (at_eos _); auto.
Qed.

(** Any fuel that covers the text gives the same result. *)
Lemma star_loop_fuel (r : regex) (k : mstate -> option A) :
  forall f1 f2 st, length (rest st) <= f1 -> length (rest st) <= f2 ->
    star_loop (rmatch r) k f1 st = star_loop (rmatch r) k f2 st.
Proof.
  assert (Hz : forall f st, length (rest st) <= 0 ->
                 star_loop (rmatch r) k f st = k st).
  { intros [|f] st H; simpl; auto.
    erewrite rmatch_ext; [rewrite rmatch_fail; reflexivity|].
    intros st'. simpl. destruct (_ <? _) eqn:E; auto.
    apply Nat.ltb_lt in E. lia. }
  intros f1. induction f1 as [|f1 IH]; intros f2 st H1 H2.
  - rewrite !Hz; auto.
  - destruct f2 as [|f2]; [rewrite !Hz; auto|]. simpl.
    erewrite rmatch_ext; [reflexivity|].
    intros st'. simpl. destruct (_ <? _) eqn:E; auto.
    apply Nat.ltb_lt in E. apply IH; lia.
Qed.

(** Soundness: a result comes from a text of the language and from the
    continuation at the position behind it. *)
Lemma rmatch_sound (r : regex) :
  forall (k : mstate -> option A) st x,
    rmatch r k st = Some x ->
    exists m s' g',
      rest st = m ++ s' /\ lang r (prev st) m s'
      /\ k (MState (prev_after (prev st) m) s' g') = Some x.
Proof.
  induction r; intros k st x H; simpl in H.
  - exists [], (rest st), (grp st). repeat split; [constructor|].
    now destruct st.
  - destruct (rest st) as [|c s'] eqn:E; [discriminate|].
    destruct (p c) eqn:Ep; [|discriminate].
    exists [c], s', (grp st). repeat split; auto. now constructor.
  - apply IHr1 in H as (m1 & s1 & g1 & E1 & L1 & H).
    apply IHr2 in H as (m2 & s2 & g2 & E2 & L2 & H). simpl in *.
    exists (m1 ++ m2), s2, g2. rewrite <- app_assoc, <- E2, prev_after_app.
    repeat split; auto. constructor; auto. now rewrite <- E2.
  - destruct (rmatch r1 k st) eqn:E1.
    + injection H as ->. apply IHr1 in E1 as (m & s' & g' & ? & ? & ?).
      exists m, s', g'. repeat split; auto. now apply L_AltL.
    + apply IHr2 in H as (m & s' & g' & ? & ? & ?).
      exists m, s', g'. repeat split; auto. now apply L_AltR.
  - remember (length (rest st)) as fuel eqn:Ef. clear Ef.
    revert st H. induction fuel as [|f IHf]; intros st H; simpl in H.
    + exists [], (rest st), (grp st). repeat split; [constructor|].
      now destruct st.
    + destruct (rmatch r _ st) eqn:E1.
      * injection H as ->.
        apply IHr in E1 as (m1 & s1 & g1 & E1 & L1 & H). simpl in H.
        destruct (_ <? _) eqn:Elt; [|discriminate].
        apply Nat.ltb_lt in Elt.
        apply IHf in H as (m2 & s2 & g2 & E2 & L2 & H). simpl in *.
        exists (m1 ++ m2), s2, g2.
        rewrite <- app_assoc, <- E2, prev_after_app.
        repeat split; auto. constructor; auto.
        -- now rewrite <- E2.
        -- intros ->. simpl in E1. rewrite E1 in Elt. lia.
      * exists [], (rest st), (grp st). repeat split; [constructor|].
        now destruct st.
  - destruct (at_boundary _ _) eqn:E; [|discriminate].
    exists [], (rest st), (grp st). repeat split; [now constructor|].
    now destruct st.
  - destruct (at_bos _) eqn:E; [|discriminate].
    exists [], (rest st), (grp st). repeat split; [now constructor|].
    now destruct st.
  - destruct (at_eos _) eqn:E; [|discriminate].
    exists [], (rest st), (grp st). repeat split; [now constructor|].
    now destruct st.
  - apply IHr in H as (m & s' & g' & E & Hl & H). simpl in H.
    exists m, s', (Some (consumed st (MState (prev_after (prev st) m) s' g'))).
    repeat split; auto. now constructor.
Qed.

(** Completeness: a text of the language, behind which every
    continuation succeeds, gives a result. *)
Lemma rmatch_complete (r : regex) (p : option ascii) (m s' : str) :
  lang r p m s' ->
  forall (k : mstate -> option A) g,
    (forall g', k (MState (prev_after p m) s' g') <> None) ->
    rmatch r k (MState p (m ++ s') g) <> None.
Proof.
  induction 1; intros k g Hk; simpl.
  - apply Hk.
  - rewrite H. apply Hk.
  - rewrite <- app_assoc. apply IHlang1. intros g'. apply IHlang2.
    intros g''. rewrite <- prev_after_app. apply Hk.
  - specialize (IHlang k g Hk). destruct (rmatch r1 k _); congruence.
  - destruct (rmatch r1 k _); [discriminate|]. now apply IHlang.
  - specialize (Hk g). destruct (length s); simpl; auto.
    destruct (rmatch r _ _); [discriminate|]. exact Hk.
  - destruct (length ((m1 ++ m2) ++ s)) as [|f] eqn:Ef.
    { destruct m1; [congruence|discriminate]. }
    simpl.
    match goal with |- context [rmatch r ?K ?st] =>
      assert (Hr : rmatch r K st <> None)
    end.
    { rewrite <- app_assoc. apply IHlang1. intros g'. simpl.
      destruct (_ <? _) eqn:Elt.
      2:{ apply Nat.ltb_ge in Elt. rewrite (length_app m1) in Elt.
          destruct m1; [congruence|simpl in Elt; lia]. }
      rewrite star_loop_fuel with (f2 := length (m2 ++ s)).
      - apply (IHlang2 k g'). intros g''. rewrite <- prev_after_app. apply Hk.
      - simpl. rewrite <- app_assoc, length_app in Ef.
        destruct m1; [congruence|simpl in Ef; lia].
      - simpl. lia. }
    destruct (rmatch r _ _); [discriminate|congruence].
  - rewrite H. apply Hk.
  - rewrite H. apply Hk.
  - rewrite H. apply Hk.
  - apply IHlang. intros g'. apply Hk.
Qed.

End Matcher.

Lemma match_here_sound (r : regex) (p : option ascii) (s : str) (st' : mstate) :
  match_here r p s = Some st' ->
  exists m, s = m ++ rest st' /\ lang r p m (rest st')
            /\ prev st' = prev_after p m.
Proof.
  unfold match_here. intros H.
  apply rmatch_sound in H as (m & s' & g' & E & Hl & H). simpl in *.
  injection H as <-. simpl. exists m. auto.
Qed.

Lemma match_here_complete (r : regex) (p : option ascii) (m s' : str) :
  lang r p m s' -> match_here r p (m ++ s') <> None.
Proof.
  intros H. unfold match_here. apply (rmatch_complete _ _ _ _ _ H).
  discriminate.
Qed.

(** ** Analyses of the language of a pattern *)

Lemma all_ascii_complete (c : ascii) : In c all_ascii.
Proof.
  unfold all_ascii. rewrite <- (ascii_nat_embedding c).
  apply in_map, in_seq. pose proof (nat_ascii_bounded c). lia.
Qed.

Lemma lang_chars (f : ascii -> bool) (r : regex) (p : option ascii) (m s : str) :
  lang r p m s -> chars_in f r = true -> forallb f m = true.
Proof.
  induction 1; cbn [chars_in forallb]; intros Hc; auto.
  - rewrite forallb_forall in Hc. specialize (Hc c (all_ascii_complete c)).
    rewrite H in Hc. simpl in Hc. now rewrite Hc.
  - apply andb_true_iff in Hc as [H1 H2]. rewrite forallb_app.
    now rewrite IHlang1, IHlang2.
  - apply andb_true_iff in Hc as [H1 H2]. auto.
  - apply andb_true_iff in Hc as [H1 H2]. auto.
  - rewrite forallb_app. now rewrite IHlang1, IHlang2.
Qed.

Lemma lang_minlen (r : regex) (p : option ascii) (m s : str) :
  lang r p m s -> minlen r <= length m.
Proof.
  induction 1; simpl; try lia.
  rewrite length_app. lia.
Qed.

Lemma lang_maxlen (r : regex) (p : option ascii) (m s : str) :
  lang r p m s -> star_free r = true -> length m <= maxlen r.
Proof.
  induction 1; simpl; intros Hs; try lia; try discriminate.
  - apply andb_true_iff in Hs as [H1 H2]. rewrite length_app.
    specialize (IHlang1 H1). specialize (IHlang2 H2). lia.
  - apply andb_true_iff in Hs as [H1 H2]. specialize (IHlang H1). lia.
  - apply andb_true_iff in Hs as [H1 H2]. specialize (IHlang H2). lia.
  - auto.
Qed.

Lemma lang_enum (r : regex) (p : option ascii) (m s : str) :
  lang r p m s -> star_free r = true -> In m (enum r).
Proof.
  induction 1; cbn [enum star_free In]; intros Hs; auto; try discriminate.
  - apply (in_map (fun c0 => [c0]) _ c), filter_In.
    split; auto using all_ascii_complete.
  - apply andb_true_iff in Hs as [H1 H2]. apply in_flat_map.
    exists m1. split; auto. apply (in_map (fun m0 => m1 ++ m0)). auto.
  - apply andb_true_iff in Hs as [H1 H2]. apply in_or_app. auto.
  - apply andb_true_iff in Hs as [H1 H2]. apply in_or_app. auto.
Qed.

Lemma word_at_hd_app (m s s2 : str) :
  word_at (hd_error s) = word_at (hd_error s2) ->
  word_at (hd_error (m ++ s)) = word_at (hd_error (m ++ s2)).
Proof. destruct m; simpl; auto. Qed.

Lemma word_at_prev_after (p q : option ascii) (m : str) :
  word_at p = word_at q ->
  word_at (prev_after p m) = word_at (prev_after q m).
Proof. destruct m; simpl; auto. Qed.

(** The text behind a match counts only through the kind of its first
    character. *)
Lemma lang_right (r : regex) (p : option ascii) (m s : str) :
  lang r p m s -> no_anchor r = true ->
  forall s2, word_at (hd_error s) = word_at (hd_error s2) -> lang r p m s2.
Proof.
  induction 1; simpl; intros Ha s2 Hw; try discriminate;
    try (apply andb_true_iff in Ha as [Ha1 Ha2]).
  - constructor.
  - now constructor.
  - constructor; auto. apply IHlang1; auto. now apply word_at_hd_app.
  - apply L_AltL; auto.
  - apply L_AltR; auto.
  - constructor.
  - constructor; auto. apply IHlang1; auto. now apply word_at_hd_app.
  - constructor. unfold at_boundary in *. now rewrite <- Hw.
  - constructor. auto.
Qed.

(** The text before a match counts only through the kind of its last
    character. *)
Lemma lang_left (r : regex) (p : option ascii) (m s : str) :
  lang r p m s -> no_anchor r = true ->
  forall q, word_at p = word_at q -> lang r q m s.
Proof.
  induction 1; simpl; intros Ha q Hw; try discriminate;
    try (apply andb_true_iff in Ha as [Ha1 Ha2]).
  - constructor.
  - now constructor.
  - constructor; auto. apply IHlang2; auto. now apply word_at_prev_after.
  - apply L_AltL; auto.
  - apply L_AltR; auto.
  - constructor.
  - constructor; auto. apply IHlang2; auto. now apply word_at_prev_after.
  - constructor. unfold at_boundary in *. now rewrite <- Hw.
  - constructor. auto.
Qed.

Lemma lang_star_cls (f : ascii -> bool) (w s : str) :
  forallb f w = true -> forall p, lang (Star (Cls f)) p w s.
Proof.
  induction w as [|c w IH]; simpl; intros H p; [constructor|].
  apply andb_true_iff in H as [H1 H2].
  change (c :: w) with ([c] ++ w). constructor; auto.
  - now constructor.
  - discriminate.
Qed.

(** ** Bounded repetition of a character class *)

Lemma lang_seq_inv (r1 r2 : regex) (p : option ascii) (m s : str) :
  lang (Seq r1 r2) p m s ->
  exists m1 m2, m = m1 ++ m2 /\ lang r1 p m1 (m2 ++ s)
                /\ lang r2 (prev_after p m1) m2 s.
Proof. inversion 1; subst. eauto. Qed.

Lemma lang_exactly (f : ascii -> bool) (tail : regex) (m2 s : str) :
  forall (w : str) (p : option ascii),
    forallb f w = true ->
    lang tail (prev_after p w) m2 s ->
    lang (exactly (Cls f) (length w) tail) p (w ++ m2) s.
Proof.
  induction w as [|c w IH]; simpl; intros p Hf Ht; auto.
  apply andb_true_iff in Hf as [H1 H2].
  change (c :: w ++ m2) with ([c] ++ (w ++ m2)). constructor.
  - now constructor.
  - simpl. now apply IH.
Qed.

Lemma lang_upto (f : ascii -> bool) (s : str) :
  forall (n : nat) (w : str) (p : option ascii),
    forallb f w = true -> length w <= n -> lang (upto (Cls f) n) p w s.
Proof.
  induction n as [|n IH]; intros w p Hf Hl.
  - destruct w; [constructor|simpl in Hl; lia].
  - destruct w as [|c w]; simpl.
    + apply L_AltR. constructor.
    + apply L_AltL. simpl in Hf, Hl. apply andb_true_iff in Hf as [H1 H2].
      change (c :: w) with ([c] ++ w). constructor.
      * now constructor.
      * apply IH; auto. lia.
Qed.

Lemma lang_rep (f : ascii -> bool) (lo hi : nat) (w s : str) (p : option ascii) :
  forallb f w = true -> lo <= length w <= hi ->
  lang (rep (Cls f) lo hi) p w s.
Proof.
  intros Hf Hl. unfold rep.
  assert (Hb : length (skipn lo w) <= hi - lo) by (rewrite length_skipn; lia).
  assert (E : length (firstn lo w) = lo) by (rewrite length_firstn; lia).
  rewrite <- (firstn_skipn lo w) in Hf |- *.
  rewrite forallb_app in Hf. apply andb_true_iff in Hf as [H1 H2].
  revert Hb E H1 H2. generalize (hi - lo), (firstn lo w), (skipn lo w).
  intros n a b Hb E H1 H2. subst lo.
  rewrite <- (app_nil_r b). rewrite app_assoc.
  rewrite <- (app_nil_r (a ++ b)). rewrite <- !app_assoc. simpl.
  apply lang_exactly; auto. rewrite app_nil_r. apply lang_upto; auto.
Qed.

(** ** The row filter of pipeline B *)

Lemma lstrip_head (s : str) (c : ascii) (t : str) :
  lstrip s = c :: t -> is_space c = false.
Proof.
  induction s as [|a s IH]; simpl; [discriminate|].
  destruct (is_space a) eqn:E; auto.
  intros [= <- _]. exact E.
Qed.

Lemma strip_last (s k : str) (c : ascii) :
  strip s = k ++ [c] -> is_space c = false.
Proof.
  unfold strip, rstrip. intros H.
  apply (f_equal (@rev ascii)) in H.
  rewrite rev_involutive, rev_app_distr in H. simpl in H.
  now apply lstrip_head in H.
Qed.

Lemma konto_re_lang (p : option ascii) (m s : str) :
  lang konto_re p m s <-> p = None /\ konto_shape m /\ at_eos s = true.
Proof.
  unfold konto_re. cbn [seqs]. split.
  - intros H.
    apply lang_seq_inv in H as (m0 & m' & -> & H0 & H).
    apply lang_seq_inv in H as (d1 & m'' & -> & H1 & H).
    apply lang_seq_inv in H as (w & m3 & -> & H2 & H).
    apply lang_seq_inv in H as (d2 & m4 & -> & H3 & H4).
    inversion H0; subst. inversion H4; subst. simpl in *.
    split; [now destruct p|]. split; auto.
    exists d1, w, d2. rewrite app_nil_r.
    pose proof (lang_minlen _ _ _ _ H1) as L1.
    pose proof (lang_maxlen _ _ _ _ H1 eq_refl) as L2.
    pose proof (lang_minlen _ _ _ _ H3) as L3.
    pose proof (lang_maxlen _ _ _ _ H3 eq_refl) as L4.
    change (3 <= length d1) in L1. change (length d1 <= 4) in L2.
    change (2 <= length d2) in L3. change (length d2 <= 2) in L4.
    repeat split; auto; try lia.
    + apply (lang_chars is_digit _ _ _ _ H1). now vm_compute.
    + apply (lang_chars is_space _ _ _ _ H2). now vm_compute.
    + apply (lang_chars is_digit _ _ _ _ H3). now vm_compute.
  - intros (-> & (d1 & w & d2 & -> & Hl1 & Hd1 & Hw & Hl2 & Hd2) & He).
    change (d1 ++ w ++ d2) with ([] ++ d1 ++ w ++ d2).
    constructor; [now constructor|]. simpl.
    constructor; [apply lang_rep; auto; lia|].
    constructor; [now apply lang_star_cls|].
    rewrite <- (app_nil_r d2). constructor.
    + apply lang_rep; auto. lia.
    + now constructor.
Qed.

Lemma konto_matches_shape (s : str) :
  konto_matches (strip s) = true <-> konto_shape (strip s).
Proof.
  unfold konto_matches, re_match. split.
  - destruct (match_here konto_re None (strip s)) as [st'|] eqn:E;
      [intros _|discriminate].
    apply match_here_sound in E as (m & E & Hl & _).
    apply konto_re_lang in Hl as (_ & Hs & He).
    destruct (rest st') as [|c [|c2 t]]; simpl in He; try discriminate.
    + rewrite app_nil_r in E. now rewrite E.
    + apply strip_last in E. apply Ascii.eqb_eq in He. subst c.
      discriminate.
  - intros H.
    assert (Hl : lang konto_re None (strip s) []).
    { apply konto_re_lang. auto. }
    apply match_here_complete in Hl. rewrite app_nil_r in Hl.
    destruct (match_here konto_re None (strip s)); congruence.
Qed.

Lemma parse_columns_accepted (py_float : str -> result float) (cols : columns) :
  konto_matches (strip (c_konto cols)) = true ->
  parse_columns py_float cols <> Ok None
  /\ forall r, parse_columns py_float cols = Ok (Some r) ->
               r_konto r = strip (c_konto cols).
Proof.
  intros E. unfold parse_columns. rewrite E. simpl.
  destruct (parse_amount py_float (c_eb_wert cols) true);
    [|split; [|intros r]; discriminate].
  destruct (parse_amount py_float (c_soll cols) false);
    [|split; [|intros r]; discriminate].
  destruct (parse_amount py_float (c_haben cols) false);
    [|split; [|intros r]; discriminate].
  destruct (parse_amount py_float (c_kum_soll cols) false);
    [|split; [|intros r]; discriminate].
  destruct (parse_amount py_float (c_kum_haben cols) false);
    [|split; [|intros r]; discriminate].
  destruct (parse_amount py_float (c_saldo cols) true);
    [|split; [|intros r]; discriminate].
  simpl. split; [discriminate|]. intros r [= <-]. reflexivity.
Qed.

Lemma digits_run_shape (k : str) :
  length k = 5 \/ length k = 6 -> forallb is_digit k = true -> konto_shape k.
Proof.
  intros Hl Hd.
  exists (firstn (length k - 2) k), [], (skipn (length k - 2) k).
  simpl. rewrite firstn_skipn.
  rewrite <- (firstn_skipn (length k - 2) k), forallb_app in Hd.
  apply andb_true_iff in Hd as [H1 H2].
  rewrite length_firstn, length_skipn.
  repeat split; auto; lia.
Qed.

(** C3 (as amended). The row filter of pipeline B accepts a line if and
    only if the trimmed text of its first column consists of 3 or 4
    digits, then blanks that may be absent, then 2 digits; so five or six
    digits run together qualify.  Every other line is left out of the
    output, whatever its other columns hold; an accepted line gives a row
    whose account is that trimmed text, unless one of its amounts
    raises. *)
Theorem row_filter_spec :
  forall (py_float : str -> result float) (cols : columns),
    let konto := strip (c_konto cols) in
    (konto_matches konto = true <-> konto_shape konto)
    /\ (parse_columns py_float cols = Ok None <-> ~ konto_shape konto)
    /\ (forall r, parse_columns py_float cols = Ok (Some r) ->
          konto_shape konto /\ r_konto r = konto)
    /\ (forall k, length k = 5 \/ length k = 6 -> forallb is_digit k = true ->
          konto_shape k).
Proof.
  intros py_float cols konto.
  pose proof (konto_matches_shape (c_konto cols)) as Hk. fold konto in Hk.
  split; [exact Hk|].
  split; [|split; [|apply digits_run_shape]].
  - destruct (konto_matches konto) eqn:E.
    + destruct (parse_columns_accepted py_float cols E) as [H1 _].
      split; [congruence|]. intros H. exfalso. apply H, Hk. reflexivity.
    + unfold parse_columns. fold konto. rewrite E. simpl.
      split; auto. intros _ H. apply Hk in H. congruence.
  - intros r Hr. destruct (konto_matches konto) eqn:E.
    + split; [now apply Hk|].
      now apply (parse_columns_accepted py_float cols E).
    + unfold parse_columns in Hr. fold konto in Hr. rewrite E in Hr.
      discriminate.
Qed.

Lemma konto_without_blank_not_claimed : ~ konto_shape_blank (L "12345").
Proof.
  intros (d1 & w & d2 & E & _ & _ & Hw & Hs & _).
  assert (H : forallb (fun c => negb (is_space c)) (d1 ++ w ++ d2) = true)
    by (rewrite <- E; reflexivity).
  rewrite !forallb_app in H.
  apply andb_true_iff in H as [_ H]. apply andb_true_iff in H as [H _].
  destruct w as [|c w]; [congruence|]. simpl in *.
  destruct (is_space c); discriminate.
Qed.

(** C3, the claim as written fails: five digits run together, with no
    blank between the groups, are accepted and make a row. *)
Lemma konto_without_blank_accepted :
  konto_matches (strip (L "12345")) = true
  /\ parse_columns decimal_float
       (Columns (L "12345") (L "Kasse") [] [] [] [] [] [])
     = Ok (Some (SusaRow (L "12345") (L "Kasse") 0%float 0%float 0%float
                   0%float 0%float 0%float))
  /\ ~ konto_shape_blank (L "12345").
Proof.
  split; [vm_compute; reflexivity|].
  split; [vm_compute; reflexivity|].
  exact konto_without_blank_not_claimed.
Qed.

(** ** The header-width invariant *)

Lemma length_slice_last {A} (n : nat) (xs : list A) :
  n <> 0 -> n <= length xs -> length (slice_last n xs) = n.
Proof.
  intros Hn Hl. unfold slice_last. destruct n; [congruence|].
  rewrite length_skipn. lia.
Qed.

Lemma parse_line_width (raw_line : str) (months : list str) :
  months <> [] ->
  exists r, parse_line raw_line months = Ok r
            /\ forall x, r = Some x -> length (snd x) = length months.
Proof.
  intros Hm. unfold parse_line.
  destruct (strip raw_line) as [|c line] eqn:El.
  { eexists; split; [reflexivity|discriminate]. }
  destruct (str_eqb (c :: line) KOSTENARTEN).
  { eexists; split; [reflexivity|]. intros x [= <-]. apply length_times. }
  destruct (length months <=? _) eqn:E.
  2:{ eexists; split; [reflexivity|discriminate]. }
  apply Nat.leb_le in E.
  assert (Hn : length months <> 0) by (destruct months; simpl; congruence).
  pose proof (length_slice_last (length months) _ Hn E) as Hl.
  destruct (slice_last _ _) as [|first_num vs] eqn:Ev; [simpl in Hl; lia|].
  eexists; split; [reflexivity|]. intros x [= <-]. exact Hl.
Qed.

Lemma parse_lines_width (months : list str) :
  months <> [] ->
  forall lines, exists rows,
    parse_lines lines months = Ok rows /\ width_ok (length months) rows.
Proof.
  intros Hm. induction lines as [|raw ls (rows & E & Hw)]; simpl.
  { exists []. split; [reflexivity|constructor]. }
  destruct (parse_line_width raw months Hm) as (r & Er & Hr).
  rewrite Er, E. simpl.
  eexists; split; [reflexivity|].
  destruct r as [x|]; auto. constructor; auto.
Qed.

Lemma width_ok_app (n : nat) (a b : list row) :
  width_ok n (a ++ b) <-> width_ok n a /\ width_ok n b.
Proof. apply Forall_app. Qed.

Lemma width_ok_blank (n : nat) : length (snd (blank_row n)) = n.
Proof. apply length_times. Qed.

Lemma ensure_kostenarten_width (rows : list row) (months : list str) :
  width_ok (length months) rows ->
  width_ok (length months) (ensure_kostenarten rows months).
Proof.
  intros H. unfold ensure_kostenarten.
  destruct (mem _ _); auto. destruct (first_cost_idx rows) as [i|]; auto.
  rewrite <- (firstn_skipn i rows) in H. apply width_ok_app in H as [H1 H2].
  apply width_ok_app. split; auto. simpl. constructor; auto.
  apply length_times.
Qed.

Lemma uniq_from_width (n : nat) (rows : list row) :
  width_ok n rows -> forall seen, width_ok n (uniq_from seen rows).
Proof.
  induction 1 as [|r rs H _ IH]; intros seen; simpl; [constructor|].
  destruct (existsb _ _); [apply IH|].
  constructor; [exact H|apply IH].
Qed.

Lemma insert_section_breaks_width (n : nat) (rows : list row) :
  width_ok n rows -> width_ok n (insert_section_breaks rows n).
Proof.
  intros H. unfold insert_section_breaks.
  apply width_ok_app. split; [repeat constructor; apply width_ok_blank|].
  apply width_ok_app. split; [|repeat constructor; apply width_ok_blank].
  apply Forall_flat_map. revert H. apply Forall_impl. intros r Hr.
  constructor; [exact Hr|].
  destruct (mem (fst r) SECTION_BREAK_AFTER); constructor;
    [apply width_ok_blank|constructor].
Qed.

Lemma compress_from_width (n : nat) (rows : list row) :
  width_ok n rows -> forall b, width_ok n (compress_from b rows).
Proof.
  induction 1 as [|r rs H _ IH]; intros b; simpl; [constructor|].
  destruct (_ && _); [apply IH|].
  constructor; [exact H|apply IH].
Qed.

Lemma output_row_length (header : list str) (r : row) :
  length (snd r) = length header ->
  length (output_row header r) = S (length header).
Proof.
  destruct r as [label values]. simpl. intros H.
  destruct (_ && _); simpl; [now rewrite length_times|now rewrite H].
Qed.

Lemma detect_in_lines_length (lines : list str) (h : list str) :
  detect_in_lines lines = Some h -> length h = 13.
Proof.
  induction lines as [|raw ls IH]; cbn [detect_in_lines]; [discriminate|].
  destruct (negb _); auto.
  destruct (Nat.leb 13 (length (extract_month_tokens raw))) eqn:E; auto.
  intros [= <-]. apply Nat.leb_le in E.
  apply (length_slice_last 13); [discriminate|exact E].
Qed.

Lemma detect_month_header_length (text : str) (h : list str) :
  detect_month_header text = Some h -> length h = 13.
Proof.
  unfold detect_month_header.
  destruct (detect_in_lines _) eqn:E.
  - intros [= <-]. now apply detect_in_lines_length in E.
  - destruct (Nat.leb 13 (length (extract_month_tokens text))) eqn:E2;
      [|discriminate].
    intros [= <-]. apply Nat.leb_le in E2.
    apply (length_slice_last 13); [discriminate|exact E2].
Qed.

(** C7. For every page text and every header of N columns (N is 13 for a
    resolved header, and not 0), the row extractor returns rows, data rows
    and the sentinel row alike, whose values have length exactly N; the
    invariant is kept by sentinel insertion, de-duplication, section-break
    insertion and blank-run compression; and every row of the table that
    the conversion of a page text produces has N + 1 cells, N + 1 = 14
    being also the number of its columns. *)
Theorem header_width_invariant :
  forall (text : str) (months : list str),
    months <> [] ->
    (exists rows, parse_rows_from_text text months = Ok rows
                  /\ width_ok (length months) rows)
    /\ (forall rows, width_ok (length months) rows ->
          width_ok (length months) (ensure_kostenarten rows months)
          /\ width_ok (length months) (uniq_from [] rows)
          /\ width_ok (length months) (insert_section_breaks rows (length months))
          /\ width_ok (length months) (compress_blank_rows rows))
    /\ (forall structure_numbers columns rows,
          convert_text text structure_numbers = Ok (columns, rows) ->
          exists header,
            detect_month_header text = Some header
            /\ length header = 13
            /\ columns = L "Bezeichnung" :: header
            /\ Forall (fun cells => length cells = S (length header)) rows).
Proof.
  intros text months Hm.
  split; [apply parse_lines_width; auto|].
  split.
  { intros rows H.
    split; [now apply ensure_kostenarten_width|].
    split; [now apply uniq_from_width|].
    split; [now apply insert_section_breaks_width|].
    now apply compress_from_width. }
  intros sn columns rows. unfold convert_text.
  destruct (detect_month_header text) as [header|] eqn:Eh; [|discriminate].
  pose proof (detect_month_header_length _ _ Eh) as Hl.
  destruct header as [|h0 header']; [discriminate|].
  set (header := h0 :: header') in *.
  assert (Hne : header <> []) by discriminate.
  destruct (parse_lines_width header Hne (splitlines text)) as (rs & E & Hw).
  unfold parse_rows_from_text. rewrite E. simpl.
  intros H. apply build_output_table_ok in H. injection H as -> ->.
  exists header. repeat split; auto.
  apply Forall_map.
  assert (W : width_ok (length header)
                (compress_blank_rows
                   (insert_section_breaks
                      (uniq_from [] (ensure_kostenarten rs header))
                      (length header)))).
  { apply compress_from_width, insert_section_breaks_width, uniq_from_width,
      ensure_kostenarten_width, Hw. }
  revert W. apply Forall_impl. intros r. apply output_row_length.
Qed.

(** C7 on the page text of one line with two amounts, under a header of
    two columns. *)
Lemma header_width_invariant_witness :
  [L "Jan/2024"; L "Feb/2024"] <> []
  /\ (exists rows,
        parse_rows_from_text (L "Miete 1,00 2,00") [L "Jan/2024"; L "Feb/2024"]
        = Ok rows
        /\ width_ok 2 rows).
Proof.
  split; [discriminate|].
  apply (header_width_invariant (L "Miete 1,00 2,00")
           [L "Jan/2024"; L "Feb/2024"]).
  discriminate.
Defined.

(** ** The label of a row *)

(** C2 fails on the code at a line whose first retained amount repeats an
    earlier text: of the 14 amounts of the line the last 13 are kept, the
    first kept one is the second [1,00], and the label is cut at the
    first [1,00]; it is [Miete], where the text before the kept amount is
    [Miete 1,00]. *)
Theorem parse_line_label_at_first_occurrence :
  parse_line LINE_REPEATED_AMOUNT HEADER_2024
  = Ok (Some (L "Miete",
              [ L "1,00"; L "2,00"; L "3,00"; L "4,00"; L "5,00"; L "6,00";
                L "7,00"; L "8,00"; L "9,00"; L "10,00"; L "11,00";
                L "12,00"; L "13,00" ]))
  /\ findall DE_NUMBER_RE LINE_REPEATED_AMOUNT
     = [ L "1,00"; L "1,00"; L "2,00"; L "3,00"; L "4,00"; L "5,00"; L "6,00";
         L "7,00"; L "8,00"; L "9,00"; L "10,00"; L "11,00"; L "12,00";
         L "13,00" ]
  /\ find LINE_REPEATED_AMOUNT (L "1,00") = 6%Z
  /\ strip (slice_to LINE_REPEATED_AMOUNT 11) = L "Miete 1,00".
Proof. vm_compute. repeat split. Qed.

(** ** The tokens of [extract_month_tokens] *)

Lemma filter_filter_comm {A} (f g : A -> bool) (l : list A) :
  filter f (filter g l) = filter g (filter f l).
Proof.
  induction l as [|x l IH]; simpl; auto.
  destruct (f x) eqn:Ef, (g x) eqn:Eg; simpl; rewrite ?Ef, ?Eg, IH; auto.
Qed.

Lemma filter_absorb (g : str -> bool) (x : str) (l : list str) :
  g x = false ->
  filter g (filter (fun y => negb (str_eqb y x)) l) = filter g l.
Proof.
  intros Hx. induction l as [|y l IH]; simpl; auto.
  destruct (str_eqb y x) eqn:E; simpl.
  - apply str_eqb_eq in E. subst y. now rewrite Hx.
  - now rewrite IH.
Qed.

Lemma dedup_first_filter (g : str -> bool) (l : list str) :
  dedup_first (filter g l) = filter g (dedup_first l).
Proof.
  induction l as [|x l IH]; simpl; auto.
  destruct (g x) eqn:E; simpl.
  - now rewrite IH, filter_filter_comm.
  - now rewrite IH, filter_absorb.
Qed.

Lemma dedup_first_In (l : list str) (x : str) :
  In x (dedup_first l) <-> In x l.
Proof.
  induction l as [|y l IH]; simpl; [tauto|].
  rewrite filter_In, IH. split.
  - intros [H | [H _]]; auto.
  - intros [H | H]; auto.
    destruct (str_eq_dec y x) as [E | E]; auto.
    right. split; auto.
    apply negb_true_iff. unfold str_eqb.
    destruct (str_eq_dec x y); congruence.
Qed.

Lemma dedup_first_NoDup (l : list str) : NoDup (dedup_first l).
Proof.
  induction l as [|y l IH]; simpl; constructor.
  - rewrite filter_In. intros [_ H]. now rewrite str_eqb_refl in H.
  - now apply NoDup_filter.
Qed.

Lemma collect_months_dedup (months : list str) :
  forall seen ordered,
    collect_months seen ordered months
    = ordered ++ dedup_first (filter (fun x => negb (mem x seen))
                                (map normalize_month_token months)).
Proof.
  induction months as [|m ms IH]; intros seen ordered; simpl.
  - now rewrite app_nil_r.
  - destruct (mem (normalize_month_token m) seen) eqn:E; simpl.
    + apply IH.
    + rewrite IH, <- app_assoc. simpl. do 2 f_equal.
      rewrite <- dedup_first_filter, filter_filter_comm.
      f_equal. clear. induction (map normalize_month_token ms) as [|y l IH];
        simpl; auto.
      unfold str_eqb at 1.
      destruct (str_eq_dec y (normalize_month_token m)) as [-> | Hn];
        simpl.
      * rewrite str_eqb_refl. simpl. exact IH.
      * replace (str_eqb y (normalize_month_token m)) with false.
        2:{ unfold str_eqb. destruct (str_eq_dec _ _); congruence. }
        simpl. destruct (mem y seen); simpl; rewrite IH; reflexivity.
Qed.

Lemma extract_month_tokens_dedup (text : str) :
  extract_month_tokens text
  = dedup_first (map normalize_month_token (findall MONTHS_RE text)).
Proof.
  unfold extract_month_tokens. rewrite collect_months_dedup. simpl.
  f_equal. induction (map _ _) as [|y l IH]; simpl; congruence.
Qed.

(** ** The scan of a text *)

Lemma firstn_consumed (m s' : str) :
  firstn (length (m ++ s') - length s') (m ++ s') = m.
Proof.
  rewrite length_app, Nat.add_sub, firstn_app, Nat.sub_diag, firstn_all.
  simpl. apply app_nil_r.
Qed.

Lemma scan_cons (r : regex) (skip : nat) (p : option ascii) (c : ascii) (s : str) :
  scan r skip p (c :: s)
  = match skip with
    | S k => scan r k (Some c) s
    | O =>
        match match_here r p (c :: s) with
        | Some st' =>
            let m := firstn (length (c :: s) - length (rest st')) (c :: s) in
            (m, grp st') :: scan r (length m - 1) (Some c) s
        | None => scan r 0 (Some c) s
        end
    end.
Proof. reflexivity. Qed.

(** Every match that the scan reports is a text of the pattern at some
    position of the scanned text. *)
Lemma scan_sound (r : regex) (m : str) (g : option str) :
  forall s skip p,
    In (m, g) (scan r skip p s) ->
    exists pre s', s = pre ++ m ++ s' /\ lang r (prev_after p pre) m s'.
Proof.
  induction s as [|c s IH]; intros skip p H; [simpl in H; tauto|].
  rewrite scan_cons in H.
  assert (Hrec : forall k, In (m, g) (scan r k (Some c) s) ->
            exists pre s', c :: s = pre ++ m ++ s'
                           /\ lang r (prev_after p pre) m s').
  { intros k Hk. apply IH in Hk as (pre & s' & -> & Hl).
    exists (c :: pre), s'. auto. }
  destruct skip as [|k]; [|now apply Hrec in H].
  destruct (match_here r p (c :: s)) as [st'|] eqn:E; [|now apply Hrec in H].
  destruct H as [H | H]; [|now apply Hrec in H].
  apply match_here_sound in E as (m0 & E & Hl & _).
  rewrite E, firstn_consumed in H. injection H as <- _.
  exists [], (rest st'). auto.
Qed.

Lemma findall_sound (r : regex) (m s : str) :
  In m (findall r s) ->
  exists pre s', s = pre ++ m ++ s' /\ lang r (prev_after None pre) m s'.
Proof.
  unfold findall, finditer. rewrite in_map_iff.
  intros ([m0 g] & <- & H). now apply scan_sound in H.
Qed.

(** The patterns that are scanned match non-empty texts only. *)
Lemma scanned_patterns_nonempty (r : regex) (p : option ascii) (m s : str) :
  r = MONTHS_RE \/ r = DE_NUMBER_RE \/ r = SEPARATOR_CLEAN_RE ->
  lang r p m s -> m <> [].
Proof.
  intros Hr H. apply lang_minlen in H.
  assert (1 <= minlen r) by (destruct Hr as [-> | [-> | ->]]; vm_compute; lia).
  destruct m; [simpl in H; lia|discriminate].
Qed.

(** ** The shape of a month token *)

Lemma class_incl_spec (f g : ascii -> bool) :
  class_incl f g = true -> forall c, f c = true -> g c = true.
Proof.
  unfold class_incl. rewrite forallb_forall. intros H c Hf.
  specialize (H c (all_ascii_complete c)). now rewrite Hf in H.
Qed.

Lemma forallb_incl (f g : ascii -> bool) (m : str) :
  class_incl f g = true -> forallb f m = true -> forallb g m = true.
Proof.
  intros H. rewrite !forallb_forall. intros Hm c Hc.
  apply (class_incl_spec _ _ H). auto.
Qed.

Lemma prev_after_last (m : str) :
  m <> [] -> forall p, exists c, prev_after p m = Some c /\ In c m.
Proof.
  induction m as [|a m IH]; [congruence|]. intros _ p. simpl.
  destruct m as [|b m].
  - exists a; simpl; auto.
  - destruct (IH ltac:(discriminate) (Some a)) as (c & E & Hc).
    exists c. split; auto.
Qed.

(** Two ways to cut a text into a run of a class and a rest that stops
    the run are the same. *)
Lemma span_unique (f : ascii -> bool) :
  forall a1 b1 a2 b2 : str,
    a1 ++ b1 = a2 ++ b2 ->
    forallb f a1 = true -> forallb f a2 = true ->
    stops f b1 = true -> stops f b2 = true ->
    a1 = a2 /\ b1 = b2.
Proof.
  induction a1 as [|c a1 IH]; intros b1 a2 b2 E H1 H2 S1 S2.
  - destruct a2 as [|c2 a2]; simpl in *; auto.
    subst b1. simpl in S1. apply andb_true_iff in H2 as [H2 _].
    rewrite H2 in S1. discriminate.
  - destruct a2 as [|c2 a2]; simpl in *.
    + subst b2. simpl in S2. apply andb_true_iff in H1 as [H1 _].
      rewrite H1 in S2. discriminate.
    + injection E as -> E.
      apply andb_true_iff in H1 as [_ H1]. apply andb_true_iff in H2 as [_ H2].
      destruct (IH _ _ _ E H1 H2 S1 S2) as [-> ->]. auto.
Qed.

(** The parts of a month token: the name, the separator, the year; no
    word character follows. *)
Lemma months_re_parts (p : option ascii) (m s : str) :
  lang MONTHS_RE p m s ->
  exists name sep digs,
    m = name ++ sep ++ digs
    /\ In name (enum MONTH_NAMES)
    /\ forallb is_month_sep sep = true /\ sep <> []
    /\ forallb is_digit digs = true /\ digs <> []
    /\ word_at (hd_error s) = false.
Proof.
  unfold MONTHS_RE. cbn [seqs]. intros H.
  apply lang_seq_inv in H as (m0 & m' & -> & H0 & H).
  apply lang_seq_inv in H as (name & m'' & -> & H1 & H).
  apply lang_seq_inv in H as (sep & m3 & -> & H2 & H).
  apply lang_seq_inv in H as (digs & m4 & -> & H3 & H4).
  inversion H0; subst. inversion H4; subst. clear H0 H4. simpl in *.
  rewrite app_nil_r in *.
  exists name, sep, digs.
  pose proof (lang_minlen _ _ _ _ H2) as L2. change (1 <= length sep) in L2.
  pose proof (lang_minlen _ _ _ _ H3) as L3. change (2 <= length digs) in L3.
  assert (Hd : forallb is_digit digs = true).
  { apply (lang_chars is_digit _ _ _ _ H3). now vm_compute. }
  assert (Hn : digs <> []) by (destruct digs; simpl in L3; [lia|discriminate]).
  repeat split; auto.
  - apply (lang_enum _ _ _ _ H1). reflexivity.
  - apply (lang_chars is_month_sep _ _ _ _ H2). now vm_compute.
  - destruct sep; simpl in L2; [lia|discriminate].
  - destruct (prev_after_last digs Hn (prev_after (prev_after p name) sep))
      as (c & Ec & Hc).
    match goal with Hb : at_boundary _ s = true |- _ =>
      rewrite Ec in Hb; unfold at_boundary in Hb; simpl in Hb;
      rename Hb into Hend
    end.
    rewrite forallb_forall in Hd. specialize (Hd c Hc).
    assert (Hw : is_word c = true).
    { unfold is_word. rewrite Hd. reflexivity. }
    rewrite Hw in Hend. simpl in Hend. now apply negb_true_iff in Hend.
Qed.

Lemma stops_app (f : ascii -> bool) (a b : str) (c : ascii) (t : str) :
  a = c :: t -> f c = false -> stops f (a ++ b) = true.
Proof. intros -> H. simpl. now rewrite H. Qed.

Lemma nonempty_head (f : ascii -> bool) (a : str) :
  a <> [] -> forallb f a = true -> exists c t, a = c :: t /\ f c = true.
Proof.
  destruct a as [|c t]; [congruence|]. simpl. intros _ H.
  apply andb_true_iff in H as [H _]. eauto.
Qed.

Lemma month_names_no_sep (name : str) :
  In name (enum MONTH_NAMES) ->
  forallb (fun c => negb (is_month_sep c)) name = true.
Proof.
  intros H.
  assert (E : forallb (forallb (fun c => negb (is_month_sep c)))
                (enum MONTH_NAMES) = true) by (vm_compute; reflexivity).
  rewrite forallb_forall in E. auto.
Qed.

(** At a position the pattern of the month tokens has at most one text. *)
Lemma months_re_unique (p : option ascii) (m1 s1 m2 s2 : str) :
  lang MONTHS_RE p m1 s1 -> lang MONTHS_RE p m2 s2 ->
  m1 ++ s1 = m2 ++ s2 -> m1 = m2 /\ s1 = s2.
Proof.
  intros H1 H2 E.
  apply months_re_parts in H1
    as (n1 & p1 & d1 & -> & Hn1 & Hp1 & Np1 & Hd1 & Nd1 & Hs1).
  apply months_re_parts in H2
    as (n2 & p2 & d2 & -> & Hn2 & Hp2 & Np2 & Hd2 & Nd2 & Hs2).
  apply month_names_no_sep in Hn1, Hn2.
  destruct (nonempty_head _ _ Np1 Hp1) as (c1 & t1 & Ep1 & Hc1).
  destruct (nonempty_head _ _ Np2 Hp2) as (c2 & t2 & Ep2 & Hc2).
  destruct (nonempty_head _ _ Nd1 Hd1) as (e1 & u1 & Ed1 & He1).
  destruct (nonempty_head _ _ Nd2 Hd2) as (e2 & u2 & Ed2 & He2).
  assert (Hds : class_incl is_digit (fun c => negb (is_month_sep c)) = true)
    by (vm_compute; reflexivity).
  assert (Hdw : class_incl is_digit is_word = true) by (vm_compute; reflexivity).
  rewrite <- !app_assoc in E.
  apply span_unique with (f := fun c => negb (is_month_sep c)) in E
    as [-> E]; auto.
  2:{ apply (stops_app _ _ _ c1 t1); auto. now rewrite Hc1. }
  2:{ apply (stops_app _ _ _ c2 t2); auto. now rewrite Hc2. }
  apply span_unique with (f := is_month_sep) in E as [-> E]; auto.
  2:{ apply (stops_app _ _ _ e1 u1); auto.
      apply negb_true_iff. now apply (class_incl_spec _ _ Hds). }
  2:{ apply (stops_app _ _ _ e2 u2); auto.
      apply negb_true_iff. now apply (class_incl_spec _ _ Hds). }
  apply span_unique with (f := is_digit) in E as [-> E]; auto.
  - destruct s1 as [|x s1]; auto. simpl in *.
    destruct (is_digit x) eqn:Ex; auto.
    apply (class_incl_spec _ _ Hdw) in Ex. congruence.
  - destruct s2 as [|x s2]; auto. simpl in *.
    destruct (is_digit x) eqn:Ex; auto.
    apply (class_incl_spec _ _ Hdw) in Ex. congruence.
Qed.

(** A month token begins with its only capital letter. *)
Lemma months_re_upper (p : option ascii) (m s : str) :
  lang MONTHS_RE p m s ->
  exists c m', m = c :: m' /\ is_upper c = true
               /\ forallb (fun x => negb (is_upper x)) m' = true.
Proof.
  intros H.
  apply months_re_parts in H as (n & sp & dg & -> & Hn & Hp & _ & Hd & _ & _).
  assert (E : forallb (fun n => match n with
                                | c :: t => is_upper c
                                            && forallb (fun x => negb (is_upper x)) t
                                | [] => false
                                end) (enum MONTH_NAMES) = true)
    by (vm_compute; reflexivity).
  rewrite forallb_forall in E. specialize (E n Hn).
  destruct n as [|c t]; [discriminate|].
  apply andb_true_iff in E as [E1 E2].
  exists c, (t ++ sp ++ dg). repeat split; auto.
  rewrite !forallb_app, E2. simpl.
  rewrite (forallb_incl is_month_sep _ sp), (forallb_incl is_digit _ dg); auto;
    vm_compute; reflexivity.
Qed.

Lemma match_here_months (p : option ascii) (m s' : str) :
  lang MONTHS_RE p m s' ->
  exists st', match_here MONTHS_RE p (m ++ s') = Some st' /\ rest st' = s'.
Proof.
  intros H. pose proof (match_here_complete _ _ _ _ H) as Hc.
  destruct (match_here MONTHS_RE p (m ++ s')) as [st'|] eqn:E; [|congruence].
  exists st'. split; auto.
  apply match_here_sound in E as (m0 & E & Hl & _).
  symmetry in E. now destruct (months_re_unique _ _ _ _ _ Hl H E).
Qed.

Lemma overlap_In (x : ascii) :
  forall (l1 l2 a r : str),
    l1 ++ x :: l2 = a ++ r -> length l1 < length a -> In x a.
Proof.
  induction l1 as [|c l1 IH]; intros l2 a r E Hl.
  - destruct a as [|y a]; [simpl in Hl; lia|].
    injection E as -> _. now left.
  - destruct a as [|y a]; [simpl in Hl; lia|].
    injection E as -> E. right. apply (IH _ _ _ E). simpl in Hl. lia.
Qed.

(** Every month token of a text is reported by the scan: no earlier match
    covers its first letter. *)
Lemma scan_complete_months (m s' : str) :
  forall pre skip p,
    skip <= length pre ->
    lang MONTHS_RE (prev_after p pre) m s' ->
    exists g, In (m, g) (scan MONTHS_RE skip p (pre ++ m ++ s')).
Proof.
  induction pre as [|a pre IH]; intros skip p Hs Hl; simpl in Hl.
  - destruct (months_re_upper _ _ _ Hl) as (c & m' & Em & _).
    destruct (match_here_months _ _ _ Hl) as (st' & E & Er).
    simpl app. assert (skip = 0) by (simpl in Hs; lia). subst skip.
    revert E. rewrite Em. simpl app. intros E.
    rewrite scan_cons, E. exists (grp st'). left.
    cbv zeta. f_equal. rewrite Er.
    change (c :: m' ++ s') with ((c :: m') ++ s'). apply firstn_consumed.
  - simpl app. rewrite scan_cons.
    destruct skip as [|k].
    + destruct (match_here MONTHS_RE p (a :: pre ++ m ++ s')) as [st'|] eqn:E.
      * apply match_here_sound in E as (m0 & E & Hl0 & _).
        destruct (months_re_upper _ _ _ Hl0) as (c0 & m0' & -> & _ & Hlow).
        destruct (months_re_upper _ _ _ Hl) as (c & m' & -> & Hup & _).
        cbv zeta. rewrite E, firstn_consumed.
        injection E as <- E.
        assert (Hlen : length m0' <= length pre).
        { destruct (Nat.le_gt_cases (length m0') (length pre)) as [?|Hgt]; auto.
          exfalso. simpl in E.
          pose proof (overlap_In c pre (m' ++ s') m0' (rest st') E Hgt) as Hin.
          rewrite forallb_forall in Hlow. specialize (Hlow c Hin).
          rewrite Hup in Hlow. discriminate. }
        destruct (IH (length (a :: m0') - 1) (Some a)) as [g Hg].
        -- simpl. lia.
        -- exact Hl.
        -- exists g. right. exact Hg.
      * apply (IH 0 (Some a)); [lia|exact Hl].
    + apply (IH k (Some a)); [simpl in Hs; lia|exact Hl].
Qed.

(** ** The lines of a text *)

Ltac app_norm := repeat (rewrite <- app_assoc || rewrite <- app_comm_cons).

(** A line of [splitlines] stands in the text between line boundaries. *)
Lemma splitlines_from_In (l : str) :
  forall n s cur,
    length s <= n ->
    In l (splitlines_from cur s) ->
    exists a b, cur ++ s = a ++ l ++ b
                /\ (a = [] \/ (ends_line a /\ a <> []))
                /\ starts_line b
                /\ (a = [] -> exists t, l = cur ++ t).
Proof.
  induction n as [|n IH]; intros s cur Hn H.
  - destruct s; [|simpl in Hn; lia].
    destruct cur as [|c cur]; simpl in H; [tauto|]. destruct H as [<- | []].
    exists [], []. rewrite !app_nil_r. repeat split; auto.
    + now left.
    + exists []. now rewrite app_nil_r.
  - destruct s as [|c s].
    { destruct cur as [|c cur]; simpl in H; [tauto|]. destruct H as [<- | []].
      exists [], []. rewrite !app_nil_r. repeat split; auto.
      - now left.
      - exists []. now rewrite app_nil_r. }
    simpl in H, Hn.
    destruct (is_linebreak c) eqn:Ec.
    + assert (Hcur : l = cur ->
                exists a b, cur ++ c :: s = a ++ l ++ b
                  /\ (a = [] \/ (ends_line a /\ a <> []))
                  /\ starts_line b /\ (a = [] -> exists t, l = cur ++ t)).
      { intros ->. exists [], (c :: s). repeat split; auto.
        - right. eauto.
        - exists []. now rewrite app_nil_r. }
      assert (Hrest : forall brk s0, s = brk ++ s0 ->
                (forall x, In x (c :: brk) -> is_linebreak x = true) ->
                In l (splitlines_from [] s0) ->
                exists a b, cur ++ c :: s = a ++ l ++ b
                  /\ (a = [] \/ (ends_line a /\ a <> []))
                  /\ starts_line b /\ (a = [] -> exists t, l = cur ++ t)).
      { intros brk s0 -> Hb Hin.
        apply IH in Hin as (a & b & E & Ha & Hb' & _).
        2:{ rewrite length_app in Hn. lia. }
        simpl in E. rewrite E.
        exists (cur ++ c :: brk ++ a), b.
        split; [app_norm; reflexivity|].
        split; [|split; auto].
        - right. split; [|now destruct cur].
          destruct Ha as [-> | [[-> | (a' & x & -> & Hx)] _]].
          + rewrite app_nil_r.
            destruct (exists_last (l := c :: brk) ltac:(discriminate))
              as (i & x & Ei).
            right. exists (cur ++ i), x. rewrite Ei.
            split; [app_norm; reflexivity|]. apply Hb. rewrite Ei. apply in_or_app. simpl. auto.
          + rewrite app_nil_r.
            destruct (exists_last (l := c :: brk) ltac:(discriminate))
              as (i & x & Ei).
            right. exists (cur ++ i), x. rewrite Ei.
            split; [app_norm; reflexivity|]. apply Hb. rewrite Ei. apply in_or_app. simpl. auto.
          + right. exists (cur ++ c :: brk ++ a'), x.
            split; auto. app_norm. reflexivity.
        - intros Habs. destruct cur; discriminate. }
      destruct s as [|c2 s2].
      * destruct H as [H | H]; [auto|]. simpl in H. tauto.
      * destruct (Ascii.eqb c CR && Ascii.eqb c2 LF) eqn:Ecr.
        -- destruct H as [H | H]; [auto|].
           apply (Hrest [c2] s2); auto.
           apply andb_true_iff in Ecr as [_ E2]. apply Ascii.eqb_eq in E2.
           subst c2. intros x [<- | [<- | []]]; auto.
        -- destruct H as [H | H]; [auto|].
           apply (Hrest [] (c2 :: s2)); auto.
           intros x [<- | []]; auto.
    + apply IH in H as (a & b & E & Ha & Hb & Hc); [|lia].
      rewrite <- app_assoc in E. simpl in E.
      exists a, b. repeat split; auto.
      intros Ha0. destruct (Hc Ha0) as [t ->].
      exists (c :: t). now rewrite <- app_assoc.
Qed.

Lemma linebreak_not_word (c : ascii) : is_linebreak c = true -> is_word c = false.
Proof.
  intros H.
  assert (E : class_incl is_linebreak (fun x => negb (is_word x)) = true)
    by (vm_compute; reflexivity).
  apply (class_incl_spec _ _ E) in H. now apply negb_true_iff in H.
Qed.

Lemma splitlines_In (l text : str) :
  In l (splitlines text) ->
  exists a b, text = a ++ l ++ b
              /\ word_at (prev_after None a) = false
              /\ word_at (hd_error b) = false.
Proof.
  intros H. apply (splitlines_from_In l (length text)) in H; auto.
  destruct H as (a & b & E & Ha & Hb & _). simpl in E.
  exists a, b. repeat split; auto.
  - destruct Ha as [-> | [[-> | (a' & c & -> & Hc)] _]]; auto.
    rewrite prev_after_app. simpl. now apply linebreak_not_word.
  - destruct Hb as [-> | (c & b' & -> & Hc)]; auto.
    simpl. now apply linebreak_not_word.
Qed.

(** The month tokens of a line are month tokens of the text. *)
Lemma findall_months_line (l text : str) :
  In l (splitlines text) ->
  incl (findall MONTHS_RE l) (findall MONTHS_RE text).
Proof.
  intros Hl m Hm.
  apply splitlines_In in Hl as (a & b & -> & Ha & Hb).
  apply findall_sound in Hm as (pre & s' & -> & Hm).
  assert (Hm' : lang MONTHS_RE (prev_after None (a ++ pre)) m (s' ++ b)).
  { apply lang_right with (s := s'); [|reflexivity|].
    - apply lang_left with (p := prev_after None pre); [auto|reflexivity|].
      rewrite prev_after_app. apply word_at_prev_after. now rewrite Ha.
    - destruct s'; simpl; auto. }
  destruct (scan_complete_months m (s' ++ b) (a ++ pre) 0 None ltac:(lia) Hm')
    as [g Hg].
  unfold findall, finditer. apply in_map_iff. exists (m, g). split; auto.
  now rewrite <- !app_assoc in *.
Qed.

Lemma extract_month_tokens_incl (l text : str) :
  incl (findall MONTHS_RE l) (findall MONTHS_RE text) ->
  length (extract_month_tokens l) <= length (extract_month_tokens text).
Proof.
  intros H. rewrite !extract_month_tokens_dedup.
  apply NoDup_incl_length; [apply dedup_first_NoDup|].
  intros x Hx. apply (proj1 (dedup_first_In _ _)) in Hx.
  apply (proj2 (dedup_first_In _ _)).
  apply in_map_iff in Hx as (m & <- & Hm). apply in_map. auto.
Qed.

(** ** The month header *)

Lemma detect_in_lines_none (lines : list str) :
  (forall l, In l lines -> anchor_line l -> tokens_short l) ->
  detect_in_lines lines = None.
Proof.
  induction lines as [|raw ls IH]; intros H; cbn [detect_in_lines]; auto.
  destruct (contains ANCHOR raw) eqn:Ea; cbn [negb].
  - destruct (Nat.leb 13 (length (extract_month_tokens raw))) eqn:E.
    + apply Nat.leb_le in E.
      specialize (H raw (or_introl eq_refl) Ea). unfold tokens_short in H. lia.
    + apply IH. intros l Hl. apply H. now right.
  - apply IH. intros l Hl. apply H. now right.
Qed.

Lemma detect_in_lines_first (before : list str) (line : str) (after : list str) :
  anchor_line line ->
  13 <= length (extract_month_tokens line) ->
  (forall l, In l before -> anchor_line l -> tokens_short l) ->
  detect_in_lines (before ++ line :: after)
  = Some (last13 (extract_month_tokens line)).
Proof.
  intros Ha Hn. induction before as [|raw ls IH]; intros H;
    cbn [detect_in_lines app].
  - unfold anchor_line in Ha. rewrite Ha. cbn [negb].
    apply Nat.leb_le in Hn. now rewrite Hn.
  - destruct (contains ANCHOR raw) eqn:Ea; cbn [negb].
    + destruct (Nat.leb 13 (length (extract_month_tokens raw))) eqn:E.
      * apply Nat.leb_le in E.
        specialize (H raw (or_introl eq_refl) Ea). unfold tokens_short in H. lia.
      * apply IH. intros l Hl. apply H. now right.
    + apply IH. intros l Hl. apply H. now right.
Qed.

Lemma detect_in_lines_some (lines : list str) (h : list str) :
  detect_in_lines lines = Some h ->
  exists line, In line lines /\ anchor_line line
               /\ 13 <= length (extract_month_tokens line)
               /\ h = last13 (extract_month_tokens line).
Proof.
  induction lines as [|raw ls IH]; cbn [detect_in_lines]; [discriminate|].
  destruct (contains ANCHOR raw) eqn:Ea; cbn [negb].
  - destruct (Nat.leb 13 (length (extract_month_tokens raw))) eqn:E.
    + intros [= <-]. apply Nat.leb_le in E. exists raw.
      repeat split; auto. now left.
    + intros H. destruct (IH H) as (line & Hl & Hr). exists line.
      split; auto. now right.
  - intros H. destruct (IH H) as (line & Hl & Hr). exists line.
    split; auto. now right.
Qed.

Lemma NoDup_skipn {A} (n : nat) (l : list A) : NoDup l -> NoDup (skipn n l).
Proof.
  intros H. rewrite <- (firstn_skipn n l) in H.
  now apply NoDup_app_remove_l in H.
Qed.

Lemma last13_spec (src : str) :
  13 <= length (extract_month_tokens src) ->
  length (last13 (extract_month_tokens src)) = 13
  /\ NoDup (last13 (extract_month_tokens src)).
Proof.
  intros H. unfold last13. split.
  - rewrite length_skipn. lia.
  - apply NoDup_skipn. rewrite extract_month_tokens_dedup.
    apply dedup_first_NoDup.
Qed.

(** C1. The tokens of a source text are the normalized month tokens in
    the left-to-right order of their first appearance.  Whenever the
    detector returns a header, the header has exactly 13 tokens, pairwise
    distinct as normalized forms: the last 13 tokens of a line that holds
    the anchor [Bezeichnung], or of the whole text, which holds at least
    13 distinct tokens.  The first anchor line with at least 13 distinct
    tokens decides; without such a line the whole text decides when it
    holds at least 13; and a text with fewer than 13 distinct tokens
    gives no header at all. *)
Theorem detect_month_header_spec :
  forall text : str,
    (forall src, extract_month_tokens src
                 = dedup_first (map normalize_month_token (findall MONTHS_RE src)))
    /\ (forall h, detect_month_header text = Some h ->
          length h = 13 /\ NoDup h
          /\ exists src,
               (src = text \/ (In src (splitlines text) /\ anchor_line src))
               /\ 13 <= length (extract_month_tokens src)
               /\ h = last13 (extract_month_tokens src))
    /\ (forall before line after,
          splitlines text = before ++ line :: after ->
          anchor_line line ->
          13 <= length (extract_month_tokens line) ->
          (forall l, In l before -> anchor_line l -> tokens_short l) ->
          detect_month_header text = Some (last13 (extract_month_tokens line)))
    /\ ((forall l, In l (splitlines text) -> anchor_line l -> tokens_short l) ->
        13 <= length (extract_month_tokens text) ->
        detect_month_header text = Some (last13 (extract_month_tokens text)))
    /\ (tokens_short text -> detect_month_header text = None).
Proof.
  intros text.
  split; [apply extract_month_tokens_dedup|].
  split.
  { intros h H. unfold detect_month_header in H.
    destruct (detect_in_lines (splitlines text)) as [h'|] eqn:E.
    - injection H as ->.
      apply detect_in_lines_some in E as (line & Hl & Ha & Hn & ->).
      destruct (last13_spec line Hn) as [H1 H2].
      repeat split; auto. exists line. auto.
    - destruct (Nat.leb 13 (length (extract_month_tokens text))) eqn:E2;
        [|discriminate].
      injection H as <-. apply Nat.leb_le in E2.
      destruct (last13_spec text E2) as [H1 H2].
      repeat split; auto. exists text. auto. }
  split.
  { intros before line after E Ha Hn Hb. unfold detect_month_header.
    now rewrite E, (detect_in_lines_first before line after Ha Hn Hb). }
  split.
  { intros Hl Hn. unfold detect_month_header.
    rewrite (detect_in_lines_none _ Hl).
    apply Nat.leb_le in Hn. now rewrite Hn. }
  intros Hs. unfold detect_month_header.
  rewrite detect_in_lines_none.
  - unfold tokens_short in Hs.
    destruct (Nat.leb 13 (length (extract_month_tokens text))) eqn:E; auto.
    apply Nat.leb_le in E. lia.
  - intros l Hl _. unfold tokens_short in *.
    pose proof (extract_month_tokens_incl l text (findall_months_line l text Hl)).
    lia.
Qed.

(* ================================================================== *)
(** * Part III: further properties of the code                          *)
(* ================================================================== *)

(** ** De-duplication of the rows *)

Lemma row_eqb_eq (a b : row) : row_eqb a b = true <-> a = b.
Proof.
  unfold row_eqb. destruct a as [la va], b as [lb vb]. simpl.
  destruct (str_eq_dec la lb); [|split; congruence].
  destruct (list_eq_dec str_eq_dec va vb); split; congruence.
Qed.

Lemma seen_In (r : row) (seen : list row) :
  existsb (row_eqb r) seen = true <-> In r seen.
Proof.
  rewrite existsb_exists. split.
  - intros (x & Hx & E). apply row_eqb_eq in E. now subst.
  - intros H. exists r. split; auto. now apply row_eqb_eq.
Qed.

Lemma uniq_from_In (rows : list row) :
  forall seen r,
    In r (uniq_from seen rows) <-> In r rows /\ ~ In r seen.
Proof.
  induction rows as [|a rs IH]; intros seen r; simpl; [tauto|].
  destruct (existsb (row_eqb a) seen) eqn:E.
  - apply seen_In in E. rewrite IH. split.
    + intros [H1 H2]. auto.
    + intros [[-> | H1] H2]; [contradiction|auto].
  - assert (Hn : ~ In a seen).
    { intros H. apply seen_In in H. congruence. }
    simpl. rewrite IH. simpl. split.
    + intros [<- | [H1 H2]]; auto.
    + intros [[<- | H1] H2]; auto.
      destruct (list_eq_dec str_eq_dec (snd a) (snd r)) as [Ev | Ev];
        destruct (str_eq_dec (fst a) (fst r)) as [El | El].
      * left. destruct a, r; simpl in *; congruence.
      * right. split; auto. intros [<- | H]; auto.
      * right. split; auto. intros [<- | H]; auto.
      * right. split; auto. intros [<- | H]; auto.
Qed.

Lemma uniq_from_NoDup (rows : list row) :
  forall seen, NoDup (uniq_from seen rows).
Proof.
  induction rows as [|a rs IH]; intros seen; simpl; [constructor|].
  destruct (existsb (row_eqb a) seen); auto.
  constructor; auto. rewrite uniq_from_In. simpl. tauto.
Qed.

Lemma uniq_from_fixed (rows : list row) :
  forall seen,
    NoDup rows -> (forall r, In r rows -> ~ In r seen) ->
    uniq_from seen rows = rows.
Proof.
  induction rows as [|a rs IH]; intros seen Hn Hs; simpl; auto.
  inversion Hn as [|? ? Ha Hn']; subst.
  destruct (existsb (row_eqb a) seen) eqn:E.
  - apply seen_In in E. exfalso. apply (Hs a); simpl; auto.
  - f_equal. apply IH; auto.
    intros r Hr [<- | H]; auto. apply (Hs r); simpl; auto.
Qed.

(** X1. The de-duplication loop of [convert_page_to_csv] keeps exactly
    the rows of its input, each once: its result has no two equal rows,
    holds the same rows as the input, is the input itself when the input
    has no duplicates, and so is unchanged by a second pass. *)
Theorem uniq_rows_spec :
  forall rows : list row,
    NoDup (uniq_from [] rows)
    /\ (forall r, In r (uniq_from [] rows) <-> In r rows)
    /\ (NoDup rows -> uniq_from [] rows = rows)
    /\ uniq_from [] (uniq_from [] rows) = uniq_from [] rows
    /\ length (uniq_from [] rows) <= length rows.
Proof.
  intros rows.
  split; [apply uniq_from_NoDup|].
  split; [intros r; rewrite uniq_from_In; simpl; tauto|].
  split; [intros H; apply uniq_from_fixed; auto|].
  split; [apply uniq_from_fixed; [apply uniq_from_NoDup|auto]|].
  generalize (@nil row). induction rows as [|a rs IH]; intros seen; simpl; auto.
  destruct (existsb _ _); simpl; [specialize (IH seen)|specialize (IH (a :: seen))];
    lia.
Qed.

(** ** Sentinel insertion, again *)

Lemma mem_kostenarten_app (a b : list row) :
  mem KOSTENARTEN (map fst (a ++ b))
  = mem KOSTENARTEN (map fst a) || mem KOSTENARTEN (map fst b).
Proof. unfold mem. now rewrite map_app, existsb_app. Qed.

Lemma ensure_kostenarten_cases (rows : list row) (months : list str) :
  ensure_kostenarten rows months = rows
  \/ exists i,
       ensure_kostenarten rows months
       = firstn i rows ++ [(KOSTENARTEN, times [] (length months))]
         ++ skipn i rows.
Proof.
  unfold ensure_kostenarten.
  destruct (mem KOSTENARTEN (map fst rows)); auto.
  destruct (first_cost_idx rows) as [i|]; eauto.
Qed.

(** X2. Sentinel insertion is idempotent, adds at most one row, and
    leaves the rows of its input in place: dropping the rows labelled
    [Kostenarten:] from the result gives the input without its own rows
    of that label. *)
Theorem ensure_kostenarten_idempotent :
  forall (rows : list row) (months : list str),
    ensure_kostenarten (ensure_kostenarten rows months) months
    = ensure_kostenarten rows months
    /\ length rows <= length (ensure_kostenarten rows months) <= S (length rows)
    /\ filter (fun r : row => negb (str_eqb (fst r) KOSTENARTEN))
         (ensure_kostenarten rows months)
       = filter (fun r : row => negb (str_eqb (fst r) KOSTENARTEN)) rows.
Proof.
  intros rows months.
  destruct (ensure_kostenarten_cases rows months) as [E | [i E]].
  { rewrite !E. repeat split; auto. }
  rewrite E. split; [|split].
  - unfold ensure_kostenarten at 1.
    rewrite mem_kostenarten_app, mem_kostenarten_app.
    unfold mem at 2. cbn [map fst existsb].
    now rewrite str_eqb_refl, orb_true_r.
  - pose proof (f_equal (@length row) (firstn_skipn i rows)) as Hl.
    rewrite length_app in Hl. rewrite !length_app. cbn [length].
    unfold row, str in *. lia.
  - rewrite !filter_app. cbn [filter fst]. rewrite str_eqb_refl. cbn [negb app].
    rewrite <- filter_app. now rewrite firstn_skipn.
Qed.

(** ** Structural annotation *)

Lemma data_rows_app (a b : list row) :
  data_rows (a ++ b) = data_rows a ++ data_rows b.
Proof. apply filter_app. Qed.

Lemma compress_from_data_rows (rows : list row) :
  forall b, data_rows (compress_from b rows) = data_rows rows.
Proof.
  induction rows as [|r rs IH]; intros b; simpl; auto.
  destruct (is_blank r) eqn:Er; simpl.
  - destruct b; simpl; rewrite ?Er; simpl; apply IH.
  - rewrite Er. simpl. f_equal. apply IH.
Qed.

Lemma compress_from_fixed (rows : list row) :
  forall b,
    no_blank_run rows ->
    (b = true -> forall r tl, rows = r :: tl -> is_blank r = false) ->
    compress_from b rows = rows.
Proof.
  induction rows as [|r rs IH]; intros b Hn Hb; simpl; auto.
  replace (is_blank r && b) with false.
  - f_equal. apply IH.
    + destruct rs; simpl in *; tauto.
    + intros Er x tl ->. simpl in Hn. destruct Hn as [Hn _].
      rewrite Er in Hn. simpl in Hn. exact Hn.
  - destruct b; [|now rewrite andb_false_r].
    rewrite (Hb eq_refl r rs eq_refl). reflexivity.
Qed.

(** X3. Blank-run compression changes a sequence exactly when two
    neighbouring rows of it are blank: the sequences without such
    neighbours are its fixed points.  It never removes, adds or moves a
    row that is not blank, and never makes the sequence longer. *)
Theorem compress_blank_rows_fixed_points :
  forall rows : list row,
    (compress_blank_rows rows = rows <-> no_blank_run rows)
    /\ data_rows (compress_blank_rows rows) = data_rows rows
    /\ length (compress_blank_rows rows) <= length rows.
Proof.
  intros rows. unfold compress_blank_rows.
  split; [split|split].
  - intros E. rewrite <- E. apply compress_from_no_run.
  - intros H. apply compress_from_fixed; auto. discriminate.
  - apply compress_from_data_rows.
  - generalize false. induction rows as [|r rs IH]; intros b; simpl; auto.
    destruct (_ && _); simpl; [specialize (IH b)|specialize (IH (is_blank r))];
      lia.
Qed.

Lemma insert_section_breaks_body_length (n : nat) (rows : list row) :
  length (flat_map (fun r : row =>
                      r :: (if mem (fst r) SECTION_BREAK_AFTER
                            then [blank_row n] else [])) rows)
  = length rows + section_ends rows.
Proof.
  unfold section_ends.
  induction rows as [|r rs IH]; cbn [flat_map filter length app]; auto.
  rewrite length_app, IH.
  destruct (mem (fst r) SECTION_BREAK_AFTER); cbn [length]; lia.
Qed.

Lemma insert_section_breaks_body_data (n : nat) (rows : list row) :
  data_rows (flat_map (fun r : row =>
                         r :: (if mem (fst r) SECTION_BREAK_AFTER
                               then [blank_row n] else [])) rows)
  = data_rows rows.
Proof.
  induction rows as [|r rs IH]; cbn [flat_map]; auto.
  rewrite data_rows_app, IH. unfold data_rows at 1 3. cbn [filter].
  destruct (negb (is_blank r)); cbn [app]; f_equal;
    destruct (mem (fst r) SECTION_BREAK_AFTER); cbn [filter]; auto;
    rewrite is_blank_blank_row; reflexivity.
Qed.

(** X4. Section-break insertion adds one blank row before the rows, one
    after them and one behind every row whose label ends a section, so
    its result has [len(rows) + 2] rows plus the number of such labels;
    together with the compression that follows it, it keeps the rows
    that are not blank as they are, in their order. *)
Theorem insert_section_breaks_spec :
  forall (rows : list row) (months_count : nat),
    length (insert_section_breaks rows months_count)
    = length rows + section_ends rows + 2
    /\ data_rows (insert_section_breaks rows months_count) = data_rows rows
    /\ data_rows (compress_blank_rows (insert_section_breaks rows months_count))
       = data_rows rows.
Proof.
  intros rows n.
  assert (D : data_rows (insert_section_breaks rows n) = data_rows rows).
  { unfold insert_section_breaks. rewrite !data_rows_app.
    rewrite insert_section_breaks_body_data.
    unfold data_rows at 1 3. cbn [filter].
    rewrite is_blank_blank_row. cbn [negb app]. apply app_nil_r. }
  split; [|split; auto].
  - unfold insert_section_breaks. rewrite !length_app.
    rewrite insert_section_breaks_body_length. cbn [length]. lia.
  - unfold compress_blank_rows. now rewrite compress_from_data_rows.
Qed.

(** ** The conversion of a page text *)

Lemma annotated_rows_shape (rows : list row) (n : nat) :
  exists tl init l,
    compress_blank_rows (insert_section_breaks rows n) = blank_row n :: tl
    /\ compress_blank_rows (insert_section_breaks rows n) = init ++ [l]
    /\ is_blank l = true.
Proof.
  pose proof (is_blank_blank_row n) as Hb.
  unfold compress_blank_rows, insert_section_breaks.
  cbn [app compress_from]. rewrite Hb. cbn [andb].
  match goal with |- context [compress_from true (?m ++ _)] =>
    destruct (compress_from_last (blank_row n) m Hb true)
      as [[E _] | (init & l & E & Hl)]
  end; rewrite E.
  - exists [], [], (blank_row n). auto.
  - exists (init ++ [l]), (blank_row n :: init), l. auto.
Qed.

Lemma output_row_blank (header : list str) (r : row) :
  is_blank r = true -> length (snd r) = length header -> header <> [] ->
  output_row header r = times [] (S (length header)).
Proof.
  destruct r as [label values]. unfold is_blank. simpl.
  intros H Hl Hh. apply andb_true_iff in H as [H1 H2].
  destruct label; [|discriminate]. simpl.
  destruct values as [|v vs].
  - destruct header; [congruence|discriminate].
  - simpl in *. now rewrite H2.
Qed.

Lemma detect_month_header_short (text : str) :
  tokens_short text -> detect_month_header text = None.
Proof.
  intros Hs. unfold detect_month_header.
  rewrite detect_in_lines_none.
  - unfold tokens_short in Hs.
    destruct (Nat.leb 13 (length (extract_month_tokens text))) eqn:E; auto.
    apply Nat.leb_le in E. lia.
  - intros l Hl _. unfold tokens_short in *.
    pose proof (extract_month_tokens_incl l text (findall_months_line l text Hl)).
    lia.
Qed.

(** X5. The conversion of a page text raises nothing but [RuntimeError]:
    the missing header of 13 months, which a text with fewer than 13
    distinct month tokens always gives, or the mismatch with the
    structure reference; without a reference it fails exactly when no
    header is found.  A table that it returns has as many rows as the
    reference, if one is given, and begins and ends with a row of 14
    empty cells. *)
Theorem convert_text_outcomes :
  forall (text : str) (structure_numbers : option (list str)),
    (forall e, convert_text text structure_numbers = Raise e ->
               exists msg, e = RuntimeError msg)
    /\ (tokens_short text -> convert_text text structure_numbers = Raise NO_HEADER)
    /\ ((exists e, convert_text text None = Raise e)
        <-> detect_month_header text = None)
    /\ (forall columns rows,
          convert_text text structure_numbers = Ok (columns, rows) ->
          (forall l, structure_numbers = Some l -> length rows = length l)
          /\ hd [] rows = times [] 14
          /\ last rows [] = times [] 14).
Proof.
  intros text sn.
  assert (Hnone : detect_month_header text = None ->
                  forall sn', convert_text text sn' = Raise NO_HEADER).
  { intros E sn'. unfold convert_text. now rewrite E. }
  assert (Hsome : forall header, detect_month_header text = Some header ->
            exists rows,
              width_ok 13 rows /\ length header = 13
              /\ forall sn',
                   convert_text text sn'
                   = build_output_table header
                       (compress_blank_rows
                          (insert_section_breaks rows (length header))) sn').
  { intros header E.
    pose proof (detect_month_header_length _ _ E) as Hl.
    assert (Hne : header <> []) by (destruct header; discriminate).
    destruct (parse_lines_width header Hne (splitlines text)) as (rs & Er & Hw).
    exists (uniq_from [] (ensure_kostenarten rs header)).
    split; [|split; auto].
    - rewrite <- Hl. apply uniq_from_width, ensure_kostenarten_width, Hw.
    - intros sn'. unfold convert_text, parse_rows_from_text.
      rewrite E, Er. destruct header; [congruence|reflexivity]. }
  destruct (detect_month_header text) as [header|] eqn:Eh.
  2:{ rewrite !(Hnone eq_refl).
      split; [intros e [= <-]; eexists; reflexivity|].
      split; [reflexivity|].
      split; [|discriminate].
      split; [reflexivity|]. intros _. eexists; reflexivity. }
  destruct (Hsome header eq_refl) as (rs & Hw & Hl & Hc).
  rewrite !Hc. clear Hc Hsome Hnone.
  split; [|split; [|split]].
  - unfold build_output_table. intros e.
    destruct sn as [l|]; [|discriminate].
    destruct (negb _); [|discriminate]. intros [= <-]. eexists; reflexivity.
  - intros Hs. exfalso.
    pose proof (detect_month_header_short text Hs). congruence.
  - split; [intros [e H]; discriminate|discriminate].
  - intros columns rows H.
    pose proof (build_output_table_ok _ _ _ _ H) as Ht.
    injection Ht as -> ->.
    split.
    { intros l ->. unfold build_output_table in H.
      destruct (length l =? _) eqn:E; [|discriminate].
      apply Nat.eqb_eq in E. now rewrite length_map. }
    assert (Hne : header <> []) by (destruct header; discriminate).
    destruct (annotated_rows_shape rs (length header))
      as (tl & init & l & E1 & E2 & Hb).
    assert (W : width_ok (length header)
                  (compress_blank_rows (insert_section_breaks rs (length header)))).
    { apply compress_from_width, insert_section_breaks_width. now rewrite Hl. }
    split.
    + rewrite E1. cbn [map hd].
      rewrite output_row_blank; auto using is_blank_blank_row, width_ok_blank.
    + rewrite E2 in W |- *. rewrite map_app. cbn [map]. rewrite last_last.
      apply Forall_app in W as [_ W]. inversion W; subst.
      rewrite output_row_blank; auto; try (now rewrite Hl).
Qed.

(** ** The row extractor without header *)

Lemma parse_line_no_header (raw_line : str) :
  (bare_line raw_line -> parse_line raw_line [] = Raise IndexError)
  /\ (~ bare_line raw_line ->
        exists r, parse_line raw_line [] = Ok r
                  /\ forall x, r = Some x ->
                       x = (KOSTENARTEN, [])
                       \/ snd x = findall DE_NUMBER_RE (strip raw_line)).
Proof.
  unfold bare_line, parse_line.
  destruct (strip raw_line) as [|c line] eqn:El.
  { split; [intros [H _]; congruence|].
    intros _. eexists; split; [reflexivity|discriminate]. }
  destruct (str_eqb (c :: line) KOSTENARTEN) eqn:Ek.
  { apply str_eqb_eq in Ek. split; [intros (_ & H & _); congruence|].
    intros _. eexists; split; [reflexivity|].
    intros x [= <-]. left. now rewrite Ek. }
  cbn [length Nat.leb slice_last].
  destruct (findall DE_NUMBER_RE (c :: line)) as [|n ns] eqn:Ef.
  - split; [reflexivity|]. intros H. exfalso. apply H.
    repeat split; try discriminate.
    intros E. rewrite E, str_eqb_refl in Ek. discriminate.
  - split; [intros (_ & _ & H); discriminate|].
    intros _. eexists; split; [reflexivity|].
    intros x [= <-]. right. reflexivity.
Qed.

(** X6. Called with an empty header, the row extractor raises
    [IndexError] exactly when the text has a line that is neither blank
    nor the sentinel heading and holds no amount ([nums[-0:]] is the
    whole, empty list and [values[0]] fails); otherwise it returns rows;
    and it raises nothing else. *)
Theorem parse_rows_without_header :
  forall text : str,
    (parse_rows_from_text text [] = Raise IndexError
     <-> exists line, In line (splitlines text) /\ bare_line line)
    /\ ((forall line, In line (splitlines text) -> ~ bare_line line) ->
        exists rows, parse_rows_from_text text [] = Ok rows)
    /\ (forall e, parse_rows_from_text text [] = Raise e -> e = IndexError).
Proof.
  intros text. unfold parse_rows_from_text.
  induction (splitlines text) as [|raw ls (IH1 & IH2 & IH3)]; cbn [parse_lines].
  { split; [split; [discriminate|intros (l & [] & _)]|].
    split; [intros _; eexists; reflexivity|discriminate]. }
  destruct (parse_line_no_header raw) as [Hb Hn].
  assert (Hdec : bare_line raw \/ ~ bare_line raw).
  { unfold bare_line.
    destruct (str_eq_dec (strip raw) []) as [E1 | E1]; [right; tauto|].
    destruct (str_eq_dec (strip raw) KOSTENARTEN) as [E2 | E2]; [right; tauto|].
    destruct (findall DE_NUMBER_RE (strip raw)) eqn:E3; [left; auto|].
    right. intros (_ & _ & H). discriminate. }
  destruct Hdec as [Hbare | Hbare].
  - rewrite (Hb Hbare). cbn [bind].
    split; [split; auto; intros _; exists raw; simpl; auto|].
    split; [|intros e [= <-]; reflexivity].
    intros H. exfalso. apply (H raw); simpl; auto.
  - destruct (Hn Hbare) as (r & Er & _). rewrite Er. cbn [bind].
    destruct (parse_lines ls []) as [rows|e] eqn:El; cbn [bind].
    + split; [split; [discriminate|]|].
      * intros (l & [<- | Hl] & Hb'); [contradiction|].
        assert (E : Ok rows = Raise IndexError) by (apply (proj2 IH1); eauto).
        discriminate.
      * split; [intros _; eexists; reflexivity|discriminate].
    + split; [split|].
      * intros [= ->]. destruct (proj1 IH1 eq_refl) as (l & Hl & Hb').
        exists l. simpl. auto.
      * intros _. f_equal. now apply IH3.
      * split; [|intros e' [= <-]; now apply IH3].
        intros H. destruct IH2 as [rows Hr]; [|discriminate].
        intros l Hl. apply H. simpl. auto.
Qed.

(** ** The amounts of a line *)

Lemma lang_lit_inv (c : ascii) (p : option ascii) (m s : str) :
  lang (lit c) p m s -> m = [c].
Proof.
  unfold lit. inversion 1; subst.
  match goal with H : Ascii.eqb _ _ = true |- _ => apply Ascii.eqb_eq in H end.
  now subst.
Qed.

Lemma two_digits (m : str) :
  forallb is_digit m = true -> length m = 2 ->
  exists d1 d2, m = [d1; d2] /\ is_digit d1 = true /\ is_digit d2 = true.
Proof.
  destruct m as [|d1 [|d2 [|]]]; simpl; try discriminate.
  intros H _. apply andb_true_iff in H as [H1 H2].
  apply andb_true_iff in H2 as [H2 _]. eauto.
Qed.

Lemma de_number_shape (p : option ascii) (m s : str) :
  lang DE_NUMBER_RE p m s ->
  exists body d1 d2,
    m = body ++ ["," ; d1; d2]%char
    /\ body <> []
    /\ forallb is_amount_char body = true
    /\ is_digit d1 = true /\ is_digit d2 = true.
Proof.
  unfold DE_NUMBER_RE. cbn [seqs]. intros H.
  inversion H as [| | |? ? ? ? ? H1| ? ? ? ? ? H1| | | | | |]; subst; clear H.
  - apply lang_seq_inv in H1 as (m1 & m' & -> & L1 & H).
    apply lang_seq_inv in H as (m2 & m'' & -> & L2 & H).
    apply lang_seq_inv in H as (m3 & m3' & -> & L3 & H).
    apply lang_seq_inv in H as (m4 & m5 & -> & L4 & L5).
    apply lang_lit_inv in L4. subst m4.
    pose proof (lang_minlen _ _ _ _ L2) as N2. change (1 <= length m2) in N2.
    pose proof (lang_minlen _ _ _ _ L5) as N5. change (2 <= length m5) in N5.
    pose proof (lang_maxlen _ _ _ _ L5 eq_refl) as X5.
    change (length m5 <= 2) in X5.
    assert (D5 : forallb is_digit m5 = true).
    { apply (lang_chars is_digit _ _ _ _ L5). now vm_compute. }
    destruct (two_digits m5 D5 ltac:(lia)) as (d1 & d2 & -> & Hd1 & Hd2).
    exists (m1 ++ m2 ++ m3), d1, d2.
    split; [now rewrite <- !app_assoc|].
    split; [destruct m1, m2; simpl in *; try discriminate; lia|].
    split; auto.
    rewrite !forallb_app.
    rewrite (lang_chars is_amount_char _ _ _ _ L1),
            (lang_chars is_amount_char _ _ _ _ L2),
            (lang_chars is_amount_char _ _ _ _ L3); auto;
      now vm_compute.
  - apply lang_seq_inv in H1 as (m1 & m2 & -> & L1 & L2).
    assert (E2 : In m2 (enum (txt "0,00"))) by (apply (lang_enum _ _ _ _ L2); reflexivity).
    vm_compute in E2. destruct E2 as [<- | []].
    exists (m1 ++ ["0"%char]), "0"%char, "0"%char.
    split; [now rewrite <- app_assoc|].
    split; [destruct m1; discriminate|].
    split; [|split; reflexivity].
    rewrite forallb_app, (lang_chars is_amount_char _ _ _ _ L1); auto;
      now vm_compute.
Qed.

(** X7. Every amount that the pattern [DE_NUMBER_RE] finds in a line is
    a piece of the line and has the German form: digits, periods and a
    minus sign, then a comma, then exactly two digits. *)
Theorem findall_de_number_shape :
  forall (line tok : str),
    In tok (findall DE_NUMBER_RE line) ->
    (exists pre post, line = pre ++ tok ++ post)
    /\ exists body d1 d2,
         tok = body ++ ["," ; d1; d2]%char
         /\ body <> []
         /\ forallb is_amount_char body = true
         /\ is_digit d1 = true /\ is_digit d2 = true.
Proof.
  intros line tok H.
  apply findall_sound in H as (pre & post & -> & Hl).
  split; [eauto|]. now apply de_number_shape in Hl.
Qed.

(** X7 on a line with two amounts. *)
Lemma findall_de_number_shape_witness :
  In (L "-1.234,56") (findall DE_NUMBER_RE (L "Miete -1.234,56 7,00"))
  /\ exists body d1 d2,
       L "-1.234,56" = body ++ ["," ; d1; d2]%char
       /\ body <> []
       /\ forallb is_amount_char body = true
       /\ is_digit d1 = true /\ is_digit d2 = true.
Proof.
  assert (H : In (L "-1.234,56") (findall DE_NUMBER_RE (L "Miete -1.234,56 7,00")))
    by (vm_compute; auto).
  split; [exact H|].
  exact (proj2 (findall_de_number_shape _ _ H)).
Defined.

(** ** Trimmed labels *)

Lemma lstrip_fixed (s : str) : stops is_space s = true -> lstrip s = s.
Proof.
  destruct s as [|c s]; simpl; auto.
  intros H. apply negb_true_iff in H. now rewrite H.
Qed.

Lemma lstrip_stops (s : str) : stops is_space (lstrip s) = true.
Proof.
  destruct (lstrip s) as [|c t] eqn:E; simpl; auto.
  apply lstrip_head in E. now rewrite E.
Qed.

Lemma lstrip_snoc (a : str) (c : ascii) :
  is_space c = false -> lstrip (a ++ [c]) = lstrip a ++ [c].
Proof.
  intros Hc. induction a as [|x a IH]; simpl.
  - now rewrite Hc.
  - destruct (is_space x); auto.
Qed.

Lemma rstrip_cons (c : ascii) (t : str) :
  is_space c = false -> rstrip (c :: t) = c :: rstrip t.
Proof.
  intros Hc. unfold rstrip. simpl.
  rewrite lstrip_snoc; auto. now rewrite rev_app_distr.
Qed.

Lemma rstrip_idem (s : str) : rstrip (rstrip s) = rstrip s.
Proof.
  unfold rstrip. rewrite rev_involutive. f_equal.
  apply lstrip_fixed, lstrip_stops.
Qed.

(** A text that [strip] returns is not changed by [strip]. *)
Lemma strip_idem (s : str) : strip (strip s) = strip s.
Proof.
  unfold strip.
  assert (H : lstrip (rstrip (lstrip s)) = rstrip (lstrip s)).
  { pose proof (lstrip_stops s) as Hs.
    destruct (lstrip s) as [|c t]; [reflexivity|].
    simpl in Hs. apply negb_true_iff in Hs.
    rewrite rstrip_cons; auto. simpl. now rewrite Hs. }
  rewrite H. apply rstrip_idem.
Qed.

Lemma slice_last_incl {A} (n : nat) (xs : list A) : incl (slice_last n xs) xs.
Proof.
  unfold slice_last. destruct n; [apply incl_refl|].
  intros x Hx. rewrite <- (firstn_skipn (length xs - S n) xs).
  apply in_or_app. now right.
Qed.

Lemma parse_line_provenance (raw_line : str) (months : list str) (x : row) :
  parse_line raw_line months = Ok (Some x) ->
  strip (fst x) = fst x
  /\ (x = (KOSTENARTEN, times [] (length months))
      \/ (length months <= length (findall DE_NUMBER_RE (strip raw_line))
          /\ snd x = slice_last (length months)
                       (findall DE_NUMBER_RE (strip raw_line)))).
Proof.
  unfold parse_line.
  destruct (strip raw_line) as [|c line] eqn:El; [discriminate|].
  destruct (str_eqb (c :: line) KOSTENARTEN) eqn:Ek.
  { apply str_eqb_eq in Ek. rewrite Ek. intros [= <-]. simpl fst.
    split; [vm_compute; reflexivity|now left]. }
  destruct (length months <=? _) eqn:E; [|discriminate].
  apply Nat.leb_le in E.
  destruct (slice_last _ _) as [|first_num vs] eqn:Ev; [discriminate|].
  intros [= <-]. simpl. split; [apply strip_idem|].
  right. split; auto.
Qed.

Lemma parse_lines_provenance (months : list str) :
  forall lines rows,
    parse_lines lines months = Ok rows ->
    length rows <= length lines
    /\ forall x, In x rows ->
         exists raw_line, In raw_line lines
                          /\ parse_line raw_line months = Ok (Some x).
Proof.
  induction lines as [|raw ls IH]; intros rows; cbn [parse_lines].
  { intros [= <-]. split; [auto|intros x []]. }
  destruct (parse_line raw months) as [r|] eqn:Er; [|discriminate].
  cbn [bind].
  destruct (parse_lines ls months) as [rs|] eqn:Els; [|discriminate].
  cbn [bind]. intros [= <-]. destruct (IH rs eq_refl) as [Hl Hp].
  split.
  - destruct r; simpl; lia.
  - intros x Hx.
    assert (Hcase : (r = Some x) \/ In x rs).
    { destruct r; simpl in Hx; [destruct Hx as [<- | Hx]|]; auto. }
    destruct Hcase as [-> | Hin].
    + exists raw. simpl. auto.
    + destruct (Hp x Hin) as (l & Hl' & Hpl). exists l. simpl. auto.
Qed.

(** X8. The rows that the row extractor returns come from the lines of
    the text, at most one per line: a row is the sentinel row of a line
    that is the sentinel heading, or its values are the last N amounts
    of a line that holds at least N of them, so every value is an amount
    of that line; and every label is trimmed. *)
Theorem parse_rows_provenance :
  forall (text : str) (months : list str) (rows : list row),
    parse_rows_from_text text months = Ok rows ->
    length rows <= length (splitlines text)
    /\ forall label values, In (label, values) rows ->
         strip label = label
         /\ ((label = KOSTENARTEN /\ values = times [] (length months))
             \/ exists line,
                  In line (splitlines text)
                  /\ length months <= length (findall DE_NUMBER_RE (strip line))
                  /\ values = slice_last (length months)
                                (findall DE_NUMBER_RE (strip line))
                  /\ incl values (findall DE_NUMBER_RE (strip line))).
Proof.
  intros text months rows H. unfold parse_rows_from_text in H.
  apply parse_lines_provenance in H as [Hl Hp].
  split; auto. intros label values Hin.
  destruct (Hp _ Hin) as (raw & Hraw & Hpl).
  apply parse_line_provenance in Hpl as [Hs [E | [Hn Hv]]]; simpl in *.
  - split; auto. left. now injection E.
  - split; auto. right. exists raw. repeat split; auto.
    rewrite Hv. apply slice_last_incl.
Qed.

(** X8 on a text of two lines under a header of two columns. *)
Lemma parse_rows_provenance_witness :
  parse_rows_from_text (L "Miete 1,00 2,00 3,00" ++ [LF] ++ L "Seite 1")
    [L "Jan/2024"; L "Feb/2024"]
  = Ok [(L "Miete 1,00", [L "2,00"; L "3,00"])]
  /\ length [(L "Miete 1,00", [L "2,00"; L "3,00"])]
     <= length (splitlines (L "Miete 1,00 2,00 3,00" ++ [LF] ++ L "Seite 1")).
Proof.
  assert (H : parse_rows_from_text
                (L "Miete 1,00 2,00 3,00" ++ [LF] ++ L "Seite 1")
                [L "Jan/2024"; L "Feb/2024"]
              = Ok [(L "Miete 1,00", [L "2,00"; L "3,00"])])
    by (vm_compute; reflexivity).
  split; [exact H|].
  exact (proj1 (parse_rows_provenance _ _ _ H)).
Defined.

(** ** The search for the pages of pipeline B *)

Lemma susa_matches_In (pages : list str) :
  forall i m,
    In m (susa_matches i pages)
    <-> (i <= m < i + Z.of_nat (length pages))%Z
        /\ re_search SUSA_HEADER_RE (nth (Z.to_nat (m - i)) pages []) = true.
Proof.
  induction pages as [|t ps IH]; intros i m; cbn [susa_matches].
  { simpl. split; [tauto|]. intros [H _]. lia. }
  assert (Hnth : (i < m)%Z ->
            nth (Z.to_nat (m - i)) (t :: ps) []
            = nth (Z.to_nat (m - (i + 1))) ps []).
  { intros H. replace (Z.to_nat (m - i)) with (S (Z.to_nat (m - (i + 1)))) by lia.
    reflexivity. }
  assert (Hrec : In m (susa_matches (i + 1) ps)
            <-> (i < m < i + Z.of_nat (length (t :: ps)))%Z
                /\ re_search SUSA_HEADER_RE (nth (Z.to_nat (m - i)) (t :: ps) []) = true).
  { rewrite IH. cbn [length]. split.
    - intros [H1 H2]. rewrite Hnth by lia. split; [lia|auto].
    - intros [H1 H2]. rewrite Hnth in H2 by lia. split; [lia|auto]. }
  destruct (re_search SUSA_HEADER_RE t) eqn:Et.
  - cbn [In]. rewrite Hrec. cbn [length]. split.
    + intros [<- | [H1 H2]].
      * rewrite Z.sub_diag. simpl. split; [lia|auto].
      * split; [lia|auto].
    + intros [H1 H2]. destruct (Z.eq_dec i m) as [E | E]; [auto|].
      right. split; [lia|auto].
  - rewrite Hrec. cbn [length]. split.
    + intros [H1 H2]. split; [lia|auto].
    + intros [H1 H2]. split; auto.
      destruct (Z.eq_dec i m) as [E | E]; [|lia].
      subst m. rewrite Z.sub_diag in H2. simpl in H2. congruence.
Qed.

Lemma susa_matches_ascending (pages : list str) :
  forall i l1 x l2,
    susa_matches i pages = l1 ++ x :: l2 ->
    forall y, In y l2 -> (x < y)%Z.
Proof.
  induction pages as [|t ps IH]; intros i l1 x l2; cbn [susa_matches].
  { destruct l1; discriminate. }
  destruct (re_search SUSA_HEADER_RE t); [|apply IH].
  destruct l1 as [|z l1]; simpl.
  - intros [= <- <-] y Hy. apply susa_matches_In in Hy. lia.
  - intros [= _ E]. exact (IH _ _ _ _ E).
Qed.

Lemma susa_matches_last (pages : list str) (i m0 : Z) (ms : list Z) :
  susa_matches i pages = m0 :: ms ->
  In (last ms m0) (m0 :: ms)
  /\ forall m, In m (m0 :: ms) -> (m0 <= m <= last ms m0)%Z.
Proof.
  intros E.
  assert (Hfirst : forall m, In m (m0 :: ms) -> (m0 <= m)%Z).
  { intros m [<- | Hm]; [lia|].
    pose proof (susa_matches_ascending pages i [] m0 ms E m Hm). lia. }
  destruct ms as [|m1 ms'] using rev_ind.
  { simpl. split; auto. intros m [<- | []]. lia. }
  clear IHms'. rewrite last_last. split.
  - right. apply in_or_app. simpl. auto.
  - intros m Hm. split; auto.
    change (m0 :: ms' ++ [m1]) with ((m0 :: ms') ++ [m1]) in Hm.
    apply in_app_or in Hm as [Hm | [<- | []]]; [|lia].
    apply in_split in Hm as (l1 & l2 & El).
    assert (E' : susa_matches i pages = l1 ++ m :: (l2 ++ [m1])).
    { rewrite E. change (m0 :: ms' ++ [m1]) with ((m0 :: ms') ++ [m1]).
      rewrite El, <- app_assoc. reflexivity. }
    pose proof (susa_matches_ascending pages i l1 m _ E' m1) as H.
    assert (In m1 (l2 ++ [m1])) by (apply in_or_app; simpl; auto).
    specialize (H ltac:(assumption)). lia.
Qed.

(** X9. The search of pipeline B returns the first and the last page
    whose text holds the heading, so that every page with the heading
    lies between them, and both are page numbers of the document; the
    range that [parse_pdf] derives from them is accepted by its own
    checks, and covers the pages from the first to the last one.  It
    returns nothing exactly when no page holds the heading, and
    [parse_pdf] then raises [RuntimeError]. *)
Theorem find_susa_page_range_spec :
  forall pages : list str,
    let total := Z.of_nat (length pages) in
    (find_susa_page_range pages = None
     <-> forall t, In t pages -> re_search SUSA_HEADER_RE t = false)
    /\ (find_susa_page_range pages = None ->
        page_range total None None None = Raise NO_SUSA_PAGE)
    /\ (forall a b, find_susa_page_range pages = Some (a, b) ->
          (1 <= a <= b)%Z /\ (b <= total)%Z
          /\ re_search SUSA_HEADER_RE (page_at pages a) = true
          /\ re_search SUSA_HEADER_RE (page_at pages b) = true
          /\ (forall i, (1 <= i <= total)%Z ->
                re_search SUSA_HEADER_RE (page_at pages i) = true ->
                (a <= i <= b)%Z)
          /\ page_range total (Some (a, b)) None None = Ok ((a - 1)%Z, b)).
Proof.
  intros pages total. unfold find_susa_page_range.
  destruct (susa_matches 1 pages) as [|m0 ms] eqn:E.
  - split; [split; auto|].
    + intros _ t Ht. destruct (re_search SUSA_HEADER_RE t) eqn:Et; auto.
      exfalso. apply (In_nth _ _ []) in Ht as (n & Hn & En).
      assert (H : In (1 + Z.of_nat n)%Z (susa_matches 1 pages)).
      { apply susa_matches_In. split; [unfold str in *; lia|].
        replace (Z.to_nat (1 + Z.of_nat n - 1)) with n by lia.
        unfold str in *. rewrite En. exact Et. }
      rewrite E in H. exact H.
    + split; [reflexivity|discriminate].
  - split; [split; [discriminate|]|].
    + intros H. exfalso.
      assert (Hin : In m0 (susa_matches 1 pages)) by (rewrite E; simpl; auto).
      apply susa_matches_In in Hin as [Hr Hs].
      rewrite H in Hs; [discriminate|].
      apply nth_In. lia.
    + split; [discriminate|].
      intros a b [= <- <-].
      destruct (susa_matches_last pages 1 m0 ms E) as [Hl Hb].
      rewrite <- E in Hl.
      assert (H0 : In m0 (susa_matches 1 pages)) by (rewrite E; simpl; auto).
      apply susa_matches_In in Hl as [Hl1 Hl2].
      apply susa_matches_In in H0 as [H01 H02].
      pose proof (Hb m0 (or_introl eq_refl)) as Hab.
      fold total in Hl1, H01.
      split; [lia|]. split; [lia|].
      split; [exact H02|]. split; [exact Hl2|].
      split.
      * intros i Hi Hs. apply Hb. rewrite <- E.
        apply susa_matches_In. fold total. split; [lia|exact Hs].
      * unfold page_range. cbn [bind fst snd].
        replace (Z.max (m0 - 1) 0) with (m0 - 1)%Z by lia.
        replace (Z.min (last ms m0) total) with (last ms m0) by lia.
        replace (m0 - 1 >=? total)%Z with false
          by (symmetry; rewrite Z.geb_leb; apply Z.leb_gt; lia).
        replace (last ms m0 <=? m0 - 1)%Z with false
          by (symmetry; apply Z.leb_gt; lia).
        reflexivity.
Qed.

(** ** The search for the page of pipeline A *)

Section PageSearchFacts.

Variable casefold : str -> str.

Lemma find_page_from_spec (pages : list str) :
  forall index,
    match find_page_from casefold index pages with
    | None => forall t, In t pages -> has_term (casefold t) = false
    | Some (i, t) =>
        (index <= i < index + Z.of_nat (length pages))%Z
        /\ nth (Z.to_nat (i - index)) pages [] = t
        /\ has_term (casefold t) = true
        /\ forall j, (index <= j < i)%Z ->
             has_term (casefold (nth (Z.to_nat (j - index)) pages [])) = false
    end.
Proof.
  induction pages as [|p ps IH]; intros index; cbn [find_page_from].
  { intros t []. }
  destruct (has_term (casefold p)) eqn:Ep.
  - rewrite Z.sub_diag. cbn [length nth Z.to_nat].
    repeat split; auto; lia.
  - specialize (IH (index + 1)%Z).
    destruct (find_page_from casefold (index + 1) ps) as [[i t]|].
    + destruct IH as (Hr & Hn & Ht & Hb). cbn [length].
      assert (Hnth : forall j, (index < j)%Z ->
                nth (Z.to_nat (j - index)) (p :: ps) []
                = nth (Z.to_nat (j - (index + 1))) ps []).
      { intros j Hj.
        replace (Z.to_nat (j - index)) with (S (Z.to_nat (j - (index + 1)))) by lia.
        reflexivity. }
      split; [lia|]. split; [rewrite Hnth by lia; exact Hn|].
      split; [exact Ht|].
      intros j Hj. destruct (Z.eq_dec j index) as [-> | Hne].
      * rewrite Z.sub_diag. exact Ep.
      * rewrite Hnth by lia. apply Hb. lia.
    + intros t [<- | Ht]; auto.
Qed.

(** X10. The search of pipeline A returns the first page whose casefolded
    text holds one of the two markers, with its 1-based number and its
    own text, and nothing exactly when no page holds a marker.  The
    conversion then reads that text, the same that the explicit page
    number would give; without such a page it raises [RuntimeError]. *)
Theorem find_entwicklungsuebersicht_page_spec :
  forall pages : list str,
    let find := find_entwicklungsuebersicht_page casefold in
    (find pages = None
     <-> forall t, In t pages -> has_term (casefold t) = false)
    /\ (find pages = None -> select_page_text find pages None = Raise NO_OVERVIEW_PAGE)
    /\ (forall i t, find pages = Some (i, t) ->
          (1 <= i <= Z.of_nat (length pages))%Z
          /\ page_at pages i = t
          /\ has_term (casefold t) = true
          /\ (forall j, (1 <= j < i)%Z ->
                has_term (casefold (page_at pages j)) = false)
          /\ select_page_text find pages None = Ok t
          /\ select_page_text find pages (Some i) = Ok t).
Proof.
  intros pages find. unfold find, find_entwicklungsuebersicht_page.
  pose proof (find_page_from_spec pages 1) as H.
  destruct (find_page_from casefold 1 pages) as [[i t]|] eqn:E.
  - destruct H as (Hr & Hn & Ht & Hb).
    split; [split; [discriminate|]|].
    { intros Hall. exfalso. rewrite Hall in Ht; [discriminate|].
      rewrite <- Hn. apply nth_In. unfold str in *. lia. }
    split; [discriminate|].
    intros i' t' [= <- <-].
    split; [lia|]. split; [exact Hn|]. split; [exact Ht|].
    split; [exact Hb|].
    unfold select_page_text, find_entwicklungsuebersicht_page. rewrite E.
    split; [reflexivity|].
    replace (i <? 1)%Z with false by (symmetry; apply Z.ltb_ge; lia).
    replace (i >? Z.of_nat (length pages))%Z with false
      by (symmetry; rewrite Z.gtb_ltb; apply Z.ltb_ge; lia).
    f_equal. exact Hn.
  - split; [split; auto|].
    split; [|discriminate].
    intros _. unfold select_page_text, find_entwicklungsuebersicht_page.
    now rewrite E.
Qed.

End PageSearchFacts.

(** ** The structure reference *)

Lemma structure_numbers_body (body : list (list str)) :
  flat_map (fun r : list str =>
              match r with
              | [] => []
              | cell :: _ => [strip cell]
              end) body
  = map (fun r => strip (hd [] r)) (filled_rows body).
Proof.
  unfold filled_rows.
  induction body as [|r rs IH]; cbn [flat_map filter map]; auto.
  destruct r as [|cell cells]; cbn [not_ negb app map hd]; now rewrite IH.
Qed.

(** X11. Reading the structure reference fails exactly when the file has
    no row at all or its first row has fewer than two cells.  Otherwise
    the first row is not counted, empty rows are left out, and the result
    holds the trimmed first cell of every other row, in their order; so
    the assembled table is accepted exactly when it has as many rows as
    the file has non-empty rows below its first one. *)
Theorem load_structure_numbers_spec :
  forall (structure_path : str) (reader : list (list str)),
    ((exists e, load_structure_numbers structure_path reader = Raise e)
     <-> length (hd [] reader) < 2)
    /\ (forall e, load_structure_numbers structure_path reader = Raise e ->
          e = RuntimeError (L "Ungueltige Struktur-CSV: " ++ structure_path))
    /\ (forall numbers,
          load_structure_numbers structure_path reader = Ok numbers ->
          numbers = map (fun r => strip (hd [] r)) (filled_rows (tl reader))
          /\ length numbers = length (filled_rows (tl reader))
          /\ (forall n, In n numbers -> strip n = n)
          /\ forall header final_rows,
               (exists t, build_output_table header final_rows (Some numbers) = Ok t)
               <-> length final_rows = length (filled_rows (tl reader))).
Proof.
  intros path reader. unfold load_structure_numbers.
  destruct reader as [|header body]; cbn [hd tl length].
  { split; [split; [lia|intros _; eexists; reflexivity]|].
    split; [intros e [= <-]; reflexivity|discriminate]. }
  destruct header as [|c0 [|c1 cs]]; cbn [not_ orb length Nat.ltb Nat.leb].
  - split; [split; [lia|intros _; eexists; reflexivity]|].
    split; [intros e [= <-]; reflexivity|discriminate].
  - split; [split; [lia|intros _; eexists; reflexivity]|].
    split; [intros e [= <-]; reflexivity|discriminate].
  - split; [split; [intros [e H]; discriminate|lia]|].
    split; [discriminate|].
    intros numbers [= <-]. rewrite structure_numbers_body.
    split; [reflexivity|]. split; [apply length_map|].
    split.
    + intros n Hn. apply in_map_iff in Hn as (r & <- & _). apply strip_idem.
    + intros hdr final_rows. unfold build_output_table. rewrite length_map.
      destruct (negb (_ =? _)) eqn:E.
      * apply negb_true_iff, Nat.eqb_neq in E.
        split; [intros [t H]; discriminate|].
        intros H. unfold str in *. congruence.
      * apply negb_false_iff, Nat.eqb_eq in E.
        split; [intros _; unfold str in *; congruence|].
        intros _. eexists; reflexivity.
Qed.

(** ** The sign suffix of an amount *)

Lemma replace_char_app (a : ascii) (b x y : str) :
  replace_char a b (x ++ y) = replace_char a b x ++ replace_char a b y.
Proof. apply flat_map_app. Qed.

Lemma replace_char_remove_idem (a : ascii) (x : str) :
  replace_char a [] (replace_char a [] x) = replace_char a [] x.
Proof.
  unfold replace_char. induction x as [|c x IH]; simpl; auto.
  destruct (Ascii.eqb c a) eqn:E; simpl; auto.
  now rewrite E, IH.
Qed.

Lemma endswith_snoc (c e : ascii) (x : str) :
  endswith [c] (x ++ [e]) = Ascii.eqb c e.
Proof.
  unfold endswith. rewrite rev_app_distr. simpl. apply andb_true_r.
Qed.

Lemma slice_to_snoc (x : str) (e : ascii) : slice_to (x ++ [e]) (-1) = x.
Proof.
  unfold slice_to. cbn [Z.leb Z.compare].
  rewrite length_app. cbn [length].
  replace (Z.to_nat (Z.of_nat (length x + 1) + -1)) with (length x) by lia.
  rewrite firstn_app, Nat.sub_diag, firstn_all. simpl. apply app_nil_r.
Qed.

Lemma cleaned_amount_suffix (t : str) (e : ascii) :
  Ascii.eqb e " " = false ->
  Ascii.eqb "S" e || Ascii.eqb "H" e = true ->
  cleaned_amount (t ++ [e]) = amount_numeral t.
Proof.
  intros Hsp He. unfold cleaned_amount, amount_numeral.
  rewrite replace_char_app.
  replace (replace_char " " [] [e]) with [e]
    by (unfold replace_char; simpl; now rewrite Hsp).
  change (L "S") with ["S"%char]. change (L "H") with ["H"%char].
  rewrite !endswith_snoc, He. now rewrite slice_to_snoc.
Qed.

Lemma amount_negative_suffix (t : str) (e : ascii) (signed : bool) :
  Ascii.eqb e " " = false ->
  amount_negative (t ++ [e]) signed
  = (Ascii.eqb "S" e || Ascii.eqb "H" e) && signed && Ascii.eqb "H" e.
Proof.
  intros Hsp. unfold amount_negative.
  rewrite replace_char_app.
  replace (replace_char " " [] [e]) with [e]
    by (unfold replace_char; simpl; now rewrite Hsp).
  change (L "S") with ["S"%char]. change (L "H") with ["H"%char].
  now rewrite !endswith_snoc.
Qed.

(** X12. A final [S] or [H] is taken off an amount before it is read, so
    both variants hand the same numeral to [float].  In an unsigned
    column the letter changes nothing; in a signed column [S] gives the
    factor 1 and [H] the factor -1.  An unsigned amount is never
    negated; and blanks inside an amount change nothing. *)
Theorem parse_amount_suffix :
  forall (py_float : str -> result float) (t : str),
    cleaned_amount (t ++ L "S") = amount_numeral t
    /\ cleaned_amount (t ++ L "H") = amount_numeral t
    /\ parse_amount py_float (t ++ L "H") false
       = parse_amount py_float (t ++ L "S") false
    /\ parse_amount py_float (t ++ L "S") true
       = parse_amount py_float (t ++ L "S") false
    /\ (forall v, py_float (amount_numeral t) = Ok v ->
          parse_amount py_float (t ++ L "S") true = Ok (PrimFloat.mul 1 v)
          /\ parse_amount py_float (t ++ L "H") true = Ok (PrimFloat.mul (-1) v))
    /\ (forall text, amount_negative text false = false)
    /\ (forall text signed,
          replace_char " " [] text <> [] ->
          parse_amount py_float (replace_char " " [] text) signed
          = parse_amount py_float text signed).
Proof.
  intros py t.
  assert (CS : cleaned_amount (t ++ L "S") = amount_numeral t)
    by (apply cleaned_amount_suffix; reflexivity).
  assert (CH : cleaned_amount (t ++ L "H") = amount_numeral t)
    by (apply cleaned_amount_suffix; reflexivity).
  assert (NS : forall signed, amount_negative (t ++ L "S") signed = false).
  { intros signed. change (L "S") with ["S"%char].
    rewrite amount_negative_suffix by reflexivity.
    simpl. now rewrite andb_false_r. }
  assert (NH : forall signed, amount_negative (t ++ L "H") signed = signed).
  { intros signed. change (L "H") with ["H"%char].
    rewrite amount_negative_suffix by reflexivity.
    simpl. now rewrite andb_true_r. }
  assert (P : forall e signed,
            parse_amount py (t ++ [e]) signed
            = match py (cleaned_amount (t ++ [e])) with
              | Ok v => Ok (PrimFloat.mul
                              (float_of_sign (amount_negative (t ++ [e]) signed)) v)
              | Raise (ValueError _) => Ok 0%float
              | Raise e' => Raise e'
              end).
  { intros e signed. unfold parse_amount. destruct t; reflexivity. }
  change (L "S") with ["S"%char] in *. change (L "H") with ["H"%char] in *.
  split; [exact CS|]. split; [exact CH|].
  split; [now rewrite !P, CS, CH, NS, NH|].
  split; [now rewrite !P, !NS|].
  split.
  { intros v Hv. rewrite !P, CS, CH, NS, NH, Hv. split; reflexivity. }
  split.
  { intros text. unfold amount_negative. now rewrite andb_false_r. }
  intros text signed Hne. unfold parse_amount.
  destruct (replace_char " " [] text) as [|c r] eqn:Er; [congruence|].
  destruct text as [|c0 text]; [discriminate|].
  rewrite <- Er.
  unfold cleaned_amount, amount_negative.
  now rewrite !replace_char_remove_idem.
Qed.

(** ** The rows of pipeline B *)

Section SusaRows.

Variable py_float : str -> result float.

Hypothesis py_float_raises :
  forall s e, py_float s = Raise e -> exists msg, e = ValueError msg.

Lemma parse_amount_ok (text : str) (signed : bool) :
  exists v, parse_amount py_float text signed = Ok v.
Proof.
  unfold parse_amount. destruct text as [|c text]; [eexists; reflexivity|].
  destruct (py_float (cleaned_amount (c :: text))) as [v|e] eqn:E.
  - eexists; reflexivity.
  - destruct (py_float_raises _ _ E) as [msg ->]. eexists; reflexivity.
Qed.

Lemma parse_columns_ok (cols : columns) :
  (qualifies cols = false /\ parse_columns py_float cols = Ok None)
  \/ (qualifies cols = true
      /\ exists r, parse_columns py_float cols = Ok (Some r)
                   /\ r_konto r = strip (c_konto cols)
                   /\ r_beschriftung r = c_beschriftung cols).
Proof.
  unfold parse_columns, qualifies.
  destruct (konto_matches (strip (c_konto cols))); [right|left; auto].
  split; auto. cbn [negb].
  destruct (parse_amount_ok (c_eb_wert cols) true) as [v1 ->].
  destruct (parse_amount_ok (c_soll cols) false) as [v2 ->].
  destruct (parse_amount_ok (c_haben cols) false) as [v3 ->].
  destruct (parse_amount_ok (c_kum_soll cols) false) as [v4 ->].
  destruct (parse_amount_ok (c_kum_haben cols) false) as [v5 ->].
  destruct (parse_amount_ok (c_saldo cols) true) as [v6 ->].
  cbn [bind]. eexists. repeat split.
Qed.

Lemma parse_page_lines_ok (lines : list columns) :
  exists rows,
    parse_page_lines py_float lines = Ok rows
    /\ map r_konto rows = map (fun c => strip (c_konto c)) (filter qualifies lines)
    /\ map r_beschriftung rows = map c_beschriftung (filter qualifies lines).
Proof.
  induction lines as [|cols ls (rows & E & Hk & Hb)]; cbn [parse_page_lines].
  { exists []. auto. }
  rewrite E. cbn [filter].
  destruct (parse_columns_ok cols) as [[Hq ->] | (Hq & r & -> & Hr1 & Hr2)];
    rewrite Hq; cbn [bind].
  - exists rows. auto.
  - exists (r :: rows). cbn [map]. now rewrite Hk, Hb, Hr1, Hr2.
Qed.

Lemma parse_pages_ok (pages : list (list columns)) :
  exists rows,
    parse_pages py_float pages = Ok rows
    /\ map r_konto rows
       = map (fun c => strip (c_konto c)) (filter qualifies (concat pages))
    /\ map r_beschriftung rows
       = map c_beschriftung (filter qualifies (concat pages)).
Proof.
  induction pages as [|page ps (rows & E & Hk & Hb)]; cbn [parse_pages].
  { exists []. auto. }
  destruct (parse_page_lines_ok page) as (rs & -> & Hk1 & Hb1).
  rewrite E. cbn [bind concat]. exists (rs ++ rows).
  rewrite !map_app, filter_app, !map_app, Hk, Hb, Hk1, Hb1. auto.
Qed.

(** X13. When [float] raises nothing but [ValueError], [parse_pdf] fails
    only with the errors of the page range.  Otherwise it returns one
    row for every line of the pages of the range that passes the row
    filter, in the order of the document: the accounts of the rows are
    the trimmed first columns of these lines and their texts are the
    second columns, unchanged; pages outside the range give no row. *)
Theorem parse_pdf_rows :
  forall (pages : list (list columns)) (found : option (Z * Z))
         (start_page end_page : option Z),
    (forall e, parse_pdf py_float pages found start_page end_page = Raise e
               <-> page_range (Z.of_nat (length pages)) found start_page end_page
                   = Raise e)
    /\ (forall start_idx end_idx,
          page_range (Z.of_nat (length pages)) found start_page end_page
          = Ok (start_idx, end_idx) ->
          exists rows,
            parse_pdf py_float pages found start_page end_page = Ok rows
            /\ map r_konto rows
               = map (fun c => strip (c_konto c))
                   (filter qualifies (selected_lines pages start_idx end_idx))
            /\ map r_beschriftung rows
               = map c_beschriftung
                   (filter qualifies (selected_lines pages start_idx end_idx))
            /\ length rows <= length (selected_lines pages start_idx end_idx)).
Proof.
  intros pages found sp ep. unfold parse_pdf.
  destruct (page_range _ found sp ep) as [[a b]|e0]; cbn [bind].
  - match goal with |- context [parse_pages py_float ?sel] =>
      destruct (parse_pages_ok sel) as (rows & E & Hk & Hb)
    end.
    rewrite E. split; [split; discriminate|].
    intros a' b' [= <- <-]. exists rows. unfold selected_lines.
    repeat split; auto.
    rewrite <- (length_map r_konto), Hk, length_map. apply filter_length_le.
  - split; [|discriminate].
    intros e. split; intros [= ->]; reflexivity.
Qed.

End SusaRows.

(** X13 at the reader of plain decimal numerals, on a document of one
    page with a ledger line and a footer. *)
Lemma parse_pdf_rows_witness :
  exists rows,
    parse_pdf decimal_float
      [[Columns (L " 1200 00 ") (L "Bank") (L "1,00S") [] [] [] [] (L "2,50H");
        Columns (L "Seite 1") [] [] [] [] [] [] []]]
      None (Some 1%Z) None = Ok rows
    /\ map r_konto rows = [L "1200 00"].
Proof.
  destruct (proj2 (parse_pdf_rows decimal_float decimal_float_raises
              [[Columns (L " 1200 00 ") (L "Bank") (L "1,00S") [] [] [] [] (L "2,50H");
                Columns (L "Seite 1") [] [] [] [] [] [] []]]
              None (Some 1%Z) None) 0%Z 1%Z eq_refl)
    as (rows & E & Hk & _).
  exists rows. split; [exact E|]. rewrite Hk. vm_compute. reflexivity.
Defined.

(** ** The lines of glyphs *)

Lemma lookup_setdefault_append (k y : Z) (ch : glyph) (lines : list (Z * list glyph)) :
  lookup y (setdefault_append k ch lines)
  = if Z.eqb k y then lookup y lines ++ [ch] else lookup y lines.
Proof.
  induction lines as [|[k0 l] rest IH]; cbn [setdefault_append lookup].
  - destruct (Z.eqb k y); reflexivity.
  - destruct (Z.eqb k0 k) eqn:E0; cbn [lookup].
    + apply Z.eqb_eq in E0. subst k0. destruct (Z.eqb k y); reflexivity.
    + destruct (Z.eqb k0 y) eqn:E1; auto.
      apply Z.eqb_eq in E1. subst k0. rewrite Z.eqb_sym in E0. now rewrite E0.
Qed.

Lemma keys_setdefault_append (k : Z) (ch : glyph) (lines : list (Z * list glyph)) :
  (forall y, In y (map fst (setdefault_append k ch lines))
             <-> y = k \/ In y (map fst lines))
  /\ (NoDup (map fst lines) -> NoDup (map fst (setdefault_append k ch lines))).
Proof.
  induction lines as [|[k0 l] rest [IH1 IH2]]; cbn [setdefault_append map fst].
  - split; [intros y; simpl; intuition|].
    intros _. constructor; [intros []|constructor].
  - destruct (Z.eqb k0 k) eqn:E0; cbn [map fst].
    + apply Z.eqb_eq in E0. subst k0. split; [intros y; simpl; intuition|auto].
    + apply Z.eqb_neq in E0. split.
      * intros y. simpl. rewrite IH1. intuition.
      * intros Hn. inversion Hn as [|? ? Hk Hr]; subst.
        constructor; auto. rewrite IH1. intuition.
Qed.

Lemma group_lines_from (chars : list glyph) :
  forall lines,
    let out := fold_left (fun lines ch => setdefault_append (line_key ch) ch lines)
                 chars lines in
    (forall y, lookup y out = lookup y lines ++ glyphs_of_line y chars)
    /\ (forall y, In y (map fst out)
                  <-> In y (map fst lines) \/ In y (map line_key chars))
    /\ (NoDup (map fst lines) -> NoDup (map fst out)).
Proof.
  induction chars as [|c cs IH]; intros lines; cbn [fold_left].
  { split; [intros y; now rewrite app_nil_r|]. split; [simpl; tauto|auto]. }
  destruct (IH (setdefault_append (line_key c) c lines)) as (H1 & H2 & H3).
  destruct (keys_setdefault_append (line_key c) c lines) as [K1 K2].
  split; [|split].
  - intros y. rewrite H1, lookup_setdefault_append.
    unfold glyphs_of_line. cbn [filter].
    destruct (Z.eqb (line_key c) y); [now rewrite <- app_assoc|reflexivity].
  - intros y. rewrite H2, K1. simpl. intuition.
  - intros Hn. auto.
Qed.

Lemma insert_key_In (y : Z) (keys : list Z) (x : Z) :
  In x (insert_key y keys) <-> x = y \/ In x keys.
Proof.
  induction keys as [|k ks IH]; simpl; [intuition|].
  destruct (y <=? k)%Z; simpl; rewrite ?IH; intuition.
Qed.

Lemma insert_key_ascending (y : Z) (keys : list Z) :
  ascending keys -> ~ In y keys -> ascending (insert_key y keys).
Proof.
  induction keys as [|k ks IH]; intros Ha Hn; [exact I|].
  cbn [insert_key]. destruct (y <=? k)%Z eqn:E.
  - apply Z.leb_le in E. split; [|exact Ha].
    assert (y <> k) by (intros ->; apply Hn; now left). lia.
  - apply Z.leb_gt in E.
    assert (Ha' : ascending ks) by (destruct ks; [exact I|apply Ha]).
    assert (Hn' : ~ In y ks) by (intros H; apply Hn; now right).
    specialize (IH Ha' Hn').
    destruct ks as [|k2 ks']; [simpl; auto|].
    cbn [insert_key] in *. destruct (y <=? k2)%Z.
    + split; [lia|exact IH].
    + split; [apply Ha|exact IH].
Qed.

Lemma sorted_keys_spec (keys : list Z) :
  NoDup keys ->
  ascending (sorted_keys keys)
  /\ forall x, In x (sorted_keys keys) <-> In x keys.
Proof.
  induction 1 as [|k ks Hk Hn [IH1 IH2]]; [simpl; tauto|].
  cbn [sorted_keys fold_right]. fold (sorted_keys ks). split.
  - apply insert_key_ascending; auto. now rewrite IH2.
  - intros x. rewrite insert_key_In, IH2. simpl. intuition.
Qed.

Lemma ascending_NoDup (keys : list Z) : ascending keys -> NoDup keys.
Proof.
  induction keys as [|a ks IH]; intros H; constructor.
  - assert (Hlt : forall x, In x ks -> (a < x)%Z).
    { clear IH. revert a H. induction ks as [|b ks IH]; intros a H x Hx; [easy|].
      destruct H as [Hab H]. destruct Hx as [<- | Hx]; auto.
      specialize (IH b H x Hx). lia. }
    intros Hin. specialize (Hlt a Hin). lia.
  - apply IH. destruct ks; [exact I|apply H].
Qed.

Lemma concat_lines_perm (chars : list glyph) :
  forall keys,
    NoDup keys -> (forall ch, In ch chars -> In (line_key ch) keys) ->
    Permutation (concat (map (fun y => glyphs_of_line y chars) keys)) chars.
Proof.
  induction chars as [|c cs IH]; intros keys Hn Hk.
  - clear. induction keys; simpl; auto.
  - assert (Hc : In (line_key c) keys) by (apply Hk; now left).
    apply in_split in Hc as (k1 & k2 & ->).
    assert (Hno : forall ks, ~ In (line_key c) ks ->
              map (fun y => glyphs_of_line y (c :: cs)) ks
              = map (fun y => glyphs_of_line y cs) ks).
    { intros ks Hnin. apply map_ext_in. intros y Hy.
      unfold glyphs_of_line. cbn [filter].
      destruct (Z.eqb (line_key c) y) eqn:E; auto.
      apply Z.eqb_eq in E. subst y. contradiction. }
    apply NoDup_remove in Hn as Hn'. destruct Hn' as [Hn' Hnin].
    rewrite map_app, concat_app. cbn [map concat].
    rewrite !Hno.
    2:{ intros H. apply Hnin. apply in_or_app. now right. }
    2:{ intros H. apply Hnin. apply in_or_app. now left. }
    unfold glyphs_of_line at 2. cbn [filter]. rewrite Z.eqb_refl.
    fold (glyphs_of_line (line_key c) cs). cbn [app].
    apply Permutation_sym, Permutation_cons_app, Permutation_sym.
    specialize (IH (k1 ++ line_key c :: k2) Hn
                  (fun ch H => Hk ch (or_intror H))).
    rewrite map_app, concat_app in IH. exact IH.
Qed.

Lemma py_round_near (q : Q) :
  (inject_Z (py_round q) - (1 # 2) <= q)%Q
  /\ (q <= inject_Z (py_round q) + (1 # 2))%Q.
Proof.
  unfold py_round.
  pose proof (Qfloor_le q) as H1. pose proof (Qlt_floor q) as H2.
  rewrite inject_Z_plus in H2. change (inject_Z 1) with 1%Q in H2.
  destruct (Qcompare (q - inject_Z (Qfloor q)) (1 # 2)) eqn:E.
  - apply Qeq_alt in E.
    destruct (Z.even (Qfloor q)); [|rewrite inject_Z_plus; change (inject_Z 1) with 1%Q];
      split; lra.
  - apply Qlt_alt in E. split; lra.
  - apply Qgt_alt in E. rewrite inject_Z_plus. change (inject_Z 1) with 1%Q.
    split; lra.
Qed.

(** X14. [collect_lines] sorts the glyphs of a page into lines without
    losing or repeating one: the keys of the lines grow strictly, the
    line of a key holds exactly the glyphs whose rounded vertical
    position is the key, in the order of the page, and is not empty; all
    lines together are a permutation of the glyphs of the page; and two
    glyphs of one line differ by at most 1 in their vertical position. *)
Theorem collect_lines_spec :
  forall chars : list glyph,
    ascending (map fst (collect_lines chars))
    /\ (forall y l, In (y, l) (collect_lines chars) ->
          l = glyphs_of_line y chars /\ l <> [])
    /\ (forall ch, In ch chars ->
          In (line_key ch, glyphs_of_line (line_key ch) chars) (collect_lines chars))
    /\ Permutation (concat (map snd (collect_lines chars))) chars
    /\ (forall y l a b, In (y, l) (collect_lines chars) -> In a l -> In b l ->
          (g_top a - g_top b <= 1)%Q).
Proof.
  intros chars.
  destruct (group_lines_from chars []) as (H1 & H2 & H3).
  fold (group_lines chars) in H1, H2, H3.
  assert (Hn : NoDup (map fst (group_lines chars))) by (apply H3; constructor).
  destruct (sorted_keys_spec _ Hn) as [Ha Hs].
  assert (Hl : forall y, lookup y (group_lines chars) = glyphs_of_line y chars)
    by (intros y; apply H1).
  assert (Hk : forall y, In y (sorted_keys (map fst (group_lines chars)))
                         <-> In y (map line_key chars)).
  { intros y. rewrite Hs, H2. simpl. tauto. }
  assert (Hmap : map snd (collect_lines chars)
                 = map (fun y => glyphs_of_line y chars)
                     (sorted_keys (map fst (group_lines chars)))).
  { unfold collect_lines. rewrite map_map. cbn [snd].
    apply map_ext. intros y. apply Hl. }
  assert (Hin : forall y l, In (y, l) (collect_lines chars) ->
                  l = glyphs_of_line y chars /\ In y (map line_key chars)).
  { intros y l H. unfold collect_lines in H.
    apply in_map_iff in H as (y' & [= <- <-] & Hy).
    split; [apply Hl|now apply Hk]. }
  split.
  { unfold collect_lines. rewrite map_map. cbn [fst]. now rewrite map_id. }
  split.
  { intros y l H. destruct (Hin y l H) as [-> Hy]. split; auto.
    apply in_map_iff in Hy as (ch & <- & Hch).
    intros E.
    assert (Hm : In ch (glyphs_of_line (line_key ch) chars)).
    { apply filter_In. split; auto. apply Z.eqb_refl. }
    rewrite E in Hm. exact Hm. }
  split.
  { intros ch Hch. unfold collect_lines.
    apply in_map_iff. exists (line_key ch). split; [now rewrite Hl|].
    apply Hk. now apply in_map. }
  split.
  { rewrite Hmap. apply concat_lines_perm.
    - now apply ascending_NoDup.
    - intros ch Hch. apply Hk. now apply in_map. }
  intros y l a b H Ha' Hb'. destruct (Hin y l H) as [-> _].
  apply filter_In in Ha' as [_ Ea]. apply filter_In in Hb' as [_ Eb].
  apply Z.eqb_eq in Ea, Eb. unfold line_key in Ea, Eb.
  rewrite Z.mul_1_r in Ea, Eb.
  destruct (py_round_near (g_top a / 1)) as [A1 A2].
  destruct (py_round_near (g_top b / 1)) as [B1 B2].
  rewrite Ea in A1, A2. rewrite Eb in B1, B2.
  assert (Ea1 : (g_top a / 1 == g_top a)%Q) by (field).
  assert (Eb1 : (g_top b / 1 == g_top b)%Q) by (field).
  rewrite Ea1 in A1, A2. rewrite Eb1 in B1, B2. lra.
Qed.

(** ** The columns of a line *)

Lemma insert_glyph_perm (c : glyph) (l : list glyph) :
  Permutation (insert_glyph c l) (c :: l).
Proof.
  induction l as [|e l IH]; cbn [insert_glyph]; auto.
  destruct (Qle_bool (g_x0 c) (g_x0 e)); auto.
  rewrite IH. apply perm_swap.
Qed.

Lemma sort_by_x0_perm (chars : list glyph) : Permutation (sort_by_x0 chars) chars.
Proof.
  induction chars as [|c cs IH]; cbn [sort_by_x0 fold_right]; auto.
  fold (sort_by_x0 cs). now rewrite insert_glyph_perm, IH.
Qed.

Lemma insert_glyph_sorted (c : glyph) (l : list glyph) :
  x0_sorted l -> x0_sorted (insert_glyph c l).
Proof.
  induction l as [|e l IH]; intros H; cbn [insert_glyph].
  - simpl. auto.
  - destruct H as [He Hl].
    destruct (Qle_bool (g_x0 c) (g_x0 e)) eqn:E.
    + apply Qle_bool_iff in E. repeat split; auto.
      constructor; auto.
      revert He. apply Forall_impl. intros x Hx. lra.
    + assert (Hlt : (g_x0 e < g_x0 c)%Q).
      { apply Qnot_le_lt. intros H. apply Qle_bool_iff in H. congruence. }
      split; [|auto].
      apply Forall_forall. intros x Hx.
      apply (Permutation_in _ (insert_glyph_perm c l)) in Hx.
      destruct Hx as [<- | Hx]; [lra|].
      rewrite Forall_forall in He. auto.
Qed.

Lemma sort_by_x0_sorted (chars : list glyph) : x0_sorted (sort_by_x0 chars).
Proof.
  induction chars as [|c cs IH]; cbn [sort_by_x0 fold_right]; [exact I|].
  now apply insert_glyph_sorted.
Qed.

Lemma in_bounds_split (a b c : Z) (ch : glyph) :
  (a <= b <= c)%Z ->
  in_bounds a c ch = in_bounds a b ch || in_bounds b c ch
  /\ (in_bounds a b ch && in_bounds b c ch = false).
Proof.
  intros [Hab Hbc]. unfold in_bounds.
  assert (Qab : (inject_Z a <= inject_Z b)%Q) by (now rewrite <- Zle_Qle).
  assert (Qbc : (inject_Z b <= inject_Z c)%Q) by (now rewrite <- Zle_Qle).
  destruct (Qle_bool (inject_Z a) (g_x0 ch)) eqn:Ea,
           (Qle_bool (inject_Z b) (g_x0 ch)) eqn:Eb,
           (Qle_bool (inject_Z c) (g_x0 ch)) eqn:Ec;
    simpl; try (split; reflexivity); exfalso;
    repeat match goal with
           | H : Qle_bool _ _ = true |- _ => apply Qle_bool_iff in H
           | H : Qle_bool ?u ?v = false |- _ =>
               assert (v < u)%Q
                 by (apply Qnot_le_lt; intros Hc; apply Qle_bool_iff in Hc;
                     congruence);
               clear H
           end; lra.
Qed.

Lemma filter_bounds_split (a b c : Z) (s : list glyph) :
  (a <= b <= c)%Z -> x0_sorted s ->
  filter (in_bounds a b) s ++ filter (in_bounds b c) s = filter (in_bounds a c) s.
Proof.
  intros Habc. induction s as [|e t IH]; intros Hs; [reflexivity|].
  destruct Hs as [He Ht]. specialize (IH Ht). cbn [filter].
  destruct (in_bounds_split a b c e Habc) as [E1 E2]. rewrite E1.
  destruct (in_bounds a b e) eqn:Eab; cbn [orb].
  - simpl in E2. rewrite E2. cbn [app]. now rewrite IH.
  - destruct (in_bounds b c e) eqn:Ebc; [|exact IH].
    assert (Hnone : filter (in_bounds a b) t = []).
    { clear IH E1 E2 Eab. induction t as [|x t IHt]; [reflexivity|].
      inversion He as [|? ? Hx Hr]; subst. destruct Ht as [_ Ht].
      cbn [filter]. rewrite (IHt Hr Ht).
      unfold in_bounds in Ebc |- *.
      apply andb_true_iff in Ebc as [Eb _]. apply Qle_bool_iff in Eb.
      assert (H : Qle_bool (inject_Z b) (g_x0 x) = true)
        by (apply Qle_bool_iff; lra).
      rewrite H. now rewrite andb_false_r. }
    rewrite Hnone in *. cbn [app] in *. now rewrite IH.
Qed.

Lemma column_text_split (a b c : Z) (s : list glyph) :
  (a <= b <= c)%Z -> x0_sorted s ->
  column_text s a b ++ column_text s b c = column_text s a c.
Proof.
  intros H Hs. unfold column_text.
  now rewrite <- concat_app, <- map_app, filter_bounds_split.
Qed.

(** X15. [slice_columns] returns the eight columns of [COLUMN_BOUNDS] in
    their order, each the trimmed text of the glyphs within its bounds,
    read from left to right.  The bounds cut the positions from 0 up to
    900 into pieces without gap or overlap: joined in their order, the
    untrimmed texts of the columns are the text of all glyphs at these
    positions, each once, and a glyph at another position is in no
    column.  The glyphs 4, 0, 0 at the positions 10, 18, 26 give the
    account [400]. *)
Theorem slice_columns_spec :
  forall chars : list glyph,
    let sorted := sort_by_x0 chars in
    Permutation sorted chars /\ x0_sorted sorted
    /\ slice_columns chars
       = map (fun b : str * Z * Z =>
                (fst (fst b), strip (column_text sorted (snd (fst b)) (snd b))))
           COLUMN_BOUNDS
    /\ concat (map (fun b : str * Z * Z =>
                      column_text sorted (snd (fst b)) (snd b)) COLUMN_BOUNDS)
       = column_text sorted 0 900
    /\ (forall ch, In ch chars -> in_bounds 0 900 ch = false ->
          forall b, In b COLUMN_BOUNDS -> in_bounds (snd (fst b)) (snd b) ch = false)
    /\ item (L "Konto") (slice_columns KONTO_GLYPHS) = L "400".
Proof.
  intros chars sorted.
  pose proof (sort_by_x0_sorted chars) as Hs. fold sorted in Hs.
  split; [apply sort_by_x0_perm|]. split; [exact Hs|].
  split.
  { unfold slice_columns. fold sorted. apply map_ext. intros [[n a] b]. reflexivity. }
  split.
  { cbn [COLUMN_BOUNDS map concat fst snd]. rewrite app_nil_r.
    rewrite (column_text_split 660 750 900), (column_text_split 580 660 900),
      (column_text_split 500 580 900), (column_text_split 410 500 900),
      (column_text_split 320 410 900), (column_text_split 90 320 900),
      (column_text_split 0 90 900); auto; lia. }
  split; [|vm_compute; reflexivity].
  intros ch _ Hout b Hb.
  assert (Hsub : forall a c, (0 <= a <= c)%Z -> (c <= 900)%Z ->
            in_bounds a c ch = false).
  { intros a c Hac Hc.
    destruct (in_bounds_split 0 a c ch ltac:(lia)) as [E1 _].
    destruct (in_bounds_split 0 c 900 ch ltac:(lia)) as [E2 _].
    rewrite Hout in E2. symmetry in E2. apply orb_false_iff in E2 as [E2 _].
    rewrite E2 in E1. symmetry in E1. now apply orb_false_iff in E1 as [_ E1]. }
  cbn [COLUMN_BOUNDS In] in Hb.
  repeat (destruct Hb as [<- | Hb]; [cbn [fst snd]; apply Hsub; lia|]).
  destruct Hb.
Qed.

(** ** The order of the glyphs of a page *)

Lemma filter_perm {A} (f : A -> bool) (l l' : list A) :
  Permutation l l' -> Permutation (filter f l) (filter f l').
Proof.
  induction 1 as [|x l l' _ IH|x y l|l l' l'' _ IH1 _ IH2]; cbn [filter].
  - constructor.
  - destruct (f x); auto.
  - destruct (f x), (f y); auto. apply perm_swap.
  - now rewrite IH1.
Qed.

Lemma x0_sorted_unique (l1 : list glyph) :
  forall l2,
    x0_sorted l1 -> x0_sorted l2 -> Permutation l1 l2 ->
    (forall a b, In a l1 -> In b l1 -> (g_x0 a == g_x0 b)%Q -> a = b) ->
    l1 = l2.
Proof.
  induction l1 as [|a t1 IH]; intros l2 S1 S2 P Hinj.
  - apply Permutation_nil in P. now subst.
  - destruct l2 as [|b t2].
    { apply Permutation_sym, Permutation_nil in P. discriminate. }
    destruct S1 as [Ha S1]. destruct S2 as [Hb S2].
    assert (E : a = b).
    { assert (Hab : In a (b :: t2)) by (apply (Permutation_in _ P); now left).
      assert (Hba : In b (a :: t1))
        by (apply (Permutation_in _ (Permutation_sym P)); now left).
      destruct Hab as [-> | Hab]; auto.
      destruct Hba as [-> | Hba]; auto.
      rewrite Forall_forall in Ha, Hb.
      specialize (Ha b Hba). specialize (Hb a Hab).
      apply Hinj; simpl; auto. lra. }
    subst b. f_equal. apply IH; auto.
    + now apply Permutation_cons_inv in P.
    + intros x y Hx Hy. apply Hinj; simpl; auto.
Qed.

Lemma ascending_lower (a : Z) (ks : list Z) :
  ascending (a :: ks) -> forall x, In x ks -> (a < x)%Z.
Proof.
  revert a. induction ks as [|b ks IH]; intros a H x Hx; [easy|].
  destruct H as [Hab H]. destruct Hx as [<- | Hx]; auto.
  specialize (IH b H x Hx). lia.
Qed.

Lemma ascending_tail (a : Z) (ks : list Z) : ascending (a :: ks) -> ascending ks.
Proof. destruct ks; [easy|]. intros [_ H]. exact H. Qed.

Lemma ascending_unique (l1 : list Z) :
  forall l2,
    ascending l1 -> ascending l2 -> (forall x, In x l1 <-> In x l2) -> l1 = l2.
Proof.
  induction l1 as [|a t1 IH]; intros l2 A1 A2 Hm.
  - destruct l2 as [|b t2]; auto. exfalso. apply (Hm b). now left.
  - destruct l2 as [|b t2]; [exfalso; apply (Hm a); now left|].
    pose proof (ascending_lower _ _ A1) as L1.
    pose proof (ascending_lower _ _ A2) as L2.
    assert (E : a = b).
    { assert (Hab : In a (b :: t2)) by (apply Hm; now left).
      assert (Hba : In b (a :: t1)) by (apply Hm; now left).
      destruct Hab as [-> | Hab]; auto.
      destruct Hba as [-> | Hba]; auto.
      specialize (L1 b Hba). specialize (L2 a Hab). lia. }
    subst b. f_equal. apply IH; eauto using ascending_tail.
    intros x. split; intros Hx.
    + assert (H : In x (a :: t2)) by (apply Hm; now right).
      destruct H as [<- | H]; auto. specialize (L1 a Hx). lia.
    + assert (H : In x (a :: t1)) by (apply Hm; now right).
      destruct H as [<- | H]; auto. specialize (L2 a Hx). lia.
Qed.

Lemma collect_lines_keys (chars : list glyph) :
  collect_lines chars
  = map (fun y => (y, glyphs_of_line y chars))
      (sorted_keys (map fst (group_lines chars)))
  /\ ascending (sorted_keys (map fst (group_lines chars)))
  /\ forall y, In y (sorted_keys (map fst (group_lines chars)))
               <-> In y (map line_key chars).
Proof.
  destruct (group_lines_from chars []) as (H1 & H2 & H3).
  fold (group_lines chars) in H1, H2, H3.
  assert (Hn : NoDup (map fst (group_lines chars))) by (apply H3; constructor).
  destruct (sorted_keys_spec _ Hn) as [Ha Hs].
  split; [|split; auto].
  - unfold collect_lines. apply map_ext. intros y. f_equal. apply H1.
  - intros y. rewrite Hs, H2. simpl. tauto.
Qed.

(** X16. The lines that [parse_pdf] reads from a page do not depend on
    the order in which the page lists its glyphs, as long as no two
    different glyphs of one line stand at the same horizontal position:
    two lists of the same glyphs give the same lines with the same
    columns. *)
Theorem page_lines_order_free :
  forall chars chars' : list glyph,
    Permutation chars chars' ->
    positions_differ chars ->
    page_lines chars = page_lines chars'.
Proof.
  intros chars chars' P Hd. unfold page_lines.
  destruct (collect_lines_keys chars) as (E1 & A1 & K1).
  destruct (collect_lines_keys chars') as (E2 & A2 & K2).
  rewrite E1, E2, !map_map. cbn [snd].
  assert (Ek : sorted_keys (map fst (group_lines chars))
               = sorted_keys (map fst (group_lines chars'))).
  { apply ascending_unique; auto. intros y. rewrite K1, K2.
    split; apply Permutation_in; [|apply Permutation_sym];
      now apply Permutation_map. }
  rewrite <- Ek. apply map_ext_in. intros y Hy. f_equal.
  unfold slice_columns.
  assert (Es : sort_by_x0 (glyphs_of_line y chars)
               = sort_by_x0 (glyphs_of_line y chars')).
  { apply x0_sorted_unique; try apply sort_by_x0_sorted.
    - rewrite !sort_by_x0_perm. now apply filter_perm.
    - intros a b Ha Hb.
      apply (Permutation_in _ (sort_by_x0_perm _)) in Ha, Hb.
      apply filter_In in Ha as [Ha Ka]. apply filter_In in Hb as [Hb Kb].
      apply Z.eqb_eq in Ka, Kb. apply Hd; auto. congruence. }
  now rewrite Es.
Qed.

(** X16 on two glyphs of one line, listed from right to left and from
    left to right. *)
Lemma page_lines_order_free_witness :
  page_lines [Glyph (L "b") 20 5; Glyph (L "a") 10 5]
  = page_lines [Glyph (L "a") 10 5; Glyph (L "b") 20 5].
Proof.
  apply page_lines_order_free.
  - apply perm_swap.
  - intros a b [<- | [<- | []]] [<- | [<- | []]] _ H; auto;
      vm_compute in H; discriminate.
Defined.

(** ** Normal forms of month tokens *)

Lemma sep_not_space (c : ascii) : is_sep c = true -> is_space c = false.
Proof.
  unfold is_sep. rewrite !orb_true_iff, !Ascii.eqb_eq.
  intros [[->| ->]| ->]; reflexivity.
Qed.

(** The greedy [\s*] reads the whole run of blanks when the rest of the
    pattern succeeds there, or cannot start at a blank. *)
Lemma star_ws_greedy {A} (k : mstate -> option A) (w b : str) :
  forallb is_space w = true -> stops is_space b = true ->
  forall p g,
    (k (MState (prev_after p w) b g) <> None \/
     (forall st c t, rest st = c :: t -> is_space c = true -> k st = None)) ->
    rmatch (Star ws) k (MState p (w ++ b) g) = k (MState (prev_after p w) b g).
Proof.
  intros Hw Hb. induction w as [|c w IH]; intros p g Hk.
  - cbn [app prev_after rmatch rest]. destruct b as [|x b]; [reflexivity|].
    cbn [length star_loop]. unfold ws at 1. cbn [rmatch rest].
    cbn [stops] in Hb. apply negb_true_iff in Hb. rewrite Hb. reflexivity.
  - cbn [forallb] in Hw. apply andb_true_iff in Hw as [Hc Hw].
    specialize (IH Hw (Some c) g).
    cbn [prev_after] in *.
    change ((c :: w) ++ b) with (c :: (w ++ b)).
    cbn [rmatch rest length star_loop]. unfold ws at 1. cbn [rmatch rest grp].
    rewrite Hc.
    replace (length (w ++ b) <? S (length (w ++ b))) with true
      by (symmetry; apply Nat.ltb_lt; lia).
    change (star_loop (rmatch ws) k (length (w ++ b)) (MState (Some c) (w ++ b) g))
      with (rmatch (Star ws) k (MState (Some c) (w ++ b) g)).
    rewrite (IH Hk).
    destruct (k (MState (prev_after (Some c) w) b g)) eqn:E; [reflexivity|].
    destruct Hk as [Hk|Hk]; [congruence|].
    apply (Hk _ c (w ++ b)); auto.
Qed.

Lemma lstrip_split (s : str) :
  exists w, s = w ++ lstrip s /\ forallb is_space w = true.
Proof.
  induction s as [|c s [w [E Hw]]]; [exists []; auto|].
  cbn [lstrip]. destruct (is_space c) eqn:Ec.
  - exists (c :: w). cbn [forallb app]. rewrite Ec, Hw. split; [congruence|reflexivity].
  - exists []. auto.
Qed.

Lemma rmatch_seq {A} (r1 r2 : regex) (k : mstate -> option A) (st : mstate) :
  rmatch (Seq r1 r2) k st = rmatch r1 (rmatch r2 k) st.
Proof. reflexivity. Qed.

Lemma sep_cannot_start {A} (k : mstate -> option A) :
  forall st c t, rest st = c :: t -> is_space c = true ->
    rmatch (Seq (Grp (Cls is_sep)) (Star ws)) k st = None.
Proof.
  intros st c t Hr Hc. rewrite rmatch_seq. cbn [rmatch]. rewrite Hr.
  destruct (is_sep c) eqn:Ec; [|reflexivity].
  apply sep_not_space in Ec. congruence.
Qed.

Lemma star_ws_run {A} (k : mstate -> option A) (p : option ascii) (s : str)
  (g : option str) :
  (forall st c t, rest st = c :: t -> is_space c = true -> k st = None) ->
  exists p', rmatch (Star ws) k (MState p s g) = k (MState p' (lstrip s) g).
Proof.
  intros Hk. destruct (lstrip_split s) as [w [Es Hw]].
  exists (prev_after p w).
  transitivity (rmatch (Star ws) k (MState p (w ++ lstrip s) g)).
  - rewrite <- Es. reflexivity.
  - apply star_ws_greedy; auto using lstrip_stops.
Qed.

Lemma star_ws_last (p : option ascii) (s : str) (g : option str) :
  exists p', rmatch (Star ws) (fun st => Some st) (MState p s g)
             = Some (MState p' (lstrip s) g).
Proof.
  destruct (lstrip_split s) as [w [Es Hw]].
  exists (prev_after p w).
  transitivity (rmatch (Star ws) (fun st => Some st) (MState p (w ++ lstrip s) g)).
  - rewrite <- Es. reflexivity.
  - apply star_ws_greedy; auto using lstrip_stops. left. discriminate.
Qed.

(** One attempt of [SEPARATOR_CLEAN_RE]: it succeeds where a separator
    follows the blanks at the position, and reads the blanks behind it. *)
Lemma sep_match_some (p : option ascii) (s : str) (x : ascii) (r : str) :
  lstrip s = x :: r -> is_sep x = true ->
  exists st', match_here SEPARATOR_CLEAN_RE p s = Some st'
              /\ rest st' = lstrip r /\ grp st' = Some [x].
Proof.
  intros E Hx. unfold match_here.
  change SEPARATOR_CLEAN_RE with (Seq (Star ws) (Seq (Grp (Cls is_sep)) (Star ws))).
  rewrite rmatch_seq.
  destruct (star_ws_run (rmatch (Seq (Grp (Cls is_sep)) (Star ws)) (fun st => Some st))
              p s None (sep_cannot_start _)) as [p' ->].
  rewrite E, rmatch_seq. cbn [rmatch rest]. rewrite Hx. cbn [prev rest grp].
  match goal with
  | |- context [star_loop (rmatch ws) ?k (length r) ?st] =>
      change (star_loop (rmatch ws) k (length r) st) with (rmatch (Star ws) k st)
  end.
  match goal with
  | |- context [rmatch (Star ws) _ (MState ?q r ?g)] =>
      destruct (star_ws_last q r g) as [p2 ->]
  end.
  eexists. split; [reflexivity|]. cbn [rest grp]. split; [reflexivity|].
  unfold consumed. cbn [rest length].
  replace (S (length r) - length r) with 1 by lia. reflexivity.
Qed.

Lemma sep_match_none (p : option ascii) (s : str) :
  match lstrip s with x :: _ => is_sep x = false | [] => True end ->
  match_here SEPARATOR_CLEAN_RE p s = None.
Proof.
  intros H. unfold match_here.
  change SEPARATOR_CLEAN_RE with (Seq (Star ws) (Seq (Grp (Cls is_sep)) (Star ws))).
  rewrite rmatch_seq.
  destruct (star_ws_run (rmatch (Seq (Grp (Cls is_sep)) (Star ws)) (fun st => Some st))
              p s None (sep_cannot_start _)) as [p' ->].
  rewrite rmatch_seq. cbn [rmatch rest]. destruct (lstrip s) as [|x r]; [reflexivity|].
  rewrite H. reflexivity.
Qed.

Lemma sep_scan_prev (s : str) (k : nat) (p p' : option ascii) :
  sub_scan SEPARATOR_CLEAN_RE k p s = sub_scan SEPARATOR_CLEAN_RE k p' s.
Proof.
  destruct s as [|c s]; [reflexivity|].
  destruct k as [|k]; [|reflexivity].
  cbn [sub_scan].
  destruct (lstrip (c :: s)) as [|x r] eqn:E.
  - rewrite !sep_match_none; auto; rewrite E; exact I.
  - destruct (is_sep x) eqn:Hx.
    + destruct (sep_match_some p _ _ _ E Hx) as [st1 [-> [R1 G1]]].
      destruct (sep_match_some p' _ _ _ E Hx) as [st2 [-> [R2 G2]]].
      rewrite R1, R2, G1, G2. reflexivity.
    + rewrite !sep_match_none; auto; rewrite E; exact Hx.
Qed.

Lemma sep_scan_skip (k : nat) :
  forall s p, sub_scan SEPARATOR_CLEAN_RE k p s
              = sub_scan SEPARATOR_CLEAN_RE 0 None (skipn k s).
Proof.
  induction k as [|k IH]; intros s p.
  - rewrite skipn_O. apply sep_scan_prev.
  - destruct s as [|c s]; [reflexivity|].
    cbn [sub_scan skipn]. apply IH.
Qed.

(** The scan for [SEPARATOR_CLEAN_RE], one step: at a separator, or at
    blanks before one, the separator alone is written and the scan goes
    on behind the blanks that follow it; any other character is copied. *)
Lemma sep_scan_step (p : option ascii) (c : ascii) (s : str) :
  sub_scan SEPARATOR_CLEAN_RE 0 p (c :: s) =
    match lstrip (c :: s) with
    | x :: r =>
        if is_sep x then x :: sub_scan SEPARATOR_CLEAN_RE 0 None (lstrip r)
        else c :: sub_scan SEPARATOR_CLEAN_RE 0 None s
    | [] => c :: sub_scan SEPARATOR_CLEAN_RE 0 None s
    end.
Proof.
  cbn [sub_scan].
  destruct (lstrip (c :: s)) as [|x r] eqn:E.
  - rewrite sep_match_none by (rewrite E; exact I).
    f_equal. apply sep_scan_prev.
  - destruct (is_sep x) eqn:Hx.
    + destruct (sep_match_some p _ _ _ E Hx) as [st1 [-> [R1 G1]]].
      rewrite R1, G1.
      assert (Hu : exists u, s = u ++ lstrip r).
      { destruct (lstrip_split (c :: s)) as [w [Es Hw]]. rewrite E in Es.
        destruct (lstrip_split r) as [w2 [Er _]].
        destruct w as [|c' w]; cbn [app] in Es; injection Es as -> ->.
        - exists w2. exact Er.
        - exists (w ++ x :: w2). rewrite <- app_assoc. cbn [app]. rewrite <- Er.
          reflexivity. }
      destruct Hu as [u Hu].
      remember (lstrip r) as t eqn:Et. rewrite Hu.
      replace (length (c :: u ++ t) - length t) with (S (length u))
        by (cbn [length]; rewrite length_app; lia).
      cbn [firstn length].
      rewrite firstn_app, Nat.sub_diag, firstn_all, firstn_O, app_nil_r.
      replace (S (length u) - 1) with (length u) by lia.
      rewrite sep_scan_skip.
      rewrite skipn_app, Nat.sub_diag, skipn_all, skipn_O. reflexivity.
    + rewrite sep_match_none by (rewrite E; exact Hx).
      f_equal. apply sep_scan_prev.
Qed.

Lemma lstrip_length (s : str) : length (lstrip s) <= length s.
Proof.
  induction s as [|c s IH]; cbn [lstrip length]; auto.
  destruct (is_space c); cbn [length]; lia.
Qed.

Lemma spaced_blank (q : kind) (c : ascii) (s : str) :
  is_space c = true -> spaced q (c :: s) = true ->
  c = " "%char /\ q = KOther
  /\ exists x r, s = x :: r /\ is_space x = false /\ spaced KOther r = true.
Proof.
  intros Hc. cbn [spaced]. rewrite Hc.
  rewrite !andb_true_iff, Ascii.eqb_eq. intros [[-> Hq] Hs].
  split; [reflexivity|]. split; [destruct q; try discriminate; reflexivity|].
  destruct s as [|x r]; [discriminate|].
  cbn [spaced] in Hs. destruct (is_space x) eqn:Ex.
  - rewrite andb_false_r in Hs. discriminate.
  - eauto.
Qed.

Lemma spaced_lstrip (r : str) :
  spaced KOther r = true -> spaced KOther (lstrip r) = true.
Proof.
  destruct r as [|a r]; auto. intros H.
  destruct (is_space a) eqn:Ea.
  - destruct (spaced_blank _ _ _ Ea H) as [_ [_ [x [r' [-> [Ex Hr]]]]]].
    cbn [lstrip]. rewrite Ea, Ex. cbn [spaced]. rewrite Ex. exact Hr.
  - cbn [lstrip]. rewrite Ea. exact H.
Qed.

Lemma kind_of_blank (c : ascii) : is_space c = true -> kind_of c = KSpace.
Proof. unfold kind_of. now intros ->. Qed.

Lemma kind_of_sep (c : ascii) : is_sep c = true -> kind_of c = KSep.
Proof. intros H. unfold kind_of. now rewrite (sep_not_space _ H), H. Qed.

Lemma kind_of_other (c : ascii) :
  is_space c = false -> is_sep c = false -> kind_of c = KOther.
Proof. unfold kind_of. now intros -> ->. Qed.

Lemma kind_of_other_inv (c : ascii) :
  kind_of c = KOther -> is_space c = false /\ is_sep c = false.
Proof.
  unfold kind_of. destruct (is_space c); [discriminate|].
  destruct (is_sep c); [discriminate|]. auto.
Qed.

(** The text behind a character that is no blank. *)
Lemma scan_input_tail (q : kind) (c : ascii) (s : str) :
  is_space c = false -> scan_input q (c :: s) -> spaced KOther s = true.
Proof.
  intros Hc. destruct q; cbn [scan_input spaced]; rewrite ?Hc; auto.
  - intros [x [r [[= <- <-] [_ H]]]]. exact H.
  - intros [H _]. exact H.
Qed.

(** The output of the scan is in normal form. *)
Lemma sep_scan_normal (n : nat) :
  forall s q, length s <= n -> scan_input q s ->
    normal_from q (sub_scan SEPARATOR_CLEAN_RE 0 None s) = true.
Proof.
  induction n as [|n IH]; intros s q Hn Hin.
  - destruct s; [|cbn [length] in Hn; lia].
    destruct q; try reflexivity.
    destruct Hin as [x [r [H _]]]. discriminate.
  - destruct s as [|c s].
    { destruct q; try reflexivity.
      destruct Hin as [x [r [H _]]]. discriminate. }
    cbn [length] in Hn. rewrite sep_scan_step.
    destruct (is_space c) eqn:Ec.
    + assert (Hq : spaced q (c :: s) = true).
      { destruct q; cbn [scan_input] in Hin; auto.
        - destruct Hin as [x [r [[= <- <-] [Hk _]]]].
          rewrite (kind_of_blank _ Ec) in Hk. discriminate.
        - destruct Hin as [_ Hs]. cbn [stops] in Hs. rewrite Ec in Hs. discriminate. }
      destruct (spaced_blank _ _ _ Ec Hq) as [-> [-> [x [r [-> [Ex Hr]]]]]].
      cbn [lstrip]. rewrite Ec, Ex.
      destruct (is_sep x) eqn:Sx.
      * cbn [normal_from]. rewrite (kind_of_sep _ Sx). cbn [is_KSpace negb andb].
        apply IH.
        -- pose proof (lstrip_length r). cbn [length] in Hn. lia.
        -- split; [now apply spaced_lstrip | apply lstrip_stops].
      * cbn [normal_from]. rewrite (kind_of_blank _ Ec). cbn [is_KOther andb].
        apply IH; [lia|].
        exists x, r. auto using kind_of_other.
    + pose proof (scan_input_tail _ _ _ Ec Hin) as Hs.
      cbn [lstrip]. rewrite Ec.
      destruct (is_sep c) eqn:Sc.
      * cbn [normal_from]. rewrite (kind_of_sep _ Sc).
        assert (Hq : is_KSpace q = false).
        { destruct q; auto. destruct Hin as [x [r [[= <- <-] [Hk _]]]].
          rewrite (kind_of_sep _ Sc) in Hk. discriminate. }
        rewrite Hq. cbn [negb andb].
        apply IH.
        -- pose proof (lstrip_length s). lia.
        -- split; [now apply spaced_lstrip | apply lstrip_stops].
      * cbn [normal_from]. rewrite (kind_of_other _ Ec Sc).
        apply IH; [lia | exact Hs].
Qed.

Lemma normal_behind_blank (s : str) :
  normal_from KSpace s = true ->
  exists x r, s = x :: r /\ kind_of x = KOther.
Proof.
  destruct s as [|x r]; [discriminate|].
  cbn [normal_from]. intros H. exists x, r. split; [reflexivity|].
  unfold kind_of in *.
  destruct (is_space x); [|destruct (is_sep x)];
    cbn [is_KOther is_KSpace negb andb] in H; auto; [|discriminate].
  rewrite andb_false_r in H. discriminate.
Qed.

Lemma normal_behind_sep (s : str) :
  normal_from KSep s = true -> stops is_space s = true.
Proof.
  destruct s as [|x r]; [reflexivity|].
  cbn [normal_from stops]. unfold kind_of.
  destruct (is_space x); [|reflexivity].
  cbn [is_KOther]. rewrite andb_false_r. discriminate.
Qed.

(** The scan leaves a text in normal form as it is. *)
Lemma sep_scan_fixed (s : str) :
  forall q, normal_from q s = true ->
    sub_scan SEPARATOR_CLEAN_RE 0 None s = s.
Proof.
  induction s as [|c s IH]; intros q H; [reflexivity|].
  rewrite sep_scan_step. cbn [normal_from] in H.
  destruct (is_space c) eqn:Ec.
  - rewrite (kind_of_blank _ Ec) in H.
    apply andb_true_iff in H as [_ H].
    destruct (normal_behind_blank _ H) as [x [r [-> Hk]]].
    apply kind_of_other_inv in Hk as [Ex Sx].
    cbn [lstrip]. rewrite Ec, Ex, Sx. f_equal. now apply (IH KSpace).
  - cbn [lstrip]. rewrite Ec. destruct (is_sep c) eqn:Sc.
    + rewrite (kind_of_sep _ Sc) in H. apply andb_true_iff in H as [_ H].
      rewrite (lstrip_fixed _ (normal_behind_sep _ H)).
      f_equal. now apply (IH KSep).
    + rewrite (kind_of_other _ Ec Sc) in H. f_equal. now apply (IH KOther).
Qed.

Lemma normal_spaced (s : str) :
  forall q q', normal_from q s = true ->
    is_KSpace q' = is_KSpace q ->
    (is_KOther q = true -> is_KOther q' = true) ->
    spaced q' s = true.
Proof.
  induction s as [|c s IH]; intros q q' H Hs Ho.
  - cbn [normal_from spaced] in *. now rewrite Hs.
  - cbn [normal_from spaced] in *. unfold kind_of in H.
    destruct (is_space c).
    + apply andb_true_iff in H as [H H3]. apply andb_true_iff in H as [H1 H2].
      rewrite H1, (Ho H2), (IH KSpace KSpace H3); auto.
    + destruct (is_sep c).
      * apply andb_true_iff in H as [_ H]. apply (IH KSep); auto.
      * apply (IH KOther); auto.
Qed.

Lemma split_from_nonempty (s : str) :
  forall a cur, split_from (a :: cur) s <> [].
Proof.
  induction s as [|c s IH]; intros a cur; cbn [split_from]; [discriminate|].
  destruct (is_space c); [discriminate|]. apply IH.
Qed.

Lemma join_cons (sep p : str) (ps : list str) :
  ps <> [] -> join sep (p :: ps) = p ++ sep ++ join sep ps.
Proof. destruct ps; [congruence | reflexivity]. Qed.

(** Splitting a text with single spaces at its blanks and joining the
    words with a space gives the text back. *)
Lemma join_split_from (s : str) :
  forall cur q, spaced q s = true ->
    is_KOther q = match cur with [] => false | _ => true end ->
    join (L " ") (split_from cur s) = cur ++ s.
Proof.
  induction s as [|c s IH]; intros cur q H Hq.
  - cbn [split_from]. rewrite app_nil_r. destruct cur; reflexivity.
  - cbn [split_from]. destruct (is_space c) eqn:Ec.
    + destruct (spaced_blank _ _ _ Ec H) as [-> [-> [x [r [-> [Ex Hr]]]]]].
      destruct cur as [|a cur]; [discriminate|].
      rewrite join_cons.
      * rewrite (IH [] KSpace); auto.
      * cbn [split_from]. rewrite Ex. apply split_from_nonempty.
    + cbn [spaced] in H. rewrite Ec in H.
      rewrite (IH (cur ++ [c]) KOther); auto.
      * now rewrite <- app_assoc.
      * destruct cur; reflexivity.
Qed.

Lemma split_from_words (s : str) :
  forall cur, no_blank cur = true ->
    Forall (fun w => w <> [] /\ no_blank w = true) (split_from cur s).
Proof.
  induction s as [|c s IH]; intros cur Hc; cbn [split_from].
  - destruct cur; constructor; auto. split; [discriminate | exact Hc].
  - destruct (is_space c) eqn:Ec.
    + destruct cur; [now apply IH|].
      constructor; [split; [discriminate | exact Hc] | now apply IH].
    + apply IH. unfold no_blank. rewrite forallb_app. cbn [forallb].
      unfold no_blank in Hc. now rewrite Hc, Ec.
Qed.

Lemma spaced_word (w r : str) :
  no_blank w = true -> spaced KOther (w ++ r) = spaced KOther r.
Proof.
  induction w as [|c w IH]; cbn [no_blank forallb app spaced]; auto.
  intros H. apply andb_true_iff in H as [Hc Hw].
  apply negb_true_iff in Hc. rewrite Hc. now apply IH.
Qed.

Lemma spaced_word_first (q : kind) (w r : str) :
  w <> [] -> no_blank w = true -> spaced q (w ++ r) = spaced KOther r.
Proof.
  destruct w as [|c w]; [congruence|]. intros _ H.
  cbn [no_blank forallb] in H. apply andb_true_iff in H as [Hc Hw].
  apply negb_true_iff in Hc. cbn [app spaced]. rewrite Hc.
  now apply spaced_word.
Qed.

Lemma spaced_join (words : list str) :
  Forall (fun w => w <> [] /\ no_blank w = true) words -> words <> [] ->
  forall q, spaced q (join (L " ") words) = true.
Proof.
  induction 1 as [|w ws [Hw1 Hw2] Hws IH]; [intros H; now destruct H|]. intros _ q.
  destruct ws as [|w2 ws].
  - cbn [join]. rewrite <- (app_nil_r w), spaced_word_first; auto.
  - rewrite join_cons by discriminate.
    rewrite spaced_word_first; auto.
    change (L " " ++ ?x) with (" "%char :: x).
    cbn [spaced]. change (is_space " ") with true. cbn [is_KOther andb].
    rewrite Ascii.eqb_refl. apply IH. discriminate.
Qed.

Lemma spaced_join_split (t : str) :
  spaced KStart (join (L " ") (split t)) = true.
Proof.
  unfold split.
  pose proof (split_from_words t [] eq_refl) as H.
  destruct (split_from [] t) eqn:E; [reflexivity|].
  apply spaced_join; [exact H | discriminate].
Qed.

Lemma normalize_normal (t : str) :
  normal_token (normalize_month_token t) = true.
Proof.
  unfold normalize_month_token, normal_token, sub_group1.
  apply (sep_scan_normal (length (join (L " ") (split t)))); auto.
  cbn [scan_input]. apply spaced_join_split.
Qed.

Lemma normal_fixed (s : str) :
  normal_token s = true -> normalize_month_token s = s.
Proof.
  intros H. unfold normalize_month_token, sub_group1, split.
  rewrite (join_split_from s [] KStart); auto.
  - apply (sep_scan_fixed _ KStart H).
  - apply (normal_spaced _ KStart KStart H); auto.
Qed.

(** X17. [normalize_month_token] is idempotent, and its result is in
    normal form: every blank of the result is a single space, and it
    stands between two characters that are neither blanks nor the
    separators [/], [.] and [-]; the result neither begins nor ends
    with a blank. *)
Theorem normalize_month_token_idempotent :
  forall t : str,
    normal_token (normalize_month_token t) = true
    /\ normalize_month_token (normalize_month_token t) = normalize_month_token t.
Proof.
  intros t. split; [apply normalize_normal|].
  apply normal_fixed, normalize_normal.
Qed.

Lemma extract_month_tokens_normalized (src t : str) :
  In t (extract_month_tokens src) -> exists m, t = normalize_month_token m.
Proof.
  rewrite extract_month_tokens_dedup. intros H.
  apply (proj1 (dedup_first_In _ _)) in H.
  apply in_map_iff in H as [m [<- _]]. now exists m.
Qed.

Lemma detect_month_header_tokens (text : str) (h : list str) :
  detect_month_header text = Some h ->
  exists src, incl h (extract_month_tokens src).
Proof.
  unfold detect_month_header.
  destruct (detect_in_lines (splitlines text)) as [h'|] eqn:E.
  - intros [= <-]. apply detect_in_lines_some in E as [line [_ [_ [_ ->]]]].
    exists line. intros x Hx. unfold last13 in Hx.
    rewrite <- (firstn_skipn (length (extract_month_tokens line) - 13)).
    apply in_or_app. now right.
  - destruct (Nat.leb 13 (length (extract_month_tokens text))); [|discriminate].
    intros [= <-]. exists text.
    exact (slice_last_incl 13 (extract_month_tokens text)).
Qed.

(** X18. The tokens of a detected header are in normal form:
    normalizing the header once more changes none of them. *)
Theorem header_tokens_normal :
  forall (text : str) (h : list str),
    detect_month_header text = Some h ->
    Forall (fun t => normal_token t = true) h
    /\ map normalize_month_token h = h.
Proof.
  intros text h H.
  destruct (detect_month_header_tokens _ _ H) as [src Hsrc].
  assert (Hn : Forall (fun t => normal_token t = true) h).
  { apply Forall_forall. intros t Ht.
    destruct (extract_month_tokens_normalized src t (Hsrc _ Ht)) as [m ->].
    apply normalize_normal. }
  split; [exact Hn|].
  clear H Hsrc. induction Hn as [|t h Ht _ IH]; cbn [map]; [reflexivity|].
  now rewrite (normal_fixed _ Ht), IH.
Qed.

Lemma header_tokens_normal_witness :
  detect_month_header SAMPLE_PAGE = Some HEADER_2024
  /\ Forall (fun t => normal_token t = true) HEADER_2024
  /\ map normalize_month_token HEADER_2024 = HEADER_2024.
Proof.
  assert (H : detect_month_header SAMPLE_PAGE = Some HEADER_2024)
    by (vm_compute; reflexivity).
  split; [exact H|].
  exact (header_tokens_normal _ _ H).
Defined.
